(** * ChatLab: streaming import pipeline, worker coordination and preprocessor

    A shallow embedding of
      - [electron/main/worker/workerManager.ts]  (request/response protocol of
        the controlling thread, and the streaming import engine that runs in
        the worker),
      - [electron/main/parser/formats/shuakami-qq-preprocessor.ts]
        (size-triggered slimming of QQ exports and its temp-file cleanup),
    followed by the properties of the specification that concern them.

    Conventions of the embedding:
      - JavaScript code that can throw is written in a state-and-exception
        monad [M]: an exception keeps the side effects made before it, as in
        JavaScript;
      - [Map] and [Set] objects are stdpp finite maps and sets;
      - SQLite tables are lists of rows in rowid order, a prepared statement
        is a function on the tables;
      - the file system is a finite map from paths to files;
      - the format parsers ([../parser]) are not part of the sources at hand:
        what [streamParseFile] delivers for a path is a field of the
        [World] the code runs in, as are the clock, the random suffix of a
        session id and the operating system's temp directory;
      - a storage failure is injected by [storage_fault]: the statement
        after that many successful ones throws, once; [ROLLBACK] does not
        fail; directories, pragmas and the write-ahead log of SQLite are
        left out;
      - Node streams and timers are seen through their handlers: a run is a
        list of events, each handled as the registered listener does; the
        delay of a timer is not measured, a timer may fire at any moment
        while it is armed. *)

From stdpp Require Import gmap strings list fin_maps pretty sorting.
From Stdlib Require Import ZArith Ascii.
From Stdlib Require Floats.PrimFloat.

Local Open Scope string_scope.

(** ** Exceptions and state *)

(** The outcome of running a piece of JavaScript: a value, a thrown
    exception (its message), or no outcome at all ([Hang]: a promise that
    is never settled). *)
Inductive result (A : Type) : Type :=
| Ok (a : A)
| Throw (e : string)
| Hang.
Arguments Ok {A} a.
Arguments Throw {A} e.
Arguments Hang {A}.

Definition M (S A : Type) : Type := S -> result A * S.

Definition mret {S A} (a : A) : M S A := fun s => (Ok a, s).

Definition mbind {S A B} (m : M S A) (k : A -> M S B) : M S B :=
  fun s =>
    match m s with
    | (Ok a, s') => k a s'
    | (Throw e, s') => (Throw e, s')
    | (Hang, s') => (Hang, s')
    end.

Definition throw {S A} (e : string) : M S A := fun s => (Throw e, s).

Definition gets {S A} (f : S -> A) : M S A := fun s => (Ok (f s), s).

Definition modify {S} (f : S -> S) : M S unit := fun s => (Ok tt, f s).

(** [try { m } catch (e) { h e }] *)
Definition try_catch {S A} (m : M S A) (h : string -> M S A) : M S A :=
  fun s =>
    match m s with
    | (Throw e, s') => h e s'
    | r => r
    end.

(** [try { m } finally { f }]: [f] runs whatever [m] did; an exception of
    [f] replaces the outcome of [m]. *)
Definition try_finally {S A} (m : M S A) (f : M S unit) : M S A :=
  fun s =>
    match m s with
    | (Hang, s') => (Hang, s')
    | (r, s') =>
        match f s' with
        | (Ok _, s'') => (r, s'')
        | (Throw e, s'') => (Throw e, s'')
        | (Hang, s'') => (Hang, s'')
        end
    end.

Declare Scope js_scope.
Delimit Scope js_scope with js.
Notation "'do' x <- c ; k" := (mbind c (fun x => k))
  (at level 10, x name, c at level 100, k at level 200) : js_scope.
Notation "'exec' c ; k" := (mbind c (fun _ => k))
  (at level 10, c at level 100, k at level 200) : js_scope.

(** [for (const x of l) body x] *)
Fixpoint forM_ {S A} (body : A -> M S unit) (l : list A) : M S unit :=
  match l with
  | [] => mret tt
  | x :: l' => (exec body x; forM_ body l')%js
  end.

(** ** JavaScript values of the parser contract *)

(** A JavaScript number as far as the import looks at it: [NaN] or an
    integer (timestamps are seconds). *)
Inductive JsNumber : Type :=
| NaN
| Num (z : Z).

Definition isNaN (n : JsNumber) : bool :=
  match n with NaN => true | Num _ => false end.

(** A field of type [string] that may be [undefined] or [null] at run
    time is an [option string]; [truthy] is JavaScript's [!!x] on it. *)
Definition truthy (x : option string) : bool :=
  match x with
  | Some s => negb (String.eqb s "")
  | None => false
  end.

(** [a || b] on strings that may be missing. *)
Definition js_or (a b : option string) : option string :=
  if truthy a then a else b.

Record ParsedMeta : Type := {
  meta_name : string;
  meta_platform : string;
  meta_type : string
}.

Record ParsedMember : Type := {
  platformId : string;
  name : string;
  nickname : option string
}.

Record ParsedMessage : Type := {
  senderPlatformId : option string;
  senderName : option string;
  timestamp : option JsNumber;
  type : option Z;
  content : option string
}.

Inductive Stage : Type := SDetecting | SParsing | SImporting | SDone | SError.

Record ParseProgress : Type := {
  stage : Stage;
  bytesRead : N;
  totalBytes : N;
  messagesProcessed : N;
  percentage : N;
  progress_message : string
}.

(** What a streaming parser does with the callbacks it is given, in
    order, and the structural error it ends with, if any. *)
Inductive ParseEvent : Type :=
| PMeta (meta : ParsedMeta)
| PMembers (members : list ParsedMember)
| PMessageBatch (messages : list ParsedMessage)
| PProgress (progress : ParseProgress).

Record ParseRun : Type := {
  run_events : list ParseEvent;
  run_error : option string
}.

(** All the messages of a run, in file order. *)
Definition run_messages (evs : list ParseEvent) : list ParsedMessage :=
  concat (omap (fun ev => match ev with PMessageBatch ms => Some ms | _ => None end) evs).

(** ** The store: SQLite tables *)

Record MetaRow : Type := {
  r_name : string;
  r_platform : string;
  r_type : string;
  r_imported_at : Z
}.

Record MemberRow : Type := {
  m_id : nat;
  m_platform_id : string;
  m_name : string;
  m_nickname : option string
}.

Record NameHistoryRow : Type := {
  h_id : nat;
  h_member_id : nat;
  h_name : string;
  h_start_ts : Z;
  h_end_ts : option Z
}.

Record MessageRow : Type := {
  msg_id : nat;
  msg_sender_id : nat;
  msg_ts : Z;
  msg_type : Z;
  msg_content : option string
}.

(** The four tables of [createDatabase], rows in rowid order, with the
    AUTOINCREMENT sequence of each table that has one. *)
Record Tables : Type := {
  meta : list MetaRow;
  member : list MemberRow;
  member_seq : nat;
  member_name_history : list NameHistoryRow;
  history_seq : nat;
  message : list MessageRow;
  message_seq : nat
}.

Definition empty_tables : Tables :=
  {| meta := []; member := []; member_seq := 0;
     member_name_history := []; history_seq := 0;
     message := []; message_seq := 0 |}.

Module Sql.

(** [SELECT id FROM member WHERE platform_id = ?] *)
Definition getMemberId (pid : string) (t : Tables) : option nat :=
  m_id <$> List.find (fun r => String.eqb (m_platform_id r) pid) (member t).

(** [INSERT INTO meta (name, platform, type, imported_at) VALUES (?, ?, ?, ?)] *)
Definition insertMeta (n p ty : string) (at_ : Z) (t : Tables) : Tables :=
  {| meta := meta t ++ [{| r_name := n; r_platform := p; r_type := ty; r_imported_at := at_ |}];
     member := member t; member_seq := member_seq t;
     member_name_history := member_name_history t; history_seq := history_seq t;
     message := message t; message_seq := message_seq t |}.

(** [INSERT OR IGNORE INTO member (platform_id, name, nickname) VALUES (?, ?, ?)]
    against [platform_id TEXT NOT NULL UNIQUE]: a row whose platform id is
    taken is ignored. *)
Definition insertMember (pid n : string) (nick : option string) (t : Tables) : Tables :=
  match getMemberId pid t with
  | Some _ => t
  | None =>
      {| meta := meta t;
         member := member t ++ [{| m_id := S (member_seq t); m_platform_id := pid;
                                   m_name := n; m_nickname := nick |}];
         member_seq := S (member_seq t);
         member_name_history := member_name_history t; history_seq := history_seq t;
         message := message t; message_seq := message_seq t |}
  end.

(** [INSERT INTO message (sender_id, ts, type, content) VALUES (?, ?, ?, ?)] *)
Definition insertMessage (sender : nat) (ts ty : Z) (c : option string) (t : Tables) : Tables :=
  {| meta := meta t; member := member t; member_seq := member_seq t;
     member_name_history := member_name_history t; history_seq := history_seq t;
     message := message t ++ [{| msg_id := S (message_seq t); msg_sender_id := sender;
                                 msg_ts := ts; msg_type := ty; msg_content := c |}];
     message_seq := S (message_seq t) |}.

(** [INSERT INTO member_name_history (member_id, name, start_ts, end_ts) VALUES (?, ?, ?, ?)] *)
Definition insertNameHistory (mid : nat) (n : string) (start : Z) (end_ : option Z)
    (t : Tables) : Tables :=
  {| meta := meta t; member := member t; member_seq := member_seq t;
     member_name_history :=
       member_name_history t ++ [{| h_id := S (history_seq t); h_member_id := mid;
                                    h_name := n; h_start_ts := start; h_end_ts := end_ |}];
     history_seq := S (history_seq t);
     message := message t; message_seq := message_seq t |}.

Definition set_member_name (n pid : string) (r : MemberRow) : MemberRow :=
  if String.eqb (m_platform_id r) pid
  then {| m_id := m_id r; m_platform_id := m_platform_id r; m_name := n;
          m_nickname := m_nickname r |}
  else r.

(** [UPDATE member SET name = ? WHERE platform_id = ?] *)
Definition updateMemberName (n pid : string) (t : Tables) : Tables :=
  {| meta := meta t; member := set_member_name n pid <$> member t;
     member_seq := member_seq t;
     member_name_history := member_name_history t; history_seq := history_seq t;
     message := message t; message_seq := message_seq t |}.

Definition close_open_row (ts : Z) (mid : nat) (r : NameHistoryRow) : NameHistoryRow :=
  if Nat.eqb (h_member_id r) mid && bool_decide (h_end_ts r = None)
  then {| h_id := h_id r; h_member_id := h_member_id r; h_name := h_name r;
          h_start_ts := h_start_ts r; h_end_ts := Some ts |}
  else r.

(** [UPDATE member_name_history SET end_ts = ? WHERE member_id = ? AND end_ts IS NULL] *)
Definition updateNameHistoryEndTs (ts : Z) (mid : nat) (t : Tables) : Tables :=
  {| meta := meta t; member := member t; member_seq := member_seq t;
     member_name_history := close_open_row ts mid <$> member_name_history t;
     history_seq := history_seq t;
     message := message t; message_seq := message_seq t |}.

End Sql.

(** ** The file system *)

Inductive File : Type :=
| FText (chunks : list string)
| FDb (t : Tables).

(** Files by path, and the paths the operating system refuses to delete
    (permissions, a file held open elsewhere). Directories are not
    modelled: [ensureDir] and the [mkdirSync] of [createDatabase] have
    no counterpart. *)
Record FS : Type := {
  files : gmap string File;
  locked : gset string
}.

Module Fs.

Definition existsSync (p : string) (fs : FS) : bool :=
  bool_decide (is_Some (files fs !! p)).

Definition remove (p : string) (fs : FS) : FS :=
  {| files := delete p (files fs); locked := locked fs |}.

Definition put (p : string) (f : File) (fs : FS) : FS :=
  {| files := <[p := f]> (files fs); locked := locked fs |}.

(** [fs.unlinkSync(p)]: throws when there is no such file or when the
    operating system refuses. *)
Definition unlinkSync (p : string) : M FS unit :=
  fun fs =>
    match files fs !! p with
    | None => (Throw ("ENOENT: no such file or directory, unlink '" +:+ p +:+ "'"), fs)
    | Some _ =>
        if bool_decide (p ∈ locked fs)
        then (Throw ("EPERM: operation not permitted, unlink '" +:+ p +:+ "'"), fs)
        else (Ok tt, remove p fs)
    end.

(** [stream.write(chunk)] on a write stream of [p]. *)
Definition append (p : string) (chunk : string) (fs : FS) : FS :=
  match files fs !! p with
  | Some (FText cs) => put p (FText (cs ++ [chunk])) fs
  | _ => fs
  end.

End Fs.

(** [path.join(a, b)] for a directory [a] and a plain name [b]. *)
Definition path_join (a b : string) : string :=
  if String.eqb a "" then b
  else if String.eqb (String.substring (String.length a - 1) 1 a) "/" then a +:+ b
  else a +:+ "/" +:+ b.

(** [s.includes(sub)] *)
Definition includes (s sub : string) : bool :=
  match String.index 0 sub s with
  | Some _ => true
  | None => false
  end.

(** [s.startsWith(pre)] *)
Definition startsWith (s pre : string) : bool := String.prefix pre s.

(** The line feed character. *)
Definition LF : string := String (ascii_of_nat 10) "".

(** [path.basename(p)]: what follows the last separator. *)
Fixpoint basename_from (acc : string) (p : string) : string :=
  match p with
  | EmptyString => acc
  | String c p' =>
      if Ascii.eqb c "/"%char then basename_from "" p'
      else basename_from (acc +:+ String c "") p'
  end.

Definition basename (p : string) : string := basename_from "" p.

(** ** The preprocessor interface ([Preprocessor] of [../types]) *)

(** [preprocess] takes the input path and the file system, and gives the
    outcome of the promise it returns, the file system it leaves, and the
    progress events it handed to its [onProgress] callback, oldest first. *)
Record Preprocessor : Type := {
  needsPreprocess : string -> N -> bool;
  preprocess : string -> FS -> result string * FS * list ParseProgress;
  cleanup : string -> M FS unit
}.

(** ** shuakami-qq-preprocessor.ts *)

(** What the streams of [preprocessQQJson] emit. The value of a
    [PipelineData] event is given by the JSON text of its slimmed form,
    [JSON.stringify(slimMessage(value))]. *)
Inductive StreamEvent : Type :=
| HeadData (chunk : string)
| HeadClose
| HeadError (err : string)
| ReadData (chunk : string)
| PipelineData (msgJson : string)
| PipelineEnd
| PipelineError (err : string)
| WriteFinish
| WriteError (err : string).

(** The operating system and the helpers of [../utils] as the
    preprocessor sees them. [headerOf] is the header line computed from
    the first 100 kB (three tolerant regular-expression extractions and a
    [JSON.stringify], none of which can fail the preprocess);
    [io_events] is what the streams opened on a path emit. *)
Record Os : Type := {
  os_tmpdir : string;
  date_now : Z;
  getFileSize : string -> N;
  createProgress : Stage -> N -> N -> N -> string -> ParseProgress;
  headerOf : string -> string;
  io_events : string -> list StreamEvent
}.

Module ShuakamiQq.

(** 预处理阈值：50MB *)
Definition PREPROCESS_THRESHOLD : N := 50 * 1024 * 1024.

Definition getTempDir (os : Os) : string := path_join (os_tmpdir os) "chatlab".

(** A path that lies under the designated temp directory. *)
Definition inside_temp_dir (os : Os) (p : string) : bool :=
  startsWith p (getTempDir os +:+ "/").

(** The variables of the second pass, which exist once the close handler
    of the head stream has run: the counters, [isFirstMessage], whether
    the write stream still takes writes (it does until [end] or
    [destroy]), and whether its [finish] listener is registered. *)
Record PassVars : Type := {
  pass_bytesRead : N;
  pass_messagesProcessed : N;
  isFirstMessage : bool;
  writeOpen : bool;
  finishListener : bool
}.

(** What the event handlers of [preprocessQQJson] close over.
    [pre_promise] is the promise under construction ([Hang] while it is
    pending); [uncaught] holds an exception that no handler caught, after
    which the worker thread runs nothing more. *)
Record PreState : Type := {
  pre_fs : FS;
  pre_promise : result string;
  pre_progress : list ParseProgress;
  uncaught : option string;
  headChunks : list string;
  headSize : N;
  pass : option PassVars
}.

Definition upd_fs (f : FS -> FS) (s : PreState) : PreState :=
  {| pre_fs := f (pre_fs s); pre_promise := pre_promise s; pre_progress := pre_progress s;
     uncaught := uncaught s; headChunks := headChunks s; headSize := headSize s;
     pass := pass s |}.

(** [resolve] and [reject] of the promise: only the first call counts. *)
Definition settle (o : result string) (s : PreState) : PreState :=
  {| pre_fs := pre_fs s;
     pre_promise := match pre_promise s with Hang => o | p => p end;
     pre_progress := pre_progress s;
     uncaught := uncaught s; headChunks := headChunks s; headSize := headSize s;
     pass := pass s |}.

(** [onProgress?.(p)] *)
Definition onProgress (p : ParseProgress) (s : PreState) : PreState :=
  {| pre_fs := pre_fs s; pre_promise := pre_promise s;
     pre_progress := pre_progress s ++ [p];
     uncaught := uncaught s; headChunks := headChunks s; headSize := headSize s;
     pass := pass s |}.

Definition crash (e : string) (s : PreState) : PreState :=
  {| pre_fs := pre_fs s; pre_promise := pre_promise s; pre_progress := pre_progress s;
     uncaught := Some e; headChunks := headChunks s; headSize := headSize s;
     pass := pass s |}.

Definition push_head (chunk : string) (s : PreState) : PreState :=
  {| pre_fs := pre_fs s; pre_promise := pre_promise s; pre_progress := pre_progress s;
     uncaught := uncaught s; headChunks := headChunks s ++ [chunk];
     headSize := headSize s + N.of_nat (String.length chunk);
     pass := pass s |}.

Definition set_pass (v : PassVars) (s : PreState) : PreState :=
  {| pre_fs := pre_fs s; pre_promise := pre_promise s; pre_progress := pre_progress s;
     uncaught := uncaught s; headChunks := headChunks s; headSize := headSize s;
     pass := Some v |}.

(** [writeStream.write(chunk)] *)
Definition write (outputPath chunk : string) (v : PassVars) (s : PreState) : PreState :=
  if writeOpen v then upd_fs (Fs.append outputPath chunk) s else s.

Section Handlers.

Variable os : Os.
Variable inputPath : string.

Definition pre_totalBytes : N := getFileSize os inputPath.

Definition outputPath : string :=
  path_join (getTempDir os) ("slim_" +:+ pretty (date_now os) +:+ "_" +:+ basename inputPath).

Definition maxHeadSize : N := 100000.

(** [headStream.on('data', ...)]; [headStream.destroy()] changes none of
    the variables. *)
Definition on_head_data (chunk : string) (s : PreState) : PreState :=
  if (headSize s <? maxHeadSize)%N then push_head chunk s else s.

(** [headStream.on('close', ...)] up to the registration of the second
    pass's listeners: the header is computed and written to a freshly
    created output file. *)
Definition on_head_close (s : PreState) : PreState :=
  let headContent := String.concat "" (headChunks s) in
  let s := onProgress (createProgress os SParsing 0 pre_totalBytes 0 "预处理：开始精简消息...") s in
  let s := upd_fs (Fs.put outputPath (FText [])) s in
  let v := {| pass_bytesRead := 0; pass_messagesProcessed := 0; isFirstMessage := true;
              writeOpen := true; finishListener := false |} in
  set_pass v (write outputPath (headerOf os headContent +:+ LF) v s).

(** [headStream.on('error', reject)] *)
Definition on_head_error (err : string) (s : PreState) : PreState :=
  settle (Throw err) s.

(** [readStream.on('data', ...)] *)
Definition on_read_data (chunk : string) (v : PassVars) (s : PreState) : PreState :=
  set_pass {| pass_bytesRead := pass_bytesRead v + N.of_nat (String.length chunk);
              pass_messagesProcessed := pass_messagesProcessed v;
              isFirstMessage := isFirstMessage v; writeOpen := writeOpen v;
              finishListener := finishListener v |} s.

(** [pipeline.on('data', ...)] *)
Definition on_pipeline_data (msgJson : string) (v : PassVars) (s : PreState) : PreState :=
  let s := if isFirstMessage v
           then write outputPath msgJson v s
           else write outputPath ("," +:+ LF +:+ msgJson) v s in
  let n := (pass_messagesProcessed v + 1)%N in
  let s := set_pass {| pass_bytesRead := pass_bytesRead v; pass_messagesProcessed := n;
                       isFirstMessage := false; writeOpen := writeOpen v;
                       finishListener := finishListener v |} s in
  if (n mod 10000 =? 0)%N
  then onProgress (createProgress os SParsing (pass_bytesRead v) pre_totalBytes n
                     ("预处理：已精简 " +:+ pretty n +:+ " 条消息...")) s
  else s.

(** [pipeline.on('end', ...)]: the closing bracket is written, the stream
    is ended and the [finish] listener registered. *)
Definition on_pipeline_end (v : PassVars) (s : PreState) : PreState :=
  let s := write outputPath (LF +:+ "]}") v s in
  set_pass {| pass_bytesRead := pass_bytesRead v;
              pass_messagesProcessed := pass_messagesProcessed v;
              isFirstMessage := isFirstMessage v; writeOpen := false;
              finishListener := true |} s.

(** [writeStream.on('finish', ...)] *)
Definition on_write_finish (v : PassVars) (s : PreState) : PreState :=
  let s := onProgress (createProgress os SDone pre_totalBytes pre_totalBytes
                         (pass_messagesProcessed v) "预处理完成") s in
  settle (Ok outputPath) s.

(** [pipeline.on('error', ...)]: the write stream is destroyed and the
    output file deleted if it is there; an exception of [unlinkSync]
    leaves the handler before [reject] is reached. *)
Definition on_pipeline_error (err : string) (v : PassVars) (s : PreState) : PreState :=
  let s := set_pass {| pass_bytesRead := pass_bytesRead v;
                       pass_messagesProcessed := pass_messagesProcessed v;
                       isFirstMessage := isFirstMessage v; writeOpen := false;
                       finishListener := finishListener v |} s in
  let unlinked :=
    if Fs.existsSync outputPath (pre_fs s)
    then Fs.unlinkSync outputPath (pre_fs s)
    else (Ok tt, pre_fs s) in
  match unlinked with
  | (Ok _, fs') =>
      let s := upd_fs (fun _ => fs') s in
      let s := onProgress (createProgress os SError (pass_bytesRead v) pre_totalBytes
                             (pass_messagesProcessed v) ("预处理错误: " +:+ err)) s in
      settle (Throw err) s
  | (Throw e, _) => crash e s
  | (Hang, _) => s
  end.

(** One event of the streams. An event whose listeners are not registered
    yet is lost; an ['error'] event of the write stream, which never gets
    a listener, is an uncaught exception. *)
Definition handle (ev : StreamEvent) (s : PreState) : PreState :=
  match uncaught s with
  | Some _ => s
  | None =>
      match ev, pass s with
      | HeadData chunk, _ => on_head_data chunk s
      | HeadClose, _ => on_head_close s
      | HeadError err, _ => on_head_error err s
      | ReadData chunk, Some v => on_read_data chunk v s
      | PipelineData msgJson, Some v => on_pipeline_data msgJson v s
      | PipelineEnd, Some v => on_pipeline_end v s
      | PipelineError err, Some v => on_pipeline_error err v s
      | WriteFinish, Some v => if finishListener v then on_write_finish v s else s
      | WriteError err, Some _ => crash err s
      | _, None => s
      end
  end.

Definition handle_all (evs : list StreamEvent) (s : PreState) : PreState :=
  foldl (fun s ev => handle ev s) s evs.

(** The state in which the promise's executor starts: the first progress
    event has been sent. *)
Definition pre_init (fs : FS) : PreState :=
  {| pre_fs := fs; pre_promise := Hang;
     pre_progress := [createProgress os SParsing 0 pre_totalBytes 0 "预处理：读取文件头..."];
     uncaught := None; headChunks := []; headSize := 0; pass := None |}.

(** [preprocessQQJson(inputPath, onProgress)], awaited. *)
Definition preprocessQQJson (fs : FS) : result string * FS * list ParseProgress :=
  let s := handle_all (io_events os inputPath) (pre_init fs) in
  (pre_promise s, pre_fs s, pre_progress s).

End Handlers.

(** [cleanupTempFile(filePath)] *)
Definition cleanupTempFile (os : Os) (filePath : string) : M FS unit :=
  try_catch
    (fun fs =>
       if Fs.existsSync filePath fs && includes filePath (getTempDir os)
       then Fs.unlinkSync filePath fs
       else (Ok tt, fs))
    (fun _ => mret tt).

Definition qqPreprocessor (os : Os) : Preprocessor :=
  {| needsPreprocess := fun _ fileSize => (PREPROCESS_THRESHOLD <? fileSize)%N;
     preprocess := preprocessQQJson os;
     cleanup := cleanupTempFile os |}.

End ShuakamiQq.

(** ** [slimMessage] of the preprocessor *)

Module Slim.
Local Open Scope list_scope.
Import PrimFloat.

(** The values [slimMessage] works on: what the streaming JSON parser
    assembles, and [undefined]. A number is a double. An object is the
    list of its own properties in insertion order, each name once (of a
    name that is listed twice only the first entry is ever read); a
    property read is a read of an own property (none of the names
    [slimMessage] reads is a property of a prototype; an own property
    named [__proto__] is not modelled). *)
#[local] Unset Elimination Schemes.
Inductive JsValue : Type :=
| JUndefined
| JNull
| JBool (b : bool)
| JNumber (x : float)
| JString (s : string)
| JArray (items : list JsValue)
| JObject (fields : list (string * JsValue)).
#[local] Set Elimination Schemes.

(** [!!v]: of the numbers, the two zeros and [NaN] are falsy. *)
Definition truthy (v : JsValue) : bool :=
  match v with
  | JUndefined | JNull => false
  | JBool b => b
  | JNumber x => negb (PrimFloat.eqb x 0%float) && PrimFloat.eqb x x
  | JString s => negb (String.eqb s "")
  | JArray _ | JObject _ => true
  end.

(** [a || b] *)
Definition or (a b : JsValue) : JsValue := if truthy a then a else b.

Definition lookup_field (k : string) (fields : list (string * JsValue)) : JsValue :=
  match List.find (fun f => String.eqb f.1 k) fields with
  | Some f => f.2
  | None => JUndefined
  end.

(** [v?.k], and [v.k] where [v] is known not to be [null] or [undefined]. *)
Definition opt_get (v : JsValue) (k : string) : JsValue :=
  match v with
  | JObject fields => lookup_field k fields
  | _ => JUndefined
  end.

(** [v.k] *)
Definition get (v : JsValue) (k : string) : result JsValue :=
  match v with
  | JNull => Throw ("TypeError: Cannot read properties of null (reading '" +:+ k +:+ "')")
  | JUndefined =>
      Throw ("TypeError: Cannot read properties of undefined (reading '" +:+ k +:+ "')")
  | _ => Ok (opt_get v k)
  end.

(** [if (c) obj.k = v], for a key [k] that [obj] does not have yet: the
    properties this statement adds to [obj]. *)
Definition when (c : bool) (k : string) (v : JsValue) : list (string * JsValue) :=
  if c then [(k, v)] else [].

(** [items.map((e) => ({ type: e.type }))] *)
Fixpoint map_types (items : list JsValue) : result (list JsValue) :=
  match items with
  | [] => Ok []
  | e :: rest =>
      match get e "type" with
      | Ok t =>
          match map_types rest with
          | Ok l => Ok (JObject [("type", t)] :: l)
          | Throw err => Throw err
          | Hang => Hang
          end
      | Throw err => Throw err
      | Hang => Hang
      end
  end.

(** [if (content?.k && Array.isArray(content.k)) slimContent.k = content.k.map(...)]:
    the properties this statement adds to [slimContent]. *)
Definition slim_list (content : JsValue) (k : string) : result (list (string * JsValue)) :=
  match opt_get content k with
  | JArray items =>
      match map_types items with
      | Ok l => Ok [(k, JArray l)]
      | Throw err => Throw err
      | Hang => Hang
      end
  | _ => Ok []
  end.

(** [v !== undefined] *)
Definition defined (v : JsValue) : bool :=
  match v with JUndefined => false | _ => true end.

(** [if (rawMessage) { slimMsg.rawMessage = {}; ... }] *)
Definition slim_raw (rawMessage : JsValue) : list (string * JsValue) :=
  when (truthy rawMessage) "rawMessage"
    (JObject
       (when (truthy (opt_get rawMessage "sendNickName")) "sendNickName"
          (opt_get rawMessage "sendNickName") ++
        when (truthy (opt_get rawMessage "sendMemberName")) "sendMemberName"
          (opt_get rawMessage "sendMemberName") ++
        when (truthy (opt_get rawMessage "senderUin")) "senderUin"
          (opt_get rawMessage "senderUin") ++
        when (truthy (opt_get rawMessage "senderUid")) "senderUid"
          (opt_get rawMessage "senderUid"))).

(** [slimMessage(msg)] *)
Definition slimMessage (msg : JsValue) : result JsValue :=
  match get msg "sender" with
  | Ok sender =>
      let content := opt_get msg "content" in
      let rawMessage := opt_get msg "rawMessage" in
      match slim_list content "elements" with
      | Ok elements =>
          match slim_list content "resources" with
          | Ok resources =>
              match slim_list content "emojis" with
              | Ok emojis =>
                  let slimContent :=
                    JObject (("text", or (opt_get content "text") (JString "")) ::
                             elements ++ resources ++ emojis) in
                  let slimSender :=
                    JObject (("name", or (opt_get sender "name") (JString "")) ::
                             when (truthy (opt_get sender "uin")) "uin" (opt_get sender "uin") ++
                             when (truthy (opt_get sender "uid")) "uid" (opt_get sender "uid")) in
                  Ok (JObject
                        (("timestamp", opt_get msg "timestamp") ::
                         ("sender", slimSender) ::
                         ("content", slimContent) ::
                         when (truthy (opt_get msg "id")) "id" (opt_get msg "id") ++
                         when (truthy (opt_get msg "type")) "type" (opt_get msg "type") ++
                         when (truthy (opt_get msg "recalled")) "recalled"
                           (opt_get msg "recalled") ++
                         when (truthy (opt_get msg "system")) "system" (opt_get msg "system") ++
                         when (truthy (opt_get msg "messageId")) "messageId"
                           (opt_get msg "messageId") ++
                         when (defined (opt_get msg "messageType")) "messageType"
                           (opt_get msg "messageType") ++
                         when (truthy (opt_get msg "isRecalled")) "isRecalled"
                           (opt_get msg "isRecalled") ++
                         when (truthy (opt_get msg "isSystemMessage")) "isSystemMessage"
                           (opt_get msg "isSystemMessage") ++
                         slim_raw rawMessage))
              | Throw err => Throw err
              | Hang => Hang
              end
          | Throw err => Throw err
          | Hang => Hang
          end
      | Throw err => Throw err
      | Hang => Hang
      end
  | Throw err => Throw err
  | Hang => Hang
  end.

(** The names of the own properties of a value. *)
Definition keys (v : JsValue) : list string :=
  match v with
  | JObject fields => fields.*1
  | _ => []
  end.

(** A value that is [null] or [undefined]. *)
Definition nullish (v : JsValue) : bool :=
  match v with JNull | JUndefined => true | _ => false end.

(** The items of the array under [k], if there is one. *)
Definition items_of (v : JsValue) (k : string) : list JsValue :=
  match opt_get v k with
  | JArray items => items
  | _ => []
  end.

(** A full message of an export and what is left of it. *)
Definition sample : JsValue :=
  JObject
    [("id", JString "m1"); ("timestamp", JNumber 1700000000000%float);
     ("sender", JObject [("uin", JString "10001"); ("name", JString "Alice");
                         ("avatar", JString "http://a/b.png")]);
     ("type", JString "text"); ("messageType", JNumber 0%float);
     ("content",
      JObject [("text", JString "hi"); ("html", JString "<p>hi</p>");
               ("raw", JString "[hi]");
               ("elements", JArray [JObject [("type", JString "text");
                                             ("data", JString "hi")]])]);
     ("rawMessage", JObject [("sendNickName", JString "Ally"); ("msgSeq", JString "77")])].

(** What [slimMessage] leaves of [sample]. *)
Definition slimmed_sample : JsValue :=
  JObject
        [("timestamp", JNumber 1700000000000%float);
         ("sender", JObject [("name", JString "Alice");
                                  ("uin", JString "10001")]);
         ("content",
          JObject [("text", JString "hi");
                        ("elements", JArray [JObject [("type", JString "text")]])]);
         ("id", JString "m1"); ("type", JString "text");
         ("messageType", JNumber 0%float);
         ("rawMessage", JObject [("sendNickName", JString "Ally")])].

End Slim.

(** *** Vocabulary of the runs of the preprocessor *)

Module QqStreams.
Local Open Scope list_scope.

(** The events of the second pass before its end: chunks read from the
    input ([inl]) and records that left the pipeline ([inr]), in any
    interleaving. *)
Definition second_pass (l : list (string + string)) : list StreamEvent :=
  (fun x => match x with
            | inl chunk => ReadData chunk
            | inr msgJson => PipelineData msgJson
            end) <$> l.

Definition records (l : list (string + string)) : list string :=
  omap (fun x => match x with inr msgJson => Some msgJson | inl _ => None end) l.

(** The chunks written for the records: the first as it is, every later
    one after a comma and a line feed. *)
Definition separated (recs : list string) : list string :=
  (fun r => "," +:+ LF +:+ r) <$> recs.

Definition framed (recs : list string) : list string :=
  match recs with
  | [] => []
  | r :: rs => r :: separated rs
  end.

(** The number of characters of a list of chunks. *)
Definition chars (l : list string) : N := N.of_nat (sum_list_with String.length l).

(** The state [s] with its promise rejected with [err]. *)
Definition rejected (err : string) (s : ShuakamiQq.PreState) : ShuakamiQq.PreState :=
  {| ShuakamiQq.pre_fs := ShuakamiQq.pre_fs s; ShuakamiQq.pre_promise := Throw err;
     ShuakamiQq.pre_progress := ShuakamiQq.pre_progress s;
     ShuakamiQq.uncaught := ShuakamiQq.uncaught s;
     ShuakamiQq.headChunks := ShuakamiQq.headChunks s;
     ShuakamiQq.headSize := ShuakamiQq.headSize s; ShuakamiQq.pass := ShuakamiQq.pass s |}.

End QqStreams.

(** ** The worker side: streaming import *)

(** [a || b] on two strings. *)
Definition or_str (a b : string) : string :=
  if String.eqb a "" then b else a.

Record FormatFeature : Type := {
  format_name : string;
  format_platform : string
}.

(** The world a worker runs in: the operating system, the functions of
    [../parser] ([detectFormat], [getPreprocessor], [needsPreprocess] and
    what [streamParseFile] delivers for a path and a batch size), the
    random suffix of the session id, the database directory, the size
    [fs.statSync] reports, and the storage failure to inject, if any:
    [storage_fault = Some n] makes the statement after [n] successful
    ones inside the transaction throw. *)
Record World : Type := {
  world_os : Os;
  math_random : string;
  getDbDir : string;
  detectFormat : string -> option FormatFeature;
  getPreprocessor : string -> option Preprocessor;
  parser_needsPreprocess : string -> bool;
  streamParseFile : string -> N -> ParseRun;
  statSize : string -> result N;
  storage_fault : option nat
}.

Record StreamImportResult : Type := {
  success : bool;
  sessionId : option string;
  error : option string
}.

Record Tracker : Type := {
  currentName : string;
  lastSeenTs : Z
}.

Module StreamImport.

(** The state of one call of [streamImport]: the file system, the tables
    as the open connection sees them, the two maps and the flag the
    callbacks close over, the lines written by [console.warn], the
    progress messages posted to the parent port, and the pending storage
    failure. *)
Record ImportState : Type := {
  st_fs : FS;
  st_db : Tables;
  memberIdMap : gmap string nat;
  nicknameTracker : gmap string Tracker;
  metaInserted : bool;
  st_console : list string;
  st_sent : list ParseProgress;
  st_fault : option nat
}.

Definition upd_fs (f : FS -> FS) (s : ImportState) : ImportState :=
  {| st_fs := f (st_fs s); st_db := st_db s; memberIdMap := memberIdMap s;
     nicknameTracker := nicknameTracker s; metaInserted := metaInserted s;
     st_console := st_console s; st_sent := st_sent s; st_fault := st_fault s |}.

Definition upd_db (f : Tables -> Tables) (s : ImportState) : ImportState :=
  {| st_fs := st_fs s; st_db := f (st_db s); memberIdMap := memberIdMap s;
     nicknameTracker := nicknameTracker s; metaInserted := metaInserted s;
     st_console := st_console s; st_sent := st_sent s; st_fault := st_fault s |}.

(** [memberIdMap.set(pid, id)] *)
Definition memberIdMap_set (pid : string) (id : nat) (s : ImportState) : ImportState :=
  {| st_fs := st_fs s; st_db := st_db s; memberIdMap := <[pid := id]> (memberIdMap s);
     nicknameTracker := nicknameTracker s; metaInserted := metaInserted s;
     st_console := st_console s; st_sent := st_sent s; st_fault := st_fault s |}.

(** [nicknameTracker.set(pid, t)], and the assignments to the fields of
    a tracker that is in the map. *)
Definition nicknameTracker_set (pid : string) (t : Tracker) (s : ImportState) : ImportState :=
  {| st_fs := st_fs s; st_db := st_db s; memberIdMap := memberIdMap s;
     nicknameTracker := <[pid := t]> (nicknameTracker s); metaInserted := metaInserted s;
     st_console := st_console s; st_sent := st_sent s; st_fault := st_fault s |}.

Definition set_metaInserted (b : bool) (s : ImportState) : ImportState :=
  {| st_fs := st_fs s; st_db := st_db s; memberIdMap := memberIdMap s;
     nicknameTracker := nicknameTracker s; metaInserted := b;
     st_console := st_console s; st_sent := st_sent s; st_fault := st_fault s |}.

(** [console.warn(line)] *)
Definition console_warn (line : string) (s : ImportState) : ImportState :=
  {| st_fs := st_fs s; st_db := st_db s; memberIdMap := memberIdMap s;
     nicknameTracker := nicknameTracker s; metaInserted := metaInserted s;
     st_console := st_console s ++ [line]; st_sent := st_sent s; st_fault := st_fault s |}.

(** [sendProgress(requestId, progress)] *)
Definition sendProgress (p : ParseProgress) (s : ImportState) : ImportState :=
  {| st_fs := st_fs s; st_db := st_db s; memberIdMap := memberIdMap s;
     nicknameTracker := nicknameTracker s; metaInserted := metaInserted s;
     st_console := st_console s; st_sent := st_sent s ++ [p]; st_fault := st_fault s |}.

Definition set_fault (f : option nat) (s : ImportState) : ImportState :=
  {| st_fs := st_fs s; st_db := st_db s; memberIdMap := memberIdMap s;
     nicknameTracker := nicknameTracker s; metaInserted := metaInserted s;
     st_console := st_console s; st_sent := st_sent s; st_fault := f |}.

Definition init_state (fs : FS) (fault : option nat) : ImportState :=
  {| st_fs := fs; st_db := empty_tables; memberIdMap := ∅; nicknameTracker := ∅;
     metaInserted := false; st_console := []; st_sent := []; st_fault := fault |}.

(** A file-system operation run from the import. *)
Definition lift_fs {A} (m : M FS A) : M ImportState A :=
  fun s => let '(r, fs') := m (st_fs s) in (r, upd_fs (fun _ => fs') s).

(** Every statement executed inside the transaction first meets the
    storage: the injected failure, when its turn has come, is thrown
    here, once. *)
Definition storage : M ImportState unit :=
  fun s =>
    match st_fault s with
    | Some 0 => (Throw "SqliteError: disk I/O error", set_fault None s)
    | Some (S n) => (Ok tt, set_fault (Some n) s)
    | None => (Ok tt, s)
    end.

(** [stmt.run(...)] of a prepared statement that writes. *)
Definition run (stmt : Tables -> Tables) : M ImportState unit :=
  (exec storage; modify (upd_db stmt))%js.

(** [stmt.get(...)] of a prepared query. *)
Definition get {A} (query : Tables -> A) : M ImportState A :=
  (exec storage; gets (fun s => query (st_db s)))%js.

(** [生成唯一的会话ID]: [chat_${Date.now()}_${random}] *)
Definition generateSessionId (w : World) : string :=
  "chat_" +:+ pretty (date_now (world_os w)) +:+ "_" +:+ math_random w.

Definition getDbPath (w : World) (sid : string) : string :=
  path_join (getDbDir w) (sid +:+ ".db").

(** [createDatabase(sessionId)]: [new Database(dbPath)] creates the file
    when it is missing and opens it otherwise; the tables are created
    only [IF NOT EXISTS]. The connection starts on the tables of the
    file. *)
Definition createDatabase (w : World) (sid : string) : M ImportState unit :=
  fun s =>
    match files (st_fs s) !! getDbPath w sid with
    | None =>
        (Ok tt, upd_db (fun _ => empty_tables)
                  (upd_fs (Fs.put (getDbPath w sid) (FDb empty_tables)) s))
    | Some (FDb t) => (Ok tt, upd_db (fun _ => t) s)
    | Some (FText _) => (Throw "SqliteError: file is not a database", s)
    end.

(** [db.exec('COMMIT')]: the tables of the transaction become the file's. *)
Definition commit (w : World) (sid : string) : M ImportState unit :=
  (exec storage;
   modify (fun s => upd_fs (Fs.put (getDbPath w sid) (FDb (st_db s))) s))%js.

(** [db.exec('ROLLBACK')]: the connection is back on the tables of the file. *)
Definition rollback (w : World) (sid : string) : M ImportState unit :=
  modify (fun s =>
    match files (st_fs s) !! getDbPath w sid with
    | Some (FDb t) => upd_db (fun _ => t) s
    | _ => upd_db (fun _ => empty_tables) s
    end).

(** [onMeta] *)
Definition onMeta (w : World) (meta : ParsedMeta) : M ImportState unit :=
  (do inserted <- gets metaInserted;
   if negb inserted
   then exec run (Sql.insertMeta (meta_name meta) (meta_platform meta) (meta_type meta)
                    (date_now (world_os w) / 1000)%Z);
        modify (set_metaInserted true)
   else mret tt)%js.

(** The body of the loop of [onMembers]. *)
Definition onMember (member : ParsedMember) : M ImportState unit :=
  (exec run (Sql.insertMember (platformId member) (name member)
               (js_or (nickname member) None));
   do row <- get (Sql.getMemberId (platformId member));
   match row with
   | Some id => modify (memberIdMap_set (platformId member) id)
   | None => mret tt
   end)%js.

Definition onMembers (members : list ParsedMember) : M ImportState unit :=
  forM_ onMember members.

(** The three validity checks of [onMessageBatch]: the warning with which
    a message is skipped, or [None] for a message that is kept. *)
Definition skip_reason (msg : ParsedMessage) : option string :=
  if negb (truthy (senderPlatformId msg)) || negb (truthy (senderName msg))
  then Some "[StreamImport] 跳过无效消息：缺少发送者信息"
  else if match timestamp msg with
          | None => true
          | Some n => isNaN n
          end
  then Some "[StreamImport] 跳过无效消息：缺少时间戳"
  else if match type msg with
          | None => true
          | Some _ => false
          end
  then Some "[StreamImport] 跳过无效消息：缺少消息类型"
  else None.

(** The rest of the loop body, for a message that passed the checks. *)
Definition ingest (pid sname : string) (ts ty : Z) (c : option string) : M ImportState unit :=
  (do known <- gets (fun s => bool_decide (is_Some (memberIdMap s !! pid)));
   exec (if negb known
         then let memberName := or_str sname pid in
              exec run (Sql.insertMember pid memberName None);
              do row <- get (Sql.getMemberId pid);
              match row with
              | Some id => modify (memberIdMap_set pid id)
              | None => mret tt
              end
         else mret tt);
   do senderId <- gets (fun s => memberIdMap s !! pid);
   match senderId with
   | None => mret tt
   | Some senderId =>
       exec run (Sql.insertMessage senderId ts ty c);
       let senderName := or_str sname pid in
       do tracker <- gets (fun s => nicknameTracker s !! pid);
       match tracker with
       | None =>
           exec modify (nicknameTracker_set pid
                          {| currentName := senderName; lastSeenTs := ts |});
           run (Sql.insertNameHistory senderId senderName ts None)
       | Some tracker =>
           if negb (String.eqb (currentName tracker) senderName)
           then exec run (Sql.updateNameHistoryEndTs ts senderId);
                exec run (Sql.insertNameHistory senderId senderName ts None);
                modify (nicknameTracker_set pid
                          {| currentName := senderName; lastSeenTs := ts |})
           else modify (nicknameTracker_set pid
                          {| currentName := currentName tracker; lastSeenTs := ts |})
       end
   end)%js.

(** The body of the loop of [onMessageBatch]. *)
Definition onMessage (msg : ParsedMessage) : M ImportState unit :=
  match skip_reason msg with
  | Some line => modify (console_warn line)
  | None =>
      match senderPlatformId msg, senderName msg, timestamp msg, type msg with
      | Some pid, Some sname, Some (Num ts), Some ty => ingest pid sname ts ty (content msg)
      | _, _, _, _ => mret tt
      end
  end.

Definition onMessageBatch (messages : list ParsedMessage) : M ImportState unit :=
  forM_ onMessage messages.

(** One callback of the parser. *)
Definition callback (w : World) (ev : ParseEvent) : M ImportState unit :=
  match ev with
  | PMeta meta => onMeta w meta
  | PMembers members => onMembers members
  | PMessageBatch messages => onMessageBatch messages
  | PProgress progress => modify (sendProgress progress)
  end.

(** [await streamParseFile(actualFilePath, {...})]: the callbacks in the
    order of the run; an exception of a callback, or the structural error
    the run ends with, rejects the awaited promise. *)
Definition parse (w : World) (r : ParseRun) : M ImportState unit :=
  (exec forM_ (callback w) (run_events r);
   match run_error r with
   | Some e => throw e
   | None => mret tt
   end)%js.

(** 更新成员的最新昵称 *)
Definition updateMemberNames : M ImportState unit :=
  (do trackers <- gets (fun s => map_to_list (nicknameTracker s));
   forM_ (fun '(pid, tracker) => run (Sql.updateMemberName (currentName tracker) pid))
     trackers)%js.

(** The part of [streamImport] before the store is created: [inl] is a
    result returned early, [inr] the path to parse and the temp file to
    clean up afterwards. *)
Definition preprocessStage (w : World) (filePath : string)
  : M ImportState (StreamImportResult + string * option string) :=
  match getPreprocessor w filePath with
  | Some preprocessor =>
      if parser_needsPreprocess w filePath
      then
        (exec modify (sendProgress {| stage := SParsing; bytesRead := 0; totalBytes := 0;
                                      messagesProcessed := 0; percentage := 0;
                                      progress_message := "预处理：精简大文件中..." |});
         try_catch
           (do tempFilePath <-
              (fun s =>
                 let '(r, fs', ps) := preprocess preprocessor filePath (st_fs s) in
                 (r, foldl (fun s p =>
                        sendProgress
                          {| stage := stage p; bytesRead := bytesRead p;
                             totalBytes := totalBytes p;
                             messagesProcessed := messagesProcessed p;
                             percentage := percentage p;
                             progress_message := or_str (progress_message p) "预处理中..." |} s)
                      (upd_fs (fun _ => fs') s) ps));
            mret (inr (tempFilePath, Some tempFilePath)))
           (fun err =>
              mret (inl {| success := false; sessionId := None;
                           error := Some ("预处理失败: " +:+ err) |})))%js
      else mret (inr (filePath, None))
  | None => mret (inr (filePath, None))
  end.

(** The body of the [try] block of [streamImport]. *)
Definition transaction (w : World) (actualFilePath : string)
  : M ImportState StreamImportResult :=
  let sid := generateSessionId w in
  (exec parse w (streamParseFile w actualFilePath 5000);
   exec updateMemberNames;
   exec commit w sid;
   mret {| success := true; sessionId := Some sid; error := None |})%js.

(** The body of its [catch] block. *)
Definition onFailure (w : World) (e : string) : M ImportState StreamImportResult :=
  let sid := generateSessionId w in
  (exec rollback w sid;
   do there <- gets (fun s => Fs.existsSync (getDbPath w sid) (st_fs s));
   exec (if there then lift_fs (Fs.unlinkSync (getDbPath w sid)) else mret tt);
   mret {| success := false; sessionId := None; error := Some e |})%js.

(** The body of its [finally] block ([db.close()] changes nothing that
    is modelled). *)
Definition finallyBlock (w : World) (filePath : string) (tempFilePath : option string)
  : M ImportState unit :=
  match tempFilePath, getPreprocessor w filePath with
  | Some tmp, Some preprocessor => lift_fs (cleanup preprocessor tmp)
  | _, _ => mret tt
  end.

(** The part of [streamImport] from [generateSessionId] on. *)
Definition importStage (w : World) (filePath actualFilePath : string)
    (tempFilePath : option string) : M ImportState StreamImportResult :=
  (exec createDatabase w (generateSessionId w);
   try_finally
     (try_catch (transaction w actualFilePath) (onFailure w))
     (finallyBlock w filePath tempFilePath))%js.

(** [streamImport(filePath, requestId)] *)
Definition streamImport (w : World) (filePath : string) : M ImportState StreamImportResult :=
  match detectFormat w filePath with
  | None => mret {| success := false; sessionId := None; error := Some "无法识别文件格式" |}
  | Some _ =>
      (do staged <- preprocessStage w filePath;
       match staged with
       | inl early => mret early
       | inr (actualFilePath, tempFilePath) => importStage w filePath actualFilePath tempFilePath
       end)%js
  end.

Definition run_streamImport (w : World) (fs : FS) (filePath : string)
  : result StreamImportResult * ImportState :=
  streamImport w filePath (init_state fs (storage_fault w)).

(** A preprocessor whose [cleanup] returns normally and touches no file
    but the one it is given, which it may delete. *)
Definition cleanup_safe (pre : Preprocessor) : Prop :=
  forall p fs, exists fs',
    cleanup pre p fs = (Ok tt, fs') /\
    locked fs' = locked fs /\
    (files fs' !! p = None \/ files fs' !! p = files fs !! p) /\
    forall q, q <> p -> files fs' !! q = files fs !! q.

(** The import has reached the creation of its store: the format was
    recognised, preprocessing (if any) left [s1] with [actual] to parse
    and [tmp] to clean up, the session id is fresh, that is, no file has
    the path of the store yet, and the preprocessor at hand, if any,
    cleans up safely a temp file that is not the store. *)
Definition Started (w : World) (fs : FS) (filePath actual : string)
    (tmp : option string) (s1 : ImportState) : Prop :=
  is_Some (detectFormat w filePath) /\
  preprocessStage w filePath (init_state fs (storage_fault w)) = (Ok (inr (actual, tmp)), s1) /\
  files (st_fs s1) !! getDbPath w (generateSessionId w) = None /\
  tmp <> Some (getDbPath w (generateSessionId w)) /\
  forall pre, getPreprocessor w filePath = Some pre -> cleanup_safe pre.

(** The tables of the committed store of this import, if there is one. *)
Definition committed (w : World) (s : ImportState) : option Tables :=
  match files (st_fs s) !! getDbPath w (generateSessionId w) with
  | Some (FDb t) => Some t
  | _ => None
  end.

(** *** Vocabulary of the properties of the import *)

(** A message that [onMessageBatch] keeps. *)
Definition is_valid (msg : ParsedMessage) : bool :=
  match skip_reason msg with
  | Some _ => false
  | None => true
  end.

(** What a kept message shows of its sender: the name and the time, when
    the sender is [pid]. *)
Definition observation (pid : string) (msg : ParsedMessage) : option (string * Z) :=
  if is_valid msg
  then match senderPlatformId msg, senderName msg, timestamp msg with
       | Some p, Some n, Some (Num ts) =>
           if String.eqb p pid then Some (or_str n p, ts) else None
       | _, _, _ => None
       end
  else None.

Definition observations (pid : string) (msgs : list ParsedMessage) : list (string * Z) :=
  omap (observation pid) msgs.

(** An interval of the nickname history: name, start, end. *)
Definition Interval : Type := string * Z * option Z.

Definition interval_of (r : NameHistoryRow) : Interval :=
  (h_name r, h_start_ts r, h_end_ts r).

Definition close_interval (ts : Z) (i : Interval) : Interval :=
  match i with
  | (n, start, None) => (n, start, Some ts)
  | _ => i
  end.

(** The ledger of a member as the specification describes it: the first
    observation opens an interval; an observation under the name of the
    last interval writes nothing; an observation under another name
    closes what is open at its time and opens an interval of that name. *)
Definition observe (acc : list Interval) (o : string * Z) : list Interval :=
  match last acc with
  | None => [(o.1, o.2, None)]
  | Some (n, _, _) =>
      if String.eqb n o.1 then acc
      else (close_interval o.2 <$> acc) ++ [(o.1, o.2, None)]
  end.

Definition ledger (obs : list (string * Z)) : list Interval :=
  foldl observe [] obs.

(** The rows of [member_name_history] of a member, in rowid order. *)
Definition rows_of (mid : nat) (t : Tables) : list NameHistoryRow :=
  filter (fun r => h_member_id r = mid) (member_name_history t).



(** The rows of a member ordered by [start_ts]. *)
Definition starts_before (a b : Interval) : Prop := (a.1.2 <= b.1.2)%Z.

#[local] Instance starts_before_dec : RelDecision starts_before.
Proof. intros a b. unfold starts_before. apply _. Defined.


(** The member rows of a platform id. *)
Definition members_of (pid : string) (t : Tables) : list MemberRow :=
  filter (fun r => m_platform_id r = pid) (member t).

(** The platform ids of the member lists a run delivers. *)
Definition run_members (evs : list ParseEvent) : list string :=
  platformId <$>
    concat (omap (fun ev => match ev with PMembers ms => Some ms | _ => None end) evs).

(** A computation that deletes no member row. *)
Definition keeps_members {A} (m : M ImportState A) : Prop :=
  forall s r s' p, m s = (r, s') ->
    is_Some (Sql.getMemberId p (st_db s)) -> is_Some (Sql.getMemberId p (st_db s')).

Definition stmt_keeps_members (stmt : Tables -> Tables) : Prop :=
  forall t p, is_Some (Sql.getMemberId p t) -> is_Some (Sql.getMemberId p (stmt t)).

(** Every platform id of [ps] has a member row. *)
Definition registered (ps : list string) (s : ImportState) : Prop :=
  forall p, p ∈ ps -> is_Some (Sql.getMemberId p (st_db s)).

(** The validity of a message in the words of the specification: a
    message is invalid when its [senderPlatformId] is missing, its
    [senderName] missing or empty, its [timestamp] missing or NaN, or its
    [type] missing. *)
Definition spec_invalid (msg : ParsedMessage) : bool :=
  match senderPlatformId msg with None => true | Some _ => false end ||
  match senderName msg with None => true | Some n => String.eqb n "" end ||
  match timestamp msg with None => true | Some n => isNaN n end ||
  match type msg with None => true | Some _ => false end.

(** The messages a callback delivers. *)
Definition event_messages (ev : ParseEvent) : list ParsedMessage :=
  match ev with
  | PMessageBatch ms => ms
  | _ => []
  end.

(** The state in which the transaction starts, when the store is new. *)
Definition opened (w : World) (s1 : ImportState) : ImportState :=
  upd_db (fun _ => empty_tables)
    (upd_fs (Fs.put (getDbPath w (generateSessionId w)) (FDb empty_tables)) s1).

(** The result of an import that failed with [e]. *)
Definition failed (e : string) : StreamImportResult :=
  {| success := false; sessionId := None; error := Some e |}.

(** Two states that differ at most in the file system and in the
    progress sent. *)
Definition same_vars (s s' : ImportState) : Prop :=
  st_db s' = st_db s /\ memberIdMap s' = memberIdMap s /\
  nicknameTracker s' = nicknameTracker s /\ metaInserted s' = metaInserted s /\
  st_console s' = st_console s /\ st_fault s' = st_fault s.

(** A computation that leaves the file system alone, whatever its
    outcome, and one that succeeds when no storage failure is pending. *)
Definition keeps_fs {A} (m : M ImportState A) : Prop :=
  forall s r s', m s = (r, s') -> st_fs s' = st_fs s.

Definition runs_ok {A} (m : M ImportState A) : Prop :=
  forall s, st_fault s = None -> exists a s', m s = (Ok a, s') /\ st_fault s' = None.

(** *** The invariant of the transaction *)

(** The member table honours [UNIQUE] on [platform_id], and its ids are
    distinct and bounded by the AUTOINCREMENT sequence. *)
Record members_ok (t : Tables) : Prop := {
  ok_pids : NoDup (m_platform_id <$> member t);
  ok_ids : NoDup (m_id <$> member t);
  ok_seq : Forall (fun r => m_id r <= member_seq t) (member t)
}.

(** The tracker of a member after the observations [obs]. *)
Definition tracker_of (obs : list (string * Z)) : option Tracker :=
  (fun o => {| currentName := o.1; lastSeenTs := o.2 |}) <$> last obs.

(** What holds between two iterations of the loops of the callbacks,
    after the messages [done] have been delivered: the id map agrees with
    the member table; every sender observed so far is in the map; every
    history row belongs to a member of the map; the tracker of a member
    holds its last observation; the history rows of a member are the
    ledger of its observations; there is a message row for every kept
    message and a console line for every skipped one. *)
Record Inv (done : list ParsedMessage) (s : ImportState) : Prop := {
  inv_members : members_ok (st_db s);
  inv_map : forall p i, memberIdMap s !! p = Some i -> Sql.getMemberId p (st_db s) = Some i;
  inv_seen : forall p, observations p done <> [] -> is_Some (memberIdMap s !! p);
  inv_owner : Forall (fun r => exists p, memberIdMap s !! p = Some (h_member_id r))
                (member_name_history (st_db s));
  inv_tracker : forall p, nicknameTracker s !! p = tracker_of (observations p done);
  inv_history : forall p i, memberIdMap s !! p = Some i ->
                  interval_of <$> rows_of i (st_db s) = ledger (observations p done);
  inv_messages : length (message (st_db s)) = length (filter (fun m => is_valid m) done);
  inv_console : length (st_console s) = length (filter (fun m => negb (is_valid m)) done)
}.

End StreamImport.

(** *** Vocabulary of what an import stores *)

Module Stored.
Local Open Scope list_scope.
Import StreamImport.

(** The metadata and the progress events of a run, in order. *)
Definition run_metas (evs : list ParseEvent) : list ParsedMeta :=
  omap (fun ev => match ev with PMeta meta => Some meta | _ => None end) evs.

Definition run_progress (evs : list ParseEvent) : list ParseProgress :=
  omap (fun ev => match ev with PProgress p => Some p | _ => None end) evs.

(** The row [onMeta] inserts for a [ParsedMeta]. *)
Definition meta_row (w : World) (meta : ParsedMeta) : MetaRow :=
  {| r_name := meta_name meta; r_platform := meta_platform meta; r_type := meta_type meta;
     r_imported_at := (date_now (world_os w) / 1000)%Z |}.

(** A mention of a member: the platform id, and the name and nickname a
    member row gets when the mention is the first of that id. A member
    list mentions its entries, a message that is kept mentions its sender. *)
Record Mention : Type := {
  mention_pid : string;
  mention_name : string;
  mention_nickname : option string
}.

Definition member_mention (m : ParsedMember) : Mention :=
  {| mention_pid := platformId m; mention_name := name m;
     mention_nickname := js_or (nickname m) None |}.

Definition sender_mention (msg : ParsedMessage) : option Mention :=
  if is_valid msg
  then match senderPlatformId msg, senderName msg with
       | Some p, Some n =>
           Some {| mention_pid := p; mention_name := or_str n p; mention_nickname := None |}
       | _, _ => None
       end
  else None.

Definition event_mentions (ev : ParseEvent) : list Mention :=
  match ev with
  | PMembers ms => member_mention <$> ms
  | PMessageBatch msgs => omap sender_mention msgs
  | _ => []
  end.

Definition mentions (evs : list ParseEvent) : list Mention :=
  concat (event_mentions <$> evs).

Definition first_mention (pid : string) (l : list Mention) : option Mention :=
  List.find (fun x => String.eqb (mention_pid x) pid) l.

(** The message row [r] holds the message [msg], under the id of the
    member row of its sender in [t]. *)
Definition stored_as (t : Tables) (r : MessageRow) (msg : ParsedMessage) : Prop :=
  timestamp msg = Some (Num (msg_ts r)) /\ type msg = Some (msg_type r) /\
  msg_content r = content msg /\
  exists pid, senderPlatformId msg = Some pid /\
              Sql.getMemberId pid t = Some (msg_sender_id r).

(** The member rows after the mentions [ments], before the final update
    of the names: every row has the name and the nickname of the first
    mention of its platform id, every mentioned id has a row, and the ids
    are 1, 2, ... in rowid order. *)
Record MemberRows (ments : list Mention) (t : Tables) : Prop := {
  rows_mentions : forall r, r ∈ member t ->
                    first_mention (m_platform_id r) ments =
                    Some {| mention_pid := m_platform_id r; mention_name := m_name r;
                            mention_nickname := m_nickname r |};
  rows_registered : forall x, x ∈ ments -> is_Some (Sql.getMemberId (mention_pid x) t);
  rows_ids : m_id <$> member t = seq 1 (length (member t));
  rows_seq : member_seq t = length (member t)
}.

(** The message rows after the messages [msgs]: one row per kept
    message, in order, with the ids 1, 2, ... *)
Record MessageRows (msgs : list ParsedMessage) (t : Tables) : Prop := {
  rows_stored : Forall2 (stored_as t) (message t) (filter (fun m => is_valid m) msgs);
  rows_msg_ids : msg_id <$> message t = seq 1 (length (message t));
  rows_msg_seq : message_seq t = length (message t)
}.

(** What the callbacks have stored after the metadata [metas], the
    messages [msgs], the mentions [ments] and the progress events
    [progs] were delivered, [base] being the progress sent before. *)
Record Stored (w : World) (base : list ParseProgress) (metas : list ParsedMeta)
    (msgs : list ParsedMessage) (ments : list Mention) (progs : list ParseProgress)
    (s : ImportState) : Prop := {
  stored_meta : meta (st_db s) = meta_row w <$> take 1 metas;
  stored_flag : metaInserted s = bool_decide (metas <> []);
  stored_console : st_console s = omap skip_reason msgs;
  stored_sent : st_sent s = base ++ progs;
  stored_messages : MessageRows msgs (st_db s);
  stored_members : MemberRows ments (st_db s)
}.

(** The row [r] after the final loop over the trackers [trk]. *)
Definition rename_row (trk : gmap string Tracker) (r : MemberRow) : MemberRow :=
  match trk !! m_platform_id r with
  | Some tr => {| m_id := m_id r; m_platform_id := m_platform_id r;
                  m_name := currentName tr; m_nickname := m_nickname r |}
  | None => r
  end.

End Stored.

(** ** The worker side: preview without a store *)

Record FileInfo : Type := {
  info_name : string;
  info_format : string;
  info_platform : string;
  info_messageCount : nat;
  info_memberCount : nat;
  info_fileSize : N
}.

Module StreamParseFileInfo.

(** The variables the callbacks of [streamParseFileInfo] close over, and
    the progress messages posted so far. A sender id that is missing from
    a message is added to the set as it is. *)
Record InfoState : Type := {
  var_name : string;
  var_platform : string;
  messageCount : nat;
  memberSet : gset (option string);
  info_sent : list ParseProgress
}.

Definition sendProgress (p : ParseProgress) (s : InfoState) : InfoState :=
  {| var_name := var_name s; var_platform := var_platform s;
     messageCount := messageCount s; memberSet := memberSet s;
     info_sent := info_sent s ++ [p] |}.

Definition onMeta (meta : ParsedMeta) (s : InfoState) : InfoState :=
  {| var_name := meta_name meta; var_platform := meta_platform meta;
     messageCount := messageCount s; memberSet := memberSet s;
     info_sent := info_sent s |}.

Definition memberSet_add (x : option string) (s : InfoState) : InfoState :=
  {| var_name := var_name s; var_platform := var_platform s;
     messageCount := messageCount s; memberSet := {[x]} ∪ memberSet s;
     info_sent := info_sent s |}.

Definition onMembers (members : list ParsedMember) (s : InfoState) : InfoState :=
  foldl (fun s m => memberSet_add (Some (platformId m)) s) s members.

Definition onMessageBatch (messages : list ParsedMessage) (s : InfoState) : InfoState :=
  let s := {| var_name := var_name s; var_platform := var_platform s;
              messageCount := messageCount s + length messages;
              memberSet := memberSet s; info_sent := info_sent s |} in
  foldl (fun s msg => memberSet_add (senderPlatformId msg) s) s messages.

Definition callback (ev : ParseEvent) (s : InfoState) : InfoState :=
  match ev with
  | PMeta meta => onMeta meta s
  | PMembers members => onMembers members s
  | PMessageBatch messages => onMessageBatch messages s
  | PProgress progress => sendProgress progress s
  end.

(** 对于大文件使用更小的批次 *)
Definition batchSizeFor (fileSize : N) : N :=
  if (100 * 1024 * 1024 <? fileSize)%N then 2000%N else 5000%N.

(** [streamParseFileInfo(filePath, requestId)] *)
Definition streamParseFileInfo (w : World) (filePath : string)
  : result FileInfo * list ParseProgress :=
  match detectFormat w filePath with
  | None => (Throw "无法识别文件格式", [])
  | Some formatFeature =>
      match statSize w filePath with
      | Ok fileSize =>
          let r := streamParseFile w filePath (batchSizeFor fileSize) in
          let s0 := {| var_name := "未知群聊"; var_platform := format_platform formatFeature;
                       messageCount := 0; memberSet := ∅;
                       info_sent := [{| stage := SParsing; bytesRead := 0;
                                        totalBytes := fileSize; messagesProcessed := 0;
                                        percentage := 0;
                                        progress_message := "正在读取文件..." |}] |} in
          let s := foldl (fun s ev => callback ev s) s0 (run_events r) in
          match run_error r with
          | Some e => (Throw e, info_sent s)
          | None =>
              (Ok {| info_name := var_name s; info_format := format_name formatFeature;
                     info_platform := var_platform s;
                     info_messageCount := messageCount s;
                     info_memberCount := size (memberSet s);
                     info_fileSize := fileSize |},
               info_sent s)
          end
      | Throw e => (Throw e, [])
      | Hang => (Hang, [])
      end
  end.

End StreamParseFileInfo.

(** *** Vocabulary of the properties of the preview *)

Module Previewed.
Local Open Scope list_scope.
Import StreamImport.

(** The ids the preview adds to its set for an event: the platform ids of
    a member list, the sender ids of a batch, missing ones included. *)
Definition event_ids (ev : ParseEvent) : list (option string) :=
  match ev with
  | PMembers ms => (fun m => Some (platformId m)) <$> ms
  | PMessageBatch msgs => senderPlatformId <$> msgs
  | _ => []
  end.

Definition run_ids (evs : list ParseEvent) : list (option string) :=
  concat (event_ids <$> evs).

End Previewed.

(** ** The controlling side: requests to the worker *)

Module WorkerManager.

(** A call of [resolve] or of [reject] of a promise. *)
Inductive Settlement : Type :=
| Resolve (value : string)
| Reject (err : string).

(** An entry of [pendingRequests]. The closures [resolve] and [reject]
    belong to one promise, which is named by the number of promises
    created before it; [onProgress] says whether a progress callback was
    given. *)
Record Pending : Type := {
  promise : nat;
  onProgress : bool
}.

(** A message of the worker: [{ id, type, success, result, error, payload }]. *)
Record WorkerMessage : Type := {
  wm_id : string;
  wm_type : string;
  wm_success : bool;
  wm_result : string;
  wm_error : string;
  wm_payload : option ParseProgress
}.

(** The module-level variables of the manager ([worker] is [null] or a
    worker), the timers armed by [setTimeout] and not fired yet (by the
    promise whose executor armed them, with the [id] and [type] their
    callback closes over), and what has been observed from outside: the
    calls of [resolve] and [reject], the calls of progress callbacks and
    the messages posted to the worker, oldest first. *)
Record Manager : Type := {
  worker : bool;
  pendingRequests : gmap string Pending;
  requestIdCounter : nat;
  promises : nat;
  timers : gmap nat (string * string);
  calls : list (nat * Settlement);
  progressCalls : list (nat * option ParseProgress);
  posted : list (string * string * string)
}.

Definition init : Manager :=
  {| worker := false; pendingRequests := ∅; requestIdCounter := 0; promises := 0;
     timers := ∅; calls := []; progressCalls := []; posted := [] |}.

(** What happens on the controlling thread, one event-loop turn each:
    a call of [sendToWorker] ([withProgress = None]) or of
    [sendToWorkerWithProgress] ([Some b], [b] telling whether a callback
    is passed), where [initOk] says whether [new Worker] succeeds should
    it be needed; a message, the exit or an error of the worker; a timer
    that fires; a call of [closeWorker]. *)
Inductive Event : Type :=
| Send (type payload : string) (withProgress : option bool) (timeoutMs : N) (initOk : bool)
| Message (m : WorkerMessage)
| Exit (code : Z)
| WorkerError (err : string)
| TimerFires (timer : nat)
| CloseWorker.

Definition request_id (n : nat) : string := "req_" +:+ pretty n.

(** [pending.resolve(...)] or [pending.reject(...)] of promise [p]. *)
Definition call (p : nat) (o : Settlement) (m : Manager) : Manager :=
  {| worker := worker m; pendingRequests := pendingRequests m;
     requestIdCounter := requestIdCounter m; promises := promises m;
     timers := timers m; calls := calls m ++ [(p, o)];
     progressCalls := progressCalls m; posted := posted m |}.

(** [pendingRequests.delete(id)] *)
Definition pending_delete (id : string) (m : Manager) : Manager :=
  {| worker := worker m; pendingRequests := delete id (pendingRequests m);
     requestIdCounter := requestIdCounter m; promises := promises m;
     timers := timers m; calls := calls m;
     progressCalls := progressCalls m; posted := posted m |}.

(** [sendToWorker] and [sendToWorkerWithProgress], which differ in the
    progress callback and in the timeout (30 s for the first, 10 min by
    default for the second). *)
Definition send (type payload : string) (withProgress : option bool) (initOk : bool)
    (m : Manager) : Manager :=
  let p := promises m in
  if negb (worker m) && negb initOk
  then
    {| worker := false; pendingRequests := pendingRequests m;
       requestIdCounter := requestIdCounter m; promises := S p;
       timers := timers m; calls := calls m ++ [(p, Reject "Worker not initialized")];
       progressCalls := progressCalls m; posted := posted m |}
  else
    let n := S (requestIdCounter m) in
    let id := request_id n in
    {| worker := true;
       pendingRequests :=
         <[id := {| promise := p; onProgress := default false withProgress |}]>
           (pendingRequests m);
       requestIdCounter := n; promises := S p;
       timers := <[p := (id, type)]> (timers m);
       calls := calls m;
       progressCalls := progressCalls m;
       posted := posted m ++ [(id, type, payload)] |}.

(** [worker.on('message', ...)] *)
Definition on_message (msg : WorkerMessage) (m : Manager) : Manager :=
  match pendingRequests m !! wm_id msg with
  | None => m
  | Some pending =>
      if String.eqb (wm_type msg) "progress"
      then
        if onProgress pending
        then {| worker := worker m; pendingRequests := pendingRequests m;
                requestIdCounter := requestIdCounter m; promises := promises m;
                timers := timers m; calls := calls m;
                progressCalls := progressCalls m ++ [(promise pending, wm_payload msg)];
                posted := posted m |}
        else m
      else
        let m := pending_delete (wm_id msg) m in
        if wm_success msg
        then call (promise pending) (Resolve (wm_result msg)) m
        else call (promise pending) (Reject (wm_error msg)) m
  end.

(** [worker.on('exit', ...)]: the loop over [pendingRequests.entries()]. *)
Definition on_exit (m : Manager) : Manager :=
  let m := {| worker := false; pendingRequests := pendingRequests m;
              requestIdCounter := requestIdCounter m; promises := promises m;
              timers := timers m; calls := calls m;
              progressCalls := progressCalls m; posted := posted m |} in
  foldl (fun m '(id, pending) =>
           pending_delete id (call (promise pending) (Reject "Worker exited unexpectedly") m))
    m (map_to_list (pendingRequests m)).

(** The callback given to [setTimeout], for the timer of promise [p]. *)
Definition on_timeout (p : nat) (m : Manager) : Manager :=
  match timers m !! p with
  | None => m
  | Some (id, type) =>
      let m := {| worker := worker m; pendingRequests := pendingRequests m;
                  requestIdCounter := requestIdCounter m; promises := promises m;
                  timers := delete p (timers m); calls := calls m;
                  progressCalls := progressCalls m; posted := posted m |} in
      if bool_decide (is_Some (pendingRequests m !! id))
      then call p (Reject ("Worker request timeout: " +:+ type)) (pending_delete id m)
      else m
  end.

(** [closeWorker()]: a last request is sent, whose rejection is ignored,
    and the worker is terminated. *)
Definition closeWorker (m : Manager) : Manager :=
  if worker m
  then
    let m := send "closeAll" "{}" None true m in
    {| worker := false; pendingRequests := pendingRequests m;
       requestIdCounter := requestIdCounter m; promises := promises m;
       timers := timers m; calls := calls m;
       progressCalls := progressCalls m; posted := posted m |}
  else m.

Definition step (ev : Event) (m : Manager) : Manager :=
  match ev with
  | CloseWorker => closeWorker m
  | Send type payload withProgress _ initOk => send type payload withProgress initOk m
  | Message msg => on_message msg m
  | Exit _ => on_exit m
  | WorkerError _ => m
  | TimerFires p => on_timeout p m
  end.

Definition steps (evs : list Event) (m : Manager) : Manager :=
  foldl (fun m ev => step ev m) m evs.

(** How often [resolve] or [reject] of promise [p] has been called. *)
Definition settled_count (p : nat) (m : Manager) : nat :=
  length (filter (fun c => c.1 = p) (calls m)).

(** The loop of the exit handler over the entries [l], and the calls of
    [reject] it makes. *)
Definition reject_all (m : Manager) (l : list (string * Pending)) : Manager :=
  foldl (fun m '(id, pending) =>
           pending_delete id (call (promise pending) (Reject "Worker exited unexpectedly") m))
    m l.

Definition exit_calls (l : list (string * Pending)) : list (nat * Settlement) :=
  (fun e => (promise e.2, Reject "Worker exited unexpectedly")) <$> l.

(** An event that is neither a terminal message for the request [id],
    nor the exit of the worker, nor the timer of promise [h]. *)
Definition quiet (id : string) (h : nat) (ev : Event) : Prop :=
  match ev with
  | Message msg => wm_id msg <> id \/ wm_type msg = "progress"
  | Exit _ => False
  | TimerFires h' => h' <> h
  | _ => True
  end.

(** The request [id] of promise [h] is pending and its timer is armed. *)
Definition armed (id : string) (h : nat) (ty : string) (m : Manager) : Prop :=
  (exists p, pendingRequests m !! id = Some p /\ promise p = h) /\
  timers m !! h = Some (id, ty).

(** The invariant of the manager: the ids in use were issued by the
    counter; a pending entry belongs to a promise that exists and has not
    been settled; a timer and the entry under its id belong to the same
    promise; no two entries share a promise; no promise has been settled
    twice. *)
Record MInv (m : Manager) : Prop := {
  minv_pending : forall id p, pendingRequests m !! id = Some p ->
                   (exists k, id = request_id k /\ k <= requestIdCounter m) /\
                   promise p < promises m /\ promise p ∉ (calls m).*1;
  minv_timers : forall h id ty, timers m !! h = Some (id, ty) ->
                  h < promises m /\ exists k, id = request_id k /\ k <= requestIdCounter m;
  minv_link : forall h id ty p, timers m !! h = Some (id, ty) ->
                pendingRequests m !! id = Some p -> promise p = h;
  minv_inj : forall id id' p p', pendingRequests m !! id = Some p ->
               pendingRequests m !! id' = Some p' -> promise p = promise p' -> id = id';
  minv_calls : NoDup (calls m).*1;
  minv_bound : forall h, h ∈ (calls m).*1 -> h < promises m
}.

End WorkerManager.

(** *** Vocabulary of the properties of the manager *)

Module Ledger.
Local Open Scope list_scope.
Import WorkerManager.

(** The correlation ids of the messages posted to the worker, oldest first. *)
Definition posted_ids (m : Manager) : list string := (fun x => x.1.1) <$> posted m.

(** What links the three records of a request: the ids posted so far are
    [req_1], [req_2], ... up to the counter; a pending entry has its timer
    armed; an armed timer closes over the id and the type of a message
    that was posted. *)
Record Linked (m : Manager) : Prop := {
  linked_posted : posted_ids m = request_id <$> seq 1 (requestIdCounter m);
  linked_timer : forall id p, pendingRequests m !! id = Some p ->
                   exists ty, timers m !! promise p = Some (id, ty);
  linked_type : forall h id ty, timers m !! h = Some (id, ty) ->
                  exists payload, (id, ty, payload) ∈ posted m
}.

(** Every promise created so far has been settled or has its entry in
    [pendingRequests]. *)
Definition accounted (m : Manager) : Prop :=
  forall h, h < promises m ->
    h ∈ (calls m).*1 \/ exists id p, pendingRequests m !! id = Some p /\ promise p = h.

End Ledger.

(** ** Sample worlds *)

Module Demo.

Definition fs0 : FS := {| files := ∅; locked := ∅ |}.

(** Streams that deliver a header and two records without an error. *)
Definition quiet_io : list StreamEvent :=
  [HeadData "{"; HeadClose; ReadData "{"; PipelineData "{m1}"; PipelineData "{m2}";
   PipelineEnd; WriteFinish].

(** Streams on which the second pass fails to parse after one record. *)
Definition broken_io : list StreamEvent :=
  [HeadData "{"; HeadClose; ReadData "{"; PipelineData "{m1}";
   PipelineError "Parser cannot parse input: expected a value"].

(** Streams on which writing the output fails after one record. *)
Definition full_disk_io : list StreamEvent :=
  [HeadData "{"; HeadClose; ReadData "{"; PipelineData "{m1}";
   WriteError "ENOSPC: no space left on device, write"].

Definition os_with (io : list StreamEvent) : Os :=
  {| os_tmpdir := "/tmp"; date_now := 1700000000000%Z; getFileSize := fun _ => 60000000%N;
     createProgress := fun st b t n msg =>
       {| stage := st; bytesRead := b; totalBytes := t; messagesProcessed := n;
          percentage := (if (t =? 0)%N then 0 else b * 100 / t)%N;
          progress_message := msg |};
     headerOf := fun _ => "{";
     io_events := fun _ => io |}.

Definition msg (pid sname : option string) (ts : option JsNumber) (ty : option Z)
  : ParsedMessage :=
  {| senderPlatformId := pid; senderName := sname; timestamp := ts; type := ty;
     content := Some "hi" |}.

Definition alice : ParsedMember := {| platformId := "u1"; name := "Alice"; nickname := None |}.

Definition group : ParsedMeta :=
  {| meta_name := "group"; meta_platform := "qq"; meta_type := "group" |}.

Definition run_of (messages : list ParsedMessage) (err : option string) : ParseRun :=
  {| run_events := [PMeta group; PMembers [alice]; PMessageBatch messages];
     run_error := err |}.

(** A world without a preprocessor, in which every file parses to [r]. *)
Definition plain (r : ParseRun) (fault : option nat) : World :=
  {| world_os := os_with quiet_io; math_random := "k3x9qa"; getDbDir := "/db";
     detectFormat := fun _ => Some {| format_name := "chatlab"; format_platform := "qq" |};
     getPreprocessor := fun _ => None;
     parser_needsPreprocess := fun _ => false;
     streamParseFile := fun _ _ => r;
     statSize := fun _ => Ok 1000%N;
     storage_fault := fault |}.

(** A world in which every file is a large QQ export: it is slimmed by
    the QQ preprocessor, whose streams emit [io], before it parses to [r]. *)
Definition large (io : list StreamEvent) (r : ParseRun) (fault : option nat) : World :=
  {| world_os := os_with io; math_random := "k3x9qa"; getDbDir := "/db";
     detectFormat := fun _ => Some {| format_name := "shuakami-qq-exporter-v4";
                                      format_platform := "qq" |};
     getPreprocessor := fun _ => Some (ShuakamiQq.qqPreprocessor (os_with io));
     parser_needsPreprocess := fun _ => true;
     streamParseFile := fun _ _ => r;
     statSize := fun _ => Ok 60000000%N;
     storage_fault := fault |}.

(** Alice writes, changes her name, and a second sender appears. *)
Definition chat : list ParsedMessage :=
  [msg (Some "u1") (Some "Alice") (Some (Num 10)) (Some 0%Z);
   msg (Some "u1") (Some "Alice") (Some (Num 11)) (Some 0%Z);
   msg (Some "u1") (Some "Ally") (Some (Num 12)) (Some 0%Z);
   msg (Some "u2") (Some "Bob") (Some (Num 13)) (Some 1%Z)].

(** Two records that the import skips among the four of [chat]. *)
Definition noisy_chat : list ParsedMessage :=
  msg None (Some "Ghost") (Some (Num 9)) (Some 0%Z) ::
  chat ++ [msg (Some "u2") (Some "Bob") (Some NaN) (Some 0%Z)].

(** The file that is imported. *)
Definition path : string := "/in/chat.json".

Definition progress_of (id : string) : WorkerManager.WorkerMessage :=
  {| WorkerManager.wm_id := id; WorkerManager.wm_type := "progress";
     WorkerManager.wm_success := false; WorkerManager.wm_result := "";
     WorkerManager.wm_error := ""; WorkerManager.wm_payload := None |}.

Definition done_of (id result : string) : WorkerManager.WorkerMessage :=
  {| WorkerManager.wm_id := id; WorkerManager.wm_type := "result";
     WorkerManager.wm_success := true; WorkerManager.wm_result := result;
     WorkerManager.wm_error := ""; WorkerManager.wm_payload := None |}.

End Demo.

(** ** Further sample worlds *)

Module Samples.
Local Open Scope list_scope.
Import StreamImport.

(** A file with a member list, a progress event, skipped records and a
    second delivery of the metadata. *)
Definition listed_chat : ParseRun :=
  {| run_events :=
       [PMeta Demo.group;
        PMembers [Demo.alice;
                  {| platformId := "u3"; name := "Carol"; nickname := Some "" |}];
        PProgress {| stage := SParsing; bytesRead := 10; totalBytes := 1000;
                     messagesProcessed := 0; percentage := 1; progress_message := "" |};
        PMessageBatch Demo.noisy_chat;
        PMeta {| meta_name := "renamed"; meta_platform := "qq"; meta_type := "group" |}];
     run_error := None |}.


(** A file system that holds the store of another session. *)
Definition used_fs : FS :=
  {| files := {["/db/chat_1600000000000_aaaaaa.db" := FDb empty_tables]}; locked := ∅ |}.


(** Streams whose head fails to be read after a first chunk, and which
    go on: the head stream closes and the second pass completes. *)
Definition flaky_io : list StreamEvent :=
  HeadData "{" :: HeadError "EIO: i/o error, read" ::
  [HeadClose; ReadData "{"; PipelineData "{m1}"; PipelineEnd; WriteFinish].

(** The large file that is imported, and its slimmed copy. *)
Definition big : string := "/in/big.json".
Definition slim : string := "/tmp/chatlab/slim_1700000000000_big.json".

End Samples.

(** * Properties *)

Local Open Scope list_scope.

Import StreamImport.

Arguments getDbPath : simpl never.
Arguments generateSessionId : simpl never.

(** ** The monad and the SQL statements *)

Lemma mbind_inv_ok {S A B} (m : M S A) (k : A -> M S B) s b s2 :
  mbind m k s = (Ok b, s2) -> exists a s1, m s = (Ok a, s1) /\ k a s1 = (Ok b, s2).
Proof.
  unfold mbind. destruct (m s) as [[a|e|] s1]; intros H; try discriminate.
  by exists a, s1.
Qed.

Lemma forM_inv_ok {S A} (P : list A -> S -> Prop) (body : A -> M S unit) :
  (forall acc x s s', P acc s -> body x s = (Ok tt, s') -> P (acc ++ [x]) s') ->
  forall l acc s s', P acc s -> forM_ body l s = (Ok tt, s') -> P (acc ++ l) s'.
Proof.
  intros Hstep l. induction l as [|x l IH]; intros acc s s' HP H; simpl in H.
  - inversion H; subst. by rewrite app_nil_r.
  - apply mbind_inv_ok in H as ([] & s1 & H1 & H2).
    rewrite (cons_middle x), app_assoc. eapply IH; [|exact H2]. eauto.
Qed.

Lemma getMemberId_Some pid t i :
  Sql.getMemberId pid t = Some i ->
  exists r, r ∈ member t /\ m_platform_id r = pid /\ m_id r = i.
Proof.
  unfold Sql.getMemberId. destruct (List.find _ _) as [r|] eqn:E; [|done].
  intros [= <-]. apply List.find_some in E as [Hin Heq].
  exists r. split; [by apply list_elem_of_In|]. split; [|done].
  by apply String.eqb_eq.
Qed.

Lemma getMemberId_None pid t :
  Sql.getMemberId pid t = None -> pid ∉ m_platform_id <$> member t.
Proof.
  unfold Sql.getMemberId. destruct (List.find _ _) as [r|] eqn:E; [done|].
  intros _ (r & -> & Hin)%list_elem_of_fmap.
  apply list_elem_of_In in Hin.
  pose proof (List.find_none _ _ E r Hin) as H. simpl in H.
  by rewrite String.eqb_refl in H.
Qed.

Lemma find_app_l {A} (f : A -> bool) l1 l2 r :
  List.find f l1 = Some r -> List.find f (l1 ++ l2) = Some r.
Proof. induction l1 as [|x l1 IH]; simpl; [done|]. destruct (f x); auto. Qed.

Lemma find_app_r {A} (f : A -> bool) l1 l2 :
  List.find f l1 = None -> List.find f (l1 ++ l2) = List.find f l2.
Proof. induction l1 as [|x l1 IH]; simpl; [done|]. destruct (f x); [done|auto]. Qed.

Lemma getMemberId_insertMember pid n nick t :
  Sql.getMemberId pid (Sql.insertMember pid n nick t) =
  Some (default (S (member_seq t)) (Sql.getMemberId pid t)).
Proof.
  unfold Sql.insertMember. destruct (Sql.getMemberId pid t) as [i|] eqn:E; simpl; [done|].
  unfold Sql.getMemberId in *. simpl.
  destruct (List.find _ (member t)) eqn:F; [done|].
  rewrite (find_app_r _ _ _ F). simpl. by rewrite String.eqb_refl.
Qed.

Lemma getMemberId_insertMember_ne pid q n nick t :
  q <> pid -> Sql.getMemberId q (Sql.insertMember pid n nick t) = Sql.getMemberId q t.
Proof.
  intros Hne. unfold Sql.insertMember.
  destruct (Sql.getMemberId pid t) eqn:E; [done|].
  unfold Sql.getMemberId. simpl.
  destruct (List.find _ (member t)) eqn:F.
  - by rewrite (find_app_l _ _ _ _ F).
  - rewrite (find_app_r _ _ _ F). simpl.
    destruct (String.eqb_spec pid q); [congruence|done].
Qed.

Lemma getMemberId_insertMember_keep pid q n nick t i :
  Sql.getMemberId q t = Some i -> Sql.getMemberId q (Sql.insertMember pid n nick t) = Some i.
Proof.
  intros H. destruct (decide (q = pid)) as [->|Hne].
  - rewrite getMemberId_insertMember, H. done.
  - by rewrite getMemberId_insertMember_ne.
Qed.

Lemma members_ok_insertMember pid n nick t :
  members_ok t -> members_ok (Sql.insertMember pid n nick t).
Proof.
  intros [H1 H2 H3]. unfold Sql.insertMember.
  destruct (Sql.getMemberId pid t) eqn:E; [done|].
  apply getMemberId_None in E.
  split; simpl.
  - rewrite fmap_app. apply NoDup_app. split; [done|]. split; [|apply NoDup_singleton].
    intros x Hx ->%list_elem_of_singleton. done.
  - rewrite fmap_app. apply NoDup_app. split; [done|]. split; [|apply NoDup_singleton].
    intros x (r & -> & Hr)%list_elem_of_fmap Hx%list_elem_of_singleton.
    rewrite Forall_forall in H3. specialize (H3 _ Hr). simpl in *. lia.
  - apply Forall_app. split.
    + eapply Forall_impl; [exact H3|]. simpl. intros; lia.
    + apply Forall_singleton. simpl. lia.
Qed.

Lemma NoDup_fmap_inj {A B} (f : A -> B) (l : list A) x y :
  NoDup (f <$> l) -> x ∈ l -> y ∈ l -> f x = f y -> x = y.
Proof.
  induction l as [|a l IH]; simpl; intros Hnd Hx Hy Heq; [by inversion Hx|].
  apply NoDup_cons in Hnd as [Hna Hnd].
  apply elem_of_cons in Hx as [->|Hx]; apply elem_of_cons in Hy as [->|Hy]; auto.
  - exfalso. apply Hna. rewrite Heq. by apply list_elem_of_fmap_2.
  - exfalso. apply Hna. rewrite <- Heq. by apply list_elem_of_fmap_2.
Qed.

Lemma getMemberId_inj t p q i :
  members_ok t -> Sql.getMemberId p t = Some i -> Sql.getMemberId q t = Some i -> p = q.
Proof.
  intros [_ H2 _] (rp & Hp & <- & Hip)%getMemberId_Some (rq & Hq & <- & Hiq)%getMemberId_Some.
  f_equal. eapply NoDup_fmap_inj; eauto. congruence.
Qed.

Lemma getMemberId_le t p i :
  members_ok t -> Sql.getMemberId p t = Some i -> i <= member_seq t.
Proof.
  intros [_ _ H3] (r & Hr & _ & <-)%getMemberId_Some.
  rewrite Forall_forall in H3. by apply H3.
Qed.

(** ** Temp-file cleanup of the preprocessor *)

Lemma unlinkSync_cases p fs :
  (exists e, Fs.unlinkSync p fs = (Throw e, fs)) \/
  (Fs.unlinkSync p fs = (Ok tt, Fs.remove p fs) /\ is_Some (files fs !! p) /\
   (p ∉ locked fs)).
Proof.
  unfold Fs.unlinkSync. destruct (files fs !! p) eqn:E; [|eauto].
  case_bool_decide; eauto.
Qed.

Lemma cleanupTempFile_cases os p fs :
  ShuakamiQq.cleanupTempFile os p fs = (Ok tt, fs) \/
  (ShuakamiQq.cleanupTempFile os p fs = (Ok tt, Fs.remove p fs) /\
   is_Some (files fs !! p) /\ (p ∉ locked fs) /\
   includes p (ShuakamiQq.getTempDir os) = true).
Proof.
  unfold ShuakamiQq.cleanupTempFile, try_catch.
  destruct (Fs.existsSync p fs && includes p (ShuakamiQq.getTempDir os)) eqn:G; [|by left].
  apply andb_true_iff in G as [_ G].
  destruct (unlinkSync_cases p fs) as [[e ->]|(-> & ? & ?)]; [by left|by right].
Qed.

Lemma cleanupTempFile_total os p fs : exists fs', ShuakamiQq.cleanupTempFile os p fs = (Ok tt, fs').
Proof. destruct (cleanupTempFile_cases os p fs) as [->|[-> _]]; eauto. Qed.

Lemma qqPreprocessor_cleanup_safe os : StreamImport.cleanup_safe (ShuakamiQq.qqPreprocessor os).
Proof.
  intros p fs. simpl.
  destruct (cleanupTempFile_cases os p fs) as [->|[-> _]].
  - exists fs. auto.
  - exists (Fs.remove p fs). repeat split; simpl.
    + left. apply lookup_delete_eq.
    + intros q Hq. by apply lookup_delete_ne.
Qed.

(** C5 (temp-directory deletion guard), at the failing input: with
    [/tmp] as the temp directory of the operating system, the designated
    directory is [/tmp/chatlab]; the file
    [/home/u/tmp/chatlab/notes.json] does not lie under it, its path does
    not even start with it, and [cleanupTempFile] deletes the file all the
    same, because the guard asks whether the path contains the directory's
    name somewhere. *)
Theorem cleanup_deletes_outside_temp_dir :
  let os := Demo.os_with Demo.quiet_io in
  let victim := "/home/u/tmp/chatlab/notes.json" in
  let fs := Fs.put victim (FText ["keep"]) Demo.fs0 in
  ShuakamiQq.getTempDir os = "/tmp/chatlab" /\
  ShuakamiQq.inside_temp_dir os victim = false /\
  startsWith victim (ShuakamiQq.getTempDir os) = false /\
  includes victim (ShuakamiQq.getTempDir os) = true /\
  Fs.existsSync victim fs = true /\
  exists fs', ShuakamiQq.cleanupTempFile os victim fs = (Ok tt, fs') /\
              Fs.existsSync victim fs' = false.
Proof.
  repeat split; try (vm_compute; reflexivity).
  eexists. split; vm_compute; reflexivity.
Qed.

(** ** The ledger of the specification *)

Lemma ledger_snoc obs o : ledger (obs ++ [o]) = observe (ledger obs) o.
Proof. unfold ledger. by rewrite foldl_app. Qed.



Lemma ledger_last_name obs :
  (fun i : Interval => i.1.1) <$> last (ledger obs) = fst <$> last obs.
Proof.
  induction obs as [|o obs IH] using rev_ind; [done|].
  rewrite ledger_snoc, last_snoc. simpl. unfold observe.
  destruct (last (ledger obs)) as [[[n st] e]|] eqn:E; [|done].
  destruct (String.eqb_spec n o.1) as [Heq|Hne].
  - rewrite E. simpl. by rewrite Heq.
  - by rewrite last_snoc.
Qed.




(** The history table under the two statements that write it. *)
Lemma rows_of_insertNameHistory j i n ts e t :
  rows_of j (Sql.insertNameHistory i n ts e t) =
  rows_of j t ++
    (if decide (i = j)
     then [{| h_id := S (history_seq t); h_member_id := i; h_name := n;
              h_start_ts := ts; h_end_ts := e |}]
     else []).
Proof.
  unfold rows_of. simpl. rewrite filter_app. f_equal.
Qed.

Lemma rows_of_updateNameHistoryEndTs j ts i t :
  rows_of j (Sql.updateNameHistoryEndTs ts i t) = Sql.close_open_row ts i <$> rows_of j t.
Proof.
  unfold rows_of. simpl.
  induction (member_name_history t) as [|r l IH]; [done|].
  rewrite fmap_cons.
  assert (h_member_id (Sql.close_open_row ts i r) = h_member_id r) as Hid.
  { unfold Sql.close_open_row. by destruct (_ && _). }
  destruct (decide (h_member_id r = j)).
  - rewrite !filter_cons_True by congruence. rewrite fmap_cons. by f_equal.
  - rewrite !filter_cons_False by congruence. done.
Qed.

Lemma interval_of_close_same ts i r :
  h_member_id r = i ->
  interval_of (Sql.close_open_row ts i r) = close_interval ts (interval_of r).
Proof.
  intros <-. unfold Sql.close_open_row, interval_of. rewrite Nat.eqb_refl. simpl.
  case_bool_decide as H; simpl.
  - by rewrite H.
  - by destruct (h_end_ts r).
Qed.

Lemma close_open_row_other ts i r :
  h_member_id r <> i -> Sql.close_open_row ts i r = r.
Proof.
  intros H. unfold Sql.close_open_row.
  apply Nat.eqb_neq in H. by rewrite H.
Qed.

Lemma rows_of_close_same ts i t :
  interval_of <$> rows_of i (Sql.updateNameHistoryEndTs ts i t) =
  close_interval ts <$> (interval_of <$> rows_of i t).
Proof.
  rewrite rows_of_updateNameHistoryEndTs. rewrite <- !list_fmap_compose.
  apply Forall_fmap_ext_1. unfold rows_of.
  apply Forall_forall. intros r Hr%list_elem_of_filter. simpl.
  apply interval_of_close_same. tauto.
Qed.

Lemma rows_of_close_other ts i j t :
  i <> j -> rows_of j (Sql.updateNameHistoryEndTs ts i t) = rows_of j t.
Proof.
  intros Hne. rewrite rows_of_updateNameHistoryEndTs.
  rewrite <- (list_fmap_id (rows_of j t)) at 2.
  apply Forall_fmap_ext_1. unfold rows_of.
  apply Forall_forall. intros r [Hr _]%list_elem_of_filter. simpl.
  apply close_open_row_other. congruence.
Qed.

Lemma rows_of_fresh i t :
  Forall (fun r => h_member_id r <> i) (member_name_history t) -> rows_of i t = [].
Proof.
  intros H. unfold rows_of. induction H as [|r l Hr _ IH]; [done|].
  by rewrite filter_cons_False.
Qed.

(** ** The invariant through the callbacks *)

Lemma storage_inv s u s' : storage s = (Ok u, s') -> exists f, s' = set_fault f s.
Proof.
  unfold storage. destruct (st_fault s) as [[|n]|] eqn:E; intros H; inversion H; eauto.
  exists None. destruct s; simpl in *; by subst.
Qed.

Lemma run_inv stmt s u s' :
  run stmt s = (Ok u, s') -> exists f, s' = upd_db stmt (set_fault f s).
Proof.
  unfold run. intros (? & s1 & H1 & H2)%mbind_inv_ok.
  apply storage_inv in H1 as [f ->]. inversion H2. eauto.
Qed.

Lemma get_inv {A} (q : Tables -> A) s a s' :
  get q s = (Ok a, s') -> exists f, s' = set_fault f s /\ a = q (st_db s).
Proof.
  unfold get. intros (? & s1 & H1 & H2)%mbind_inv_ok.
  apply storage_inv in H1 as [f ->]. inversion H2. eauto.
Qed.

Ltac inv_step H :=
  match type of H with
  | mbind _ _ _ = (Ok _, _) =>
      let a := fresh "a" in let s := fresh "s" in
      let H1 := fresh H in
      apply mbind_inv_ok in H as (a & s & H1 & H); inv_step H1
  | run _ _ = (Ok _, _) => let f := fresh "f" in apply run_inv in H as [f ->]
  | get _ _ = (Ok _, _) => let f := fresh "f" in apply get_inv in H as (f & -> & ->)
  | gets _ _ = (Ok _, _) => unfold gets in H; inversion H; subst; clear H
  | modify _ _ = (Ok _, _) => unfold modify in H; inversion H; subst; clear H
  | mret _ _ = (Ok _, _) => unfold mret in H; inversion H; subst; clear H
  | _ => idtac
  end.

Lemma register_member_inv done s pid n nick s' :
  Inv done s ->
  (exec run (Sql.insertMember pid n nick);
   do row <- get (Sql.getMemberId pid);
   match row with
   | Some id => modify (memberIdMap_set pid id)
   | None => mret tt
   end)%js s = (Ok tt, s') ->
  Inv done s' /\ is_Some (memberIdMap s' !! pid).
Proof.
  intros [Hm Hmap Hseen Hown Htr Hhist Hmsg Hcon] H.
  inv_step H. inv_step H. simpl in H.
  rewrite getMemberId_insertMember in H. inv_step H.
  set (id := default (S (member_seq (st_db s))) (Sql.getMemberId pid (st_db s))).
  set (db' := Sql.insertMember pid n nick (st_db s)).
  assert (Sql.getMemberId pid db' = Some id) as Hid by apply getMemberId_insertMember.
  assert (members_ok db') as Hm' by by apply members_ok_insertMember.
  assert (member_name_history db' = member_name_history (st_db s)) as Hh.
  { unfold db', Sql.insertMember. by destruct (Sql.getMemberId _ _). }
  assert (message db' = message (st_db s)) as Hmm.
  { unfold db', Sql.insertMember. by destruct (Sql.getMemberId _ _). }
  assert (forall p i, <[pid:=id]> (memberIdMap s) !! p = Some i ->
                      Sql.getMemberId p db' = Some i) as Hmap'.
  { intros p i. destruct (decide (p = pid)) as [->|Hne].
    - rewrite lookup_insert_eq. intros [= <-]. done.
    - rewrite lookup_insert_ne by done. intros Hp%Hmap.
      by apply getMemberId_insertMember_keep. }
  assert (forall p i, memberIdMap s !! p = Some i -> <[pid:=id]> (memberIdMap s) !! p = Some i)
    as Hgrow.
  { intros p i Hp. destruct (decide (p = pid)) as [->|Hne].
    - rewrite lookup_insert_eq. f_equal. unfold id. by rewrite (Hmap _ _ Hp).
    - by rewrite lookup_insert_ne. }
  split; [|simpl; rewrite lookup_insert_eq; eauto].
  split; simpl; fold db'; try done.
  - intros p Hp. destruct (Hseen p Hp) as [i Hi]. exists i. by apply Hgrow.
  - rewrite Hh. eapply Forall_impl; [exact Hown|]. simpl.
    intros r [p Hp]. exists p. by apply Hgrow.
  - intros p i Hp. unfold rows_of. rewrite Hh. fold (rows_of i (st_db s)).
    destruct (memberIdMap s !! p) as [j|] eqn:Hj.
    + rewrite (Hgrow _ _ Hj) in Hp. injection Hp as <-. by apply Hhist.
    + destruct (decide (p = pid)) as [->|Hne];
        [|by rewrite lookup_insert_ne, Hj in Hp].
      rewrite lookup_insert_eq in Hp. injection Hp as <-.
      destruct (observations pid done) as [|o obs] eqn:Hobs.
      2:{ destruct (Hseen pid) as [? ?]; [by rewrite Hobs|congruence]. }
      rewrite rows_of_fresh; [done|].
      eapply Forall_impl; [exact Hown|]. simpl. intros r [p' Hp'] Heq.
      assert (p' <> pid) as Hne by congruence.
      pose proof (Hmap _ _ Hp') as Hg.
      apply (getMemberId_insertMember_keep pid _ n nick) in Hg. fold db' in Hg.
      rewrite Heq in Hg. by pose proof (getMemberId_inj _ _ _ _ Hm' Hg Hid).
  - by rewrite Hmm.
Qed.

Lemma truthy_Some x : truthy x = true -> exists s, x = Some s /\ s <> "".
Proof.
  destruct x as [s|]; [|done]. simpl. intros H. exists s. split; [done|].
  intros ->. done.
Qed.

Lemma skip_reason_None msg :
  skip_reason msg = None ->
  exists pid sname ts ty,
    senderPlatformId msg = Some pid /\ senderName msg = Some sname /\
    timestamp msg = Some (Num ts) /\ type msg = Some ty /\ pid <> "" /\ sname <> "".
Proof.
  unfold skip_reason.
  destruct (truthy (senderPlatformId msg)) eqn:E1; [|done].
  destruct (truthy (senderName msg)) eqn:E2; [|done]. simpl.
  destruct (timestamp msg) as [[|ts]|]; try done. simpl.
  destruct (type msg) as [ty|]; try done. intros _.
  apply truthy_Some in E1 as (pid & -> & ?). apply truthy_Some in E2 as (sname & -> & ?).
  by exists pid, sname, ts, ty.
Qed.

Lemma or_str_l a b : a <> "" -> or_str a b = a.
Proof. unfold or_str. by destruct (String.eqb_spec a ""). Qed.

Lemma observation_invalid p msg : is_valid msg = false -> observation p msg = None.
Proof. unfold observation. by intros ->. Qed.

Lemma observation_valid p msg pid sname ts :
  is_valid msg = true ->
  senderPlatformId msg = Some pid -> senderName msg = Some sname ->
  timestamp msg = Some (Num ts) -> sname <> "" ->
  observation p msg = if decide (p = pid) then Some (sname, ts) else None.
Proof.
  unfold observation. intros -> -> -> -> Hn. rewrite or_str_l by done.
  destruct (String.eqb_spec pid p); case_decide; congruence.
Qed.

Lemma observations_snoc p done msg :
  observations p (done ++ [msg]) =
  observations p done ++ match observation p msg with Some o => [o] | None => [] end.
Proof. unfold observations. rewrite omap_app. simpl. by destruct (observation p msg). Qed.

Lemma tracker_of_snoc obs o :
  tracker_of (obs ++ [o]) = Some {| currentName := o.1; lastSeenTs := o.2 |}.
Proof. unfold tracker_of. by rewrite last_snoc. Qed.

Lemma tracker_of_None obs : tracker_of obs = None -> obs = [].
Proof.
  unfold tracker_of. destruct (last obs) eqn:E; [done|]. intros _.
  by apply last_None.
Qed.

Lemma ledger_last_of_tracker obs tr :
  tracker_of obs = Some tr ->
  exists st e, last (ledger obs) = Some (currentName tr, st, e).
Proof.
  unfold tracker_of. intros H. pose proof (ledger_last_name obs) as Hl.
  destruct (last obs) as [o|]; [|done]. injection H as <-. simpl in *.
  destruct (last (ledger obs)) as [[[n st] e]|]; [|done].
  injection Hl as <-. eauto.
Qed.

Lemma members_ok_same t t' :
  member t' = member t -> member_seq t' = member_seq t -> members_ok t -> members_ok t'.
Proof. intros H1 H2 [? ? ?]. split; by rewrite ?H1, ?H2. Qed.

Lemma getMemberId_same t t' p :
  member t' = member t -> Sql.getMemberId p t' = Sql.getMemberId p t.
Proof. unfold Sql.getMemberId. by intros ->. Qed.

Lemma memberIdMap_inj done s p q i :
  Inv done s -> memberIdMap s !! p = Some i -> memberIdMap s !! q = Some i -> p = q.
Proof.
  intros [Hm Hmap _ _ _ _ _ _] Hp%Hmap Hq%Hmap. eapply getMemberId_inj; eauto.
Qed.

(** The history part of the loop body, from a state in which the sender
    is registered. *)
Lemma ingest_history_inv done s msg pid sname ts ty i s' :
  Inv done s ->
  is_valid msg = true ->
  senderPlatformId msg = Some pid -> senderName msg = Some sname ->
  timestamp msg = Some (Num ts) -> sname <> "" ->
  memberIdMap s !! pid = Some i ->
  (exec run (Sql.insertMessage i ts ty (content msg));
   let senderName := or_str sname pid in
   do tracker <- gets (fun s => nicknameTracker s !! pid);
   match tracker with
   | None =>
       exec modify (nicknameTracker_set pid
                      {| currentName := senderName; lastSeenTs := ts |});
       run (Sql.insertNameHistory i senderName ts None)
   | Some tracker =>
       if negb (String.eqb (currentName tracker) senderName)
       then exec run (Sql.updateNameHistoryEndTs ts i);
            exec run (Sql.insertNameHistory i senderName ts None);
            modify (nicknameTracker_set pid
                      {| currentName := senderName; lastSeenTs := ts |})
       else modify (nicknameTracker_set pid
                      {| currentName := currentName tracker; lastSeenTs := ts |})
   end)%js s = (Ok tt, s') ->
  Inv (done ++ [msg]) s'.
Proof.
  intros HI Hv Hpid Hname Hts Hne Hi H.
  pose proof (fun p q j => memberIdMap_inj done s p q j HI) as Hinj.
  destruct HI as [Hm Hmap Hseen Hown Htr Hhist Hmsg Hcon].
  assert (forall p, observations p (done ++ [msg]) =
                    observations p done ++ (if decide (p = pid) then [(sname, ts)] else []))
    as Hobs.
  { intros p. rewrite observations_snoc.
    rewrite (observation_valid p msg pid sname ts) by done. by case_decide. }
  assert (length (filter (fun m => is_valid m) (done ++ [msg])) =
          S (length (filter (fun m => is_valid m) done))) as Hlen.
  { rewrite filter_app, length_app.
    rewrite filter_cons_True; [simpl; lia|]. simpl. by rewrite Hv. }
  assert (length (filter (fun m => negb (is_valid m)) (done ++ [msg])) =
          length (filter (fun m => negb (is_valid m)) done)) as Hlen'.
  { rewrite filter_app, length_app.
    rewrite filter_cons_False; [simpl; lia|]. simpl. rewrite Hv. simpl. tauto. }
  assert (forall t', member t' = member (st_db s) -> member_seq t' = member_seq (st_db s) ->
            members_ok t') as Hm'.
  { intros t' E1 E2. by apply (members_ok_same (st_db s)). }
  assert (forall t', member t' = member (st_db s) ->
            forall p j, memberIdMap s !! p = Some j -> Sql.getMemberId p t' = Some j) as Hmap'.
  { intros t' E1 p j Hj. rewrite (getMemberId_same (st_db s)) by done. by apply Hmap. }
  assert (forall p, observations p (done ++ [msg]) <> [] -> is_Some (memberIdMap s !! p))
    as Hseen'.
  { intros p. rewrite Hobs. case_decide; [subst p; eauto|]. rewrite app_nil_r. apply Hseen. }
  rewrite or_str_l in H by done.
  inv_step H. cbv zeta in H. inv_step H. cbn [nicknameTracker upd_db set_fault] in H.
  specialize (Htr pid) as Htp. revert H.
  destruct (nicknameTracker s !! pid) as [tr|] eqn:Etr; intros H.
  - (* the member is tracked *)
    symmetry in Htp. destruct (ledger_last_of_tracker _ _ Htp) as (st & e & Hlast).
    revert H. destruct (String.eqb_spec (currentName tr) sname) as [Hsame|Hdiff];
      intros H; simpl in H.
    + (* same name *)
      inv_step H. split; simpl.
      * by apply Hm'.
      * by apply Hmap'.
      * done.
      * done.
      * intros p. rewrite Hobs. destruct (decide (p = pid)) as [->|Hp].
        -- by rewrite lookup_insert_eq, tracker_of_snoc.
        -- rewrite lookup_insert_ne, app_nil_r by done. apply Htr.
      * intros p j Hj. rewrite Hobs. unfold rows_of. simpl. fold (rows_of j (st_db s)).
        rewrite (Hhist _ _ Hj). case_decide; [|by rewrite app_nil_r].
        subst p. rewrite ledger_snoc. unfold observe. rewrite Hlast. simpl.
        by rewrite String.eqb_refl.
      * rewrite length_app, Hlen. simpl. lia.
      * by rewrite Hlen'.
    + (* another name *)
      inv_step H. inv_step H. inv_step H. split; simpl.
      * by apply Hm'.
      * by apply Hmap'.
      * done.
      * apply Forall_app. split; [|apply Forall_singleton; simpl; eauto].
        apply Forall_fmap. eapply Forall_impl; [exact Hown|]. simpl.
        intros r [p Hp]. exists p. rewrite Hp. f_equal.
        unfold Sql.close_open_row. by destruct (_ && _).
      * intros p. rewrite Hobs. destruct (decide (p = pid)) as [->|Hp].
        -- by rewrite lookup_insert_eq, tracker_of_snoc.
        -- rewrite lookup_insert_ne, app_nil_r by done. apply Htr.
      * intros p j Hj. rewrite Hobs.
        rewrite rows_of_insertNameHistory, fmap_app.
        destruct (decide (p = pid)) as [->|Hp].
        -- assert (j = i) as -> by congruence. rewrite decide_True by done.
           pose proof (rows_of_close_same ts i (Sql.insertMessage i ts ty (content msg) (st_db s)))
             as Hc.
           unfold rows_of in Hc |- *. simpl in Hc |- *. rewrite Hc.
           fold (rows_of i (st_db s)). rewrite (Hhist _ _ Hj).
           rewrite ledger_snoc. unfold observe. rewrite Hlast. simpl.
           destruct (String.eqb_spec (currentName tr) sname); [done|]. done.
        -- assert (i <> j) as Hij by (intros ->; eauto).
           rewrite decide_False by done. rewrite !app_nil_r.
           pose proof (rows_of_close_other ts i j
                         (Sql.insertMessage i ts ty (content msg) (st_db s)) Hij) as Hc.
           unfold rows_of in Hc |- *. simpl in Hc |- *. rewrite Hc.
           fold (rows_of j (st_db s)). by apply Hhist.
      * rewrite length_app, Hlen. simpl. lia.
      * by rewrite Hlen'.
  - (* first observation of the member *)
    symmetry in Htp. apply tracker_of_None in Htp.
    inv_step H. inv_step H. split; simpl.
    + by apply Hm'.
    + by apply Hmap'.
    + done.
    + apply Forall_app. split; [done|]. apply Forall_singleton. simpl. eauto.
    + intros p. rewrite Hobs. destruct (decide (p = pid)) as [->|Hp].
      * by rewrite lookup_insert_eq, tracker_of_snoc.
      * rewrite lookup_insert_ne, app_nil_r by done. apply Htr.
    + intros p j Hj. rewrite Hobs.
      rewrite rows_of_insertNameHistory, fmap_app.
      unfold rows_of at 1. simpl. fold (rows_of j (st_db s)).
      rewrite (Hhist _ _ Hj).
      destruct (decide (p = pid)) as [->|Hp].
      * assert (j = i) as -> by congruence. rewrite decide_True by done.
        rewrite Htp. done.
      * assert (i <> j) as Hij by (intros ->; eauto).
        rewrite decide_False by done. by rewrite !app_nil_r.
    + rewrite length_app, Hlen. simpl. lia.
    + by rewrite Hlen'.
Qed.

Lemma ingest_inv done s msg pid sname ts ty s' :
  Inv done s ->
  is_valid msg = true ->
  senderPlatformId msg = Some pid -> senderName msg = Some sname ->
  timestamp msg = Some (Num ts) -> sname <> "" ->
  ingest pid sname ts ty (content msg) s = (Ok tt, s') ->
  Inv (done ++ [msg]) s'.
Proof.
  intros HI Hv Hpid Hname Hts Hne H. unfold ingest in H.
  apply mbind_inv_ok in H as (known & s0 & H0 & H). inv_step H0.
  apply mbind_inv_ok in H as ([] & s1 & H1 & H).
  assert (Inv done s1 /\ is_Some (memberIdMap s1 !! pid)) as [HI1 [i Hi]].
  { destruct (bool_decide (is_Some (memberIdMap s0 !! pid))) eqn:Hk; simpl in H1.
    - inv_step H1. split; [done|]. by apply bool_decide_eq_true in Hk.
    - cbv zeta in H1. by eapply register_member_inv. }
  apply mbind_inv_ok in H as (senderId & s2 & H2 & H). inv_step H2.
  rewrite Hi in H. by eapply ingest_history_inv.
Qed.

Lemma onMessage_inv done s msg s' :
  Inv done s -> onMessage msg s = (Ok tt, s') -> Inv (done ++ [msg]) s'.
Proof.
  intros HI H. unfold onMessage in H.
  destruct (skip_reason msg) as [line|] eqn:Hskip.
  - inv_step H.
    assert (is_valid msg = false) as Hv by (unfold is_valid; by rewrite Hskip).
    destruct HI as [Hm Hmap Hseen Hown Htr Hhist Hmsg Hcon].
    assert (forall p, observations p (done ++ [msg]) = observations p done) as Hobs.
    { intros p. rewrite observations_snoc, observation_invalid by done. apply app_nil_r. }
    split; simpl; try done.
    + intros p. rewrite Hobs. apply Hseen.
    + intros p. rewrite Hobs. apply Htr.
    + intros p i. rewrite Hobs. apply Hhist.
    + rewrite filter_app, length_app, filter_cons_False; [simpl; lia|].
      simpl. rewrite Hv. simpl. tauto.
    + rewrite filter_app, !length_app, filter_cons_True; [simpl; lia|].
      simpl. rewrite Hv. simpl. tauto.
  - assert (is_valid msg = true) as Hv by (unfold is_valid; by rewrite Hskip).
    destruct (skip_reason_None _ Hskip) as (pid & sname & ts & ty & E1 & E2 & E3 & E4 & _ & Hn).
    rewrite E1, E2, E3, E4 in H. by eapply ingest_inv.
Qed.

Lemma onMessageBatch_inv done s messages s' :
  Inv done s -> onMessageBatch messages s = (Ok tt, s') -> Inv (done ++ messages) s'.
Proof. intros HI H. eapply (forM_inv_ok Inv); eauto using onMessage_inv. Qed.

Lemma onMember_inv done s member s' :
  Inv done s -> onMember member s = (Ok tt, s') -> Inv done s'.
Proof. intros HI H. by eapply register_member_inv. Qed.

Lemma onMembers_inv done s members s' :
  Inv done s -> onMembers members s = (Ok tt, s') -> Inv done s'.
Proof.
  intros HI H.
  apply (forM_inv_ok (fun _ => Inv done) onMember) with (l := members) (acc := []) (s := s);
    eauto using onMember_inv.
Qed.

Lemma Inv_db_same done s s' :
  Inv done s ->
  member (st_db s') = member (st_db s) -> member_seq (st_db s') = member_seq (st_db s) ->
  member_name_history (st_db s') = member_name_history (st_db s) ->
  message (st_db s') = message (st_db s) ->
  memberIdMap s' = memberIdMap s -> nicknameTracker s' = nicknameTracker s ->
  st_console s' = st_console s ->
  Inv done s'.
Proof.
  intros [Hm Hmap Hseen Hown Htr Hhist Hmsg Hcon] E1 E2 E3 E4 E5 E6 E7.
  split; rewrite ?E4, ?E5, ?E6, ?E7; try done.
  - by apply (members_ok_same (st_db s)).
  - intros p i Hp. rewrite (getMemberId_same (st_db s)) by done. by apply Hmap.
  - by rewrite E3.
  - intros p i Hp. unfold rows_of. rewrite E3. by apply Hhist.
Qed.

Lemma onMeta_inv w done s meta s' :
  Inv done s -> onMeta w meta s = (Ok tt, s') -> Inv done s'.
Proof.
  intros HI H. unfold onMeta in H. inv_step H.
  destruct (metaInserted s0); simpl in H.
  - inv_step H. done.
  - inv_step H. inv_step H. by eapply Inv_db_same.
Qed.

Lemma run_messages_snoc evs ev :
  run_messages (evs ++ [ev]) = run_messages evs ++ event_messages ev.
Proof.
  unfold run_messages. rewrite omap_app, concat_app. f_equal.
  destruct ev; simpl; by rewrite ?app_nil_r.
Qed.

Lemma callback_inv w done s ev s' :
  Inv done s -> callback w ev s = (Ok tt, s') -> Inv (done ++ event_messages ev) s'.
Proof.
  intros HI H. destruct ev; simpl in *; rewrite ?app_nil_r.
  - by eapply onMeta_inv.
  - by eapply onMembers_inv.
  - by eapply onMessageBatch_inv.
  - inv_step H. by eapply Inv_db_same.
Qed.

Lemma callbacks_inv w evs s s' :
  Inv [] s -> forM_ (callback w) evs s = (Ok tt, s') -> Inv (run_messages evs) s'.
Proof.
  intros HI H.
  apply (forM_inv_ok (fun acc => Inv (run_messages acc)) (callback w))
    with (l := evs) (acc := []) (s := s); [|done|done].
  intros acc ev s1 s2 H1 H2. rewrite run_messages_snoc. by eapply callback_inv.
Qed.

Lemma parse_inv w r s s' :
  Inv [] s -> parse w r s = (Ok tt, s') ->
  Inv (run_messages (run_events r)) s' /\ run_error r = None.
Proof.
  intros HI H. unfold parse in H.
  apply mbind_inv_ok in H as ([] & s1 & H1 & H).
  destruct (run_error r); [discriminate|]. inv_step H.
  split; [|done]. by eapply callbacks_inv.
Qed.

(** What the final loop over the trackers keeps. *)
Lemma updateMemberName_members_ok n pid t :
  members_ok t -> members_ok (Sql.updateMemberName n pid t).
Proof.
  intros [H1 H2 H3].
  assert (forall r, m_platform_id (Sql.set_member_name n pid r) = m_platform_id r) as E1.
  { intros r. unfold Sql.set_member_name. by destruct (_ =? _). }
  assert (forall r, m_id (Sql.set_member_name n pid r) = m_id r) as E2.
  { intros r. unfold Sql.set_member_name. by destruct (_ =? _). }
  split; simpl.
  - rewrite <- list_fmap_compose.
    rewrite (Forall_fmap_ext_1 (m_platform_id ∘ Sql.set_member_name n pid) m_platform_id);
      [done|]. apply Forall_forall. intros r _. apply E1.
  - rewrite <- list_fmap_compose.
    rewrite (Forall_fmap_ext_1 (m_id ∘ Sql.set_member_name n pid) m_id);
      [done|]. apply Forall_forall. intros r _. apply E2.
  - apply Forall_fmap. eapply Forall_impl; [exact H3|]. simpl. intros r. by rewrite E2.
Qed.

Lemma getMemberId_updateMemberName n pid p t :
  Sql.getMemberId p (Sql.updateMemberName n pid t) = Sql.getMemberId p t.
Proof.
  unfold Sql.getMemberId. simpl. induction (member t) as [|r l IH]; [done|].
  rewrite fmap_cons. simpl.
  assert (m_platform_id (Sql.set_member_name n pid r) = m_platform_id r) as E1.
  { unfold Sql.set_member_name. by destruct (_ =? _). }
  assert (m_id (Sql.set_member_name n pid r) = m_id r) as E2.
  { unfold Sql.set_member_name. by destruct (_ =? _). }
  rewrite E1. destruct (m_platform_id r =? p); simpl; [by rewrite E2|done].
Qed.

Lemma updateMemberNames_inv done s s' :
  Inv done s -> updateMemberNames s = (Ok tt, s') -> Inv done s'.
Proof.
  intros HI H. unfold updateMemberNames in H.
  apply mbind_inv_ok in H as (trackers & s0 & H0 & H). inv_step H0.
  revert H. generalize (map_to_list (nicknameTracker s0)). intros l. revert s0 HI.
  induction l as [|[pid tr] l IH]; intros s HI H; simpl in H.
  - by inv_step H.
  - apply mbind_inv_ok in H as ([] & s1 & H1 & H). inv_step H1.
    eapply IH; [|exact H].
    destruct HI as [Hm Hmap Hseen Hown Htr Hhist Hmsg Hcon]. split; simpl; try done.
    + by apply updateMemberName_members_ok.
    + intros p i Hp. rewrite getMemberId_updateMemberName. by apply Hmap.
Qed.

(** ** Frame and progress of the callbacks *)

(** Frame: the callbacks leave the file system alone, whatever their outcome. *)
Lemma keeps_fs_mret {A} (a : A) : keeps_fs (mret a).
Proof. intros s r s' [= <- <-]. done. Qed.

Lemma keeps_fs_throw {A} e : keeps_fs (@throw _ A e).
Proof. intros s r s' [= <- <-]. done. Qed.

Lemma keeps_fs_gets {A} (f : ImportState -> A) : keeps_fs (gets f).
Proof. intros s r s' [= <- <-]. done. Qed.

Lemma keeps_fs_modify f : (forall s, st_fs (f s) = st_fs s) -> keeps_fs (modify f).
Proof. intros Hf s r s' [= <- <-]. apply Hf. Qed.

Lemma keeps_fs_mbind {A B} (m : M ImportState A) (k : A -> M ImportState B) :
  keeps_fs m -> (forall a, keeps_fs (k a)) -> keeps_fs (mbind m k).
Proof.
  intros Hm Hk s r s'. unfold mbind. destruct (m s) as [[a|e|] s1] eqn:E; intros H.
  - rewrite (Hk _ _ _ _ H). eauto.
  - injection H as <- <-. eauto.
  - injection H as <- <-. eauto.
Qed.

Lemma keeps_fs_storage : keeps_fs storage.
Proof. intros s r s'. unfold storage. destruct (st_fault s) as [[|n]|]; by intros [= <- <-]. Qed.

Lemma keeps_fs_run stmt : keeps_fs (run stmt).
Proof.
  apply keeps_fs_mbind; [apply keeps_fs_storage|]. intros _. by apply keeps_fs_modify.
Qed.

Lemma keeps_fs_get {A} (q : Tables -> A) : keeps_fs (get q).
Proof.
  apply keeps_fs_mbind; [apply keeps_fs_storage|]. intros _. apply keeps_fs_gets.
Qed.

Lemma keeps_fs_forM {A} (body : A -> M ImportState unit) l :
  (forall x, keeps_fs (body x)) -> keeps_fs (forM_ body l).
Proof.
  intros Hb. induction l as [|x l IH]; simpl.
  - apply keeps_fs_mret.
  - apply keeps_fs_mbind; auto.
Qed.

Ltac frame :=
  repeat first
    [ apply keeps_fs_run | apply keeps_fs_get | apply keeps_fs_gets | apply keeps_fs_mret
    | apply keeps_fs_throw | apply keeps_fs_storage
    | apply keeps_fs_modify; intros ?; reflexivity
    | apply keeps_fs_forM; intros ?
    | apply keeps_fs_mbind; [|intros ?]
    | match goal with |- keeps_fs (match ?x with _ => _ end) => destruct x end
    | match goal with |- keeps_fs (let _ := _ in _) => cbv zeta end ].

Lemma keeps_fs_onMeta w meta : keeps_fs (onMeta w meta).
Proof. unfold onMeta. frame. Qed.

Lemma keeps_fs_onMember member : keeps_fs (onMember member).
Proof. unfold onMember. frame. Qed.

Lemma keeps_fs_ingest pid sname ts ty c : keeps_fs (ingest pid sname ts ty c).
Proof. unfold ingest. frame. Qed.

Lemma keeps_fs_onMessage msg : keeps_fs (onMessage msg).
Proof. unfold onMessage. frame; apply keeps_fs_ingest. Qed.

Lemma keeps_fs_callback w ev : keeps_fs (callback w ev).
Proof.
  destruct ev; simpl.
  - apply keeps_fs_onMeta.
  - apply keeps_fs_forM, keeps_fs_onMember.
  - apply keeps_fs_forM, keeps_fs_onMessage.
  - by apply keeps_fs_modify.
Qed.

Lemma keeps_fs_parse w r : keeps_fs (parse w r).
Proof. unfold parse. frame. apply keeps_fs_callback. Qed.

Lemma keeps_fs_updateMemberNames : keeps_fs updateMemberNames.
Proof. unfold updateMemberNames. frame. Qed.

Lemma runs_ok_mret {A} (a : A) : runs_ok (mret a).
Proof. intros s Hs. by exists a, s. Qed.

Lemma runs_ok_gets {A} (f : ImportState -> A) : runs_ok (gets f).
Proof. intros s Hs. by exists (f s), s. Qed.

Lemma runs_ok_modify f : (forall s, st_fault (f s) = st_fault s) -> runs_ok (modify f).
Proof. intros Hf s Hs. exists tt, (f s). by rewrite Hf. Qed.

Lemma runs_ok_mbind {A B} (m : M ImportState A) (k : A -> M ImportState B) :
  runs_ok m -> (forall a, runs_ok (k a)) -> runs_ok (mbind m k).
Proof.
  intros Hm Hk s Hs. destruct (Hm s Hs) as (a & s1 & E & Hs1).
  destruct (Hk a s1 Hs1) as (b & s2 & E2 & Hs2).
  exists b, s2. unfold mbind. by rewrite E.
Qed.

Lemma runs_ok_storage : runs_ok storage.
Proof. intros s Hs. exists tt, s. unfold storage. by rewrite Hs. Qed.

Lemma runs_ok_run stmt : runs_ok (run stmt).
Proof.
  apply runs_ok_mbind; [apply runs_ok_storage|]. intros _. by apply runs_ok_modify.
Qed.

Lemma runs_ok_get {A} (q : Tables -> A) : runs_ok (get q).
Proof.
  apply runs_ok_mbind; [apply runs_ok_storage|]. intros _. apply runs_ok_gets.
Qed.

Lemma runs_ok_forM {A} (body : A -> M ImportState unit) l :
  (forall x, runs_ok (body x)) -> runs_ok (forM_ body l).
Proof.
  intros Hb. induction l as [|x l IH]; simpl.
  - apply runs_ok_mret.
  - apply runs_ok_mbind; auto.
Qed.

Ltac progress_ok :=
  repeat first
    [ apply runs_ok_run | apply runs_ok_get | apply runs_ok_gets | apply runs_ok_mret
    | apply runs_ok_storage
    | apply runs_ok_modify; intros ?; reflexivity
    | apply runs_ok_forM; intros ?
    | apply runs_ok_mbind; [|intros ?]
    | match goal with |- runs_ok (match ?x with _ => _ end) => destruct x end
    | match goal with |- runs_ok (let _ := _ in _) => cbv zeta end ].

Lemma runs_ok_onMeta w meta : runs_ok (onMeta w meta).
Proof. unfold onMeta. progress_ok. Qed.

Lemma runs_ok_onMember member : runs_ok (onMember member).
Proof. unfold onMember. progress_ok. Qed.

Lemma runs_ok_ingest pid sname ts ty c : runs_ok (ingest pid sname ts ty c).
Proof. unfold ingest. progress_ok. Qed.

Lemma runs_ok_onMessage msg : runs_ok (onMessage msg).
Proof. unfold onMessage. progress_ok; apply runs_ok_ingest. Qed.

Lemma runs_ok_callback w ev : runs_ok (callback w ev).
Proof.
  destruct ev; simpl.
  - apply runs_ok_onMeta.
  - apply runs_ok_forM, runs_ok_onMember.
  - apply runs_ok_forM, runs_ok_onMessage.
  - by apply runs_ok_modify.
Qed.

Lemma runs_ok_updateMemberNames : runs_ok updateMemberNames.
Proof. unfold updateMemberNames. progress_ok. Qed.

(** ** Member rows are never deleted *)

Lemma keeps_members_pure {A} (m : M ImportState A) :
  (forall s r s', m s = (r, s') -> st_db s' = st_db s) -> keeps_members m.
Proof. intros H s r s' p E. by rewrite (H _ _ _ E). Qed.

Lemma keeps_members_mbind {A B} (m : M ImportState A) (k : A -> M ImportState B) :
  keeps_members m -> (forall a, keeps_members (k a)) -> keeps_members (mbind m k).
Proof.
  intros Hm Hk s r s' p. unfold mbind. destruct (m s) as [[a|e|] s1] eqn:E; intros H Hp.
  - eapply Hk; eauto.
  - injection H as <- <-. eauto.
  - injection H as <- <-. eauto.
Qed.

Lemma keeps_members_storage : keeps_members storage.
Proof.
  apply keeps_members_pure. intros s r s'. unfold storage.
  destruct (st_fault s) as [[|n]|]; by intros [= <- <-].
Qed.

Lemma keeps_members_run stmt : stmt_keeps_members stmt -> keeps_members (run stmt).
Proof.
  intros Hs. apply keeps_members_mbind; [apply keeps_members_storage|]. intros _.
  intros s r s' p [= <- <-]. apply Hs.
Qed.

Lemma keeps_members_get {A} (q : Tables -> A) : keeps_members (get q).
Proof.
  apply keeps_members_mbind; [apply keeps_members_storage|]. intros _.
  apply keeps_members_pure. by intros s r s' [= <- <-].
Qed.

Lemma keeps_members_forM {A} (body : A -> M ImportState unit) l :
  (forall x, keeps_members (body x)) -> keeps_members (forM_ body l).
Proof.
  intros Hb. induction l as [|x l IH]; simpl.
  - apply keeps_members_pure. by intros s r s' [= <- <-].
  - apply keeps_members_mbind; auto.
Qed.

Lemma stmt_keeps_members_same stmt :
  (forall t, member (stmt t) = member t) -> stmt_keeps_members stmt.
Proof. intros H t p. by rewrite (getMemberId_same t (stmt t) p (H t)). Qed.

Lemma stmt_keeps_members_insertMember pid n nick :
  stmt_keeps_members (Sql.insertMember pid n nick).
Proof. intros t p [i Hi]. exists i. by apply getMemberId_insertMember_keep. Qed.

Lemma stmt_keeps_members_updateMemberName n pid :
  stmt_keeps_members (Sql.updateMemberName n pid).
Proof. intros t p. by rewrite getMemberId_updateMemberName. Qed.

Ltac members :=
  repeat first
    [ apply keeps_members_run;
      first [ apply stmt_keeps_members_insertMember
            | apply stmt_keeps_members_updateMemberName
            | apply stmt_keeps_members_same; reflexivity ]
    | apply keeps_members_get
    | apply keeps_members_storage
    | apply keeps_members_pure; intros ? ? ? [= <- <-]; reflexivity
    | apply keeps_members_forM; intros ?
    | apply keeps_members_mbind; [|intros ?]
    | match goal with |- keeps_members (match ?x with _ => _ end) => destruct x end
    | match goal with |- keeps_members (let _ := _ in _) => cbv zeta end ].

Lemma keeps_members_onMeta w meta : keeps_members (onMeta w meta).
Proof. unfold onMeta. members. Qed.

Lemma keeps_members_onMember member : keeps_members (onMember member).
Proof. unfold onMember. members. Qed.

Lemma keeps_members_ingest pid sname ts ty c : keeps_members (ingest pid sname ts ty c).
Proof. unfold ingest. members. Qed.

Lemma keeps_members_onMessage msg : keeps_members (onMessage msg).
Proof. unfold onMessage. members; apply keeps_members_ingest. Qed.

Lemma keeps_members_callback w ev : keeps_members (callback w ev).
Proof.
  destruct ev; simpl.
  - apply keeps_members_onMeta.
  - apply keeps_members_forM, keeps_members_onMember.
  - apply keeps_members_forM, keeps_members_onMessage.
  - apply keeps_members_pure. by intros s r s' [= <- <-].
Qed.

Lemma keeps_members_updateMemberNames : keeps_members updateMemberNames.
Proof. unfold updateMemberNames. members. Qed.

Lemma registered_keeps {A} (m : M ImportState A) ps s r s' :
  keeps_members m -> m s = (r, s') -> registered ps s -> registered ps s'.
Proof. intros Hm E H p Hp. eapply Hm; eauto. Qed.

Lemma onMembers_registers done members s s' :
  Inv done s -> onMembers members s = (Ok tt, s') ->
  registered (platformId <$> members) s'.
Proof.
  intros HI H.
  cut (Inv done s' /\ registered (platformId <$> ([] ++ members)) s'); [by intros [_ ?]|].
  apply (forM_inv_ok (fun acc s => Inv done s /\ registered (platformId <$> acc) s) onMember)
    with (s := s); [|by split; [|intros p ?%elem_of_nil]|done].
  intros acc x s2 s3 [HI2 Hreg] E. split; [by eapply onMember_inv|].
  rewrite fmap_app. intros p [Hp| ->%list_elem_of_singleton]%elem_of_app.
  - eapply keeps_members_onMember; eauto.
  - destruct (register_member_inv _ _ _ _ _ _ HI2 E) as [HI3 [i Hi]].
    exists i. by apply (inv_map _ _ HI3).
Qed.

Lemma run_members_snoc evs ev :
  run_members (evs ++ [ev]) =
  run_members evs ++ match ev with PMembers ms => platformId <$> ms | _ => [] end.
Proof.
  unfold run_members. rewrite omap_app, concat_app, fmap_app. f_equal.
  destruct ev; simpl; by rewrite ?app_nil_r.
Qed.

Lemma callbacks_register w evs s s' :
  Inv [] s -> forM_ (callback w) evs s = (Ok tt, s') -> registered (run_members evs) s'.
Proof.
  intros HI H.
  cut (Inv (run_messages ([] ++ evs)) s' /\ registered (run_members ([] ++ evs)) s');
    [by intros [_ ?]|].
  apply (forM_inv_ok
           (fun acc s => Inv (run_messages acc) s /\ registered (run_members acc) s)
           (callback w)) with (s := s); [|by split; [|intros p ?%elem_of_nil]|done].
  intros acc ev s2 s3 [HI2 Hreg] E. split.
  - rewrite run_messages_snoc. by eapply callback_inv.
  - rewrite run_members_snoc. intros p [Hp|Hp]%elem_of_app.
    + eapply keeps_members_callback; eauto.
    + destruct ev; try by apply elem_of_nil in Hp.
      simpl in E. by eapply onMembers_registers.
Qed.

(** ** The stages of [streamImport] *)

Lemma same_vars_refl s : same_vars s s.
Proof. by repeat split. Qed.

Lemma same_vars_trans s1 s2 s3 : same_vars s1 s2 -> same_vars s2 s3 -> same_vars s1 s3.
Proof.
  intros (?&?&?&?&?&?) (?&?&?&?&?&?). repeat split; congruence.
Qed.

Lemma Inv_same_vars done s s' : same_vars s s' -> Inv done s -> Inv done s'.
Proof.
  intros (E1&E2&E3&E4&E5&E6) HI. eapply Inv_db_same; eauto; by rewrite E1.
Qed.

Lemma same_vars_sendProgress_fold {A} (f : A -> ParseProgress) (l : list A) s :
  same_vars s (foldl (fun s p => sendProgress (f p) s) s l).
Proof.
  revert s. induction l as [|x l IH]; intros s; simpl; [apply same_vars_refl|].
  eapply same_vars_trans; [|apply IH]. by repeat split.
Qed.

Lemma preprocessStage_same_vars w filePath s r s' :
  preprocessStage w filePath s = (r, s') -> same_vars s s'.
Proof.
  unfold preprocessStage.
  destruct (getPreprocessor w filePath) as [pre|]; [|intros [= <- <-]; apply same_vars_refl].
  destruct (parser_needsPreprocess w filePath); [|intros [= <- <-]; apply same_vars_refl].
  unfold mbind at 1. simpl. unfold try_catch, mbind. simpl.
  destruct (preprocess pre filePath (st_fs s)) as [[[tmp|e|] fs'] ps] eqn:E; simpl;
    intros [= <- <-];
    (eapply same_vars_trans; [|apply same_vars_sendProgress_fold]); by repeat split.
Qed.


Section ImportStage.

Variable w : World.
Variables (filePath actual : string) (tmp : option string).

Local Abbreviation sid := (generateSessionId w).
Local Abbreviation dbPath := (getDbPath w (generateSessionId w)).
Local Abbreviation msgs := (run_messages (run_events (streamParseFile w actual 5000))).

Lemma createDatabase_fresh s1 :
  files (st_fs s1) !! dbPath = None ->
  createDatabase w sid s1 = (Ok tt, opened w s1).
Proof. intros H. unfold createDatabase. by rewrite H. Qed.

Lemma Inv_opened s1 :
  memberIdMap s1 = ∅ -> nicknameTracker s1 = ∅ -> st_console s1 = [] ->
  Inv [] (opened w s1).
Proof.
  intros E1 E2 E3. split; simpl; rewrite ?E1, ?E2, ?E3; try done.
  - split; simpl; constructor.
Qed.

Lemma transaction_ok s0 r s3 :
  Inv [] s0 ->
  transaction w actual s0 = (Ok r, s3) ->
  Inv msgs s3 /\ run_error (streamParseFile w actual 5000) = None /\
  r = {| success := true; sessionId := Some sid; error := None |} /\
  st_fs s3 = Fs.put dbPath (FDb (st_db s3)) (st_fs s0).
Proof.
  intros HI H. unfold transaction in H.
  apply mbind_inv_ok in H as ([] & s1 & H1 & H).
  pose proof (keeps_fs_parse _ _ _ _ _ H1) as F1.
  apply parse_inv in H1 as [HI1 Herr]; [|done].
  apply mbind_inv_ok in H as ([] & s2 & H2 & H).
  pose proof (keeps_fs_updateMemberNames _ _ _ H2) as F2.
  apply updateMemberNames_inv with (done := msgs) in H2; [|done].
  apply mbind_inv_ok in H as ([] & s2' & H3 & H).
  unfold commit in H3. apply mbind_inv_ok in H3 as ([] & s2'' & H3 & H4).
  apply storage_inv in H3 as [f ->]. inv_step H4. inv_step H.
  split; [|split; [done|split; [done|]]]; simpl.
  - eapply Inv_db_same; eauto.
  - by rewrite F2, F1.
Qed.

Lemma transaction_failed s0 r s3 :
  transaction w actual s0 = (r, s3) ->
  (forall res, r <> Ok res) -> st_fs s3 = st_fs s0.
Proof.
  intros H Hr. unfold transaction in H.
  unfold mbind at 1 in H.
  destruct (parse w _ s0) as [[[]|e|] s1] eqn:H1;
    [|injection H as <- <-; by eapply keeps_fs_parse..].
  apply keeps_fs_parse in H1. rewrite <- H1.
  unfold mbind at 1 in H.
  destruct (updateMemberNames s1) as [[[]|e|] s2] eqn:H2;
    [|injection H as <- <-; by eapply keeps_fs_updateMemberNames..].
  apply keeps_fs_updateMemberNames in H2. rewrite <- H2.
  unfold mbind at 1 in H. unfold commit in H. unfold mbind at 1 in H.
  destruct (storage s2) as [[[]|e|] s2'] eqn:H3;
    [|injection H as <- <-; by eapply keeps_fs_storage..].
  simpl in H. injection H as <- <-. by destruct (Hr _ eq_refl).
Qed.

Hypothesis cleanup_ok : forall pre, getPreprocessor w filePath = Some pre -> cleanup_safe pre.
Hypothesis tmp_not_store : tmp <> Some dbPath.

Lemma finallyBlock_ok s3 :
  exists s4, finallyBlock w filePath tmp s3 = (Ok tt, s4) /\
    same_vars s3 s4 /\
    locked (st_fs s4) = locked (st_fs s3) /\
    files (st_fs s4) !! dbPath = files (st_fs s3) !! dbPath /\
    forall q, tmp <> Some q -> files (st_fs s4) !! q = files (st_fs s3) !! q.
Proof.
  unfold finallyBlock.
  destruct tmp as [p|] eqn:Etmp; [|by exists s3; repeat split].
  destruct (getPreprocessor w filePath) as [pre|] eqn:Epre; [|by exists s3; repeat split].
  destruct (cleanup_ok pre eq_refl p (st_fs s3)) as (fs' & E & Hl & _ & Hq).
  exists (upd_fs (fun _ => fs') s3). unfold lift_fs. rewrite E.
  repeat split; simpl; try done.
  - apply Hq. congruence.
  - intros q Hne. apply Hq. congruence.
Qed.

Lemma onFailure_outcome s3 e t :
  files (st_fs s3) !! dbPath = Some (FDb t) ->
  ((dbPath ∉ locked (st_fs s3)) /\
   onFailure w e s3 = (Ok (failed e), upd_fs (Fs.remove dbPath) (upd_db (fun _ => t) s3))) \/
  ((dbPath ∈ locked (st_fs s3)) /\
   exists e', onFailure w e s3 = (Throw e', upd_db (fun _ => t) s3)).
Proof.
  intros Hf. unfold onFailure, rollback.
  unfold mbind, modify, gets, lift_fs, Fs.existsSync, Fs.unlinkSync. simpl.
  rewrite Hf. simpl. rewrite bool_decide_eq_true_2 by eauto.
  cbn [st_fs upd_db]. rewrite Hf.
  case_bool_decide as Hl; simpl.
  - right. split; [done|]. eexists. destruct s3 as [[] ?]. reflexivity.
  - left. split; [done|]. done.
Qed.

Lemma importStage_committed s1 r s3 :
  files (st_fs s1) !! dbPath = None ->
  Inv [] (opened w s1) ->
  transaction w actual (opened w s1) = (Ok r, s3) ->
  exists s4, importStage w filePath actual tmp s1 = (Ok r, s4) /\
    same_vars s3 s4 /\ committed w s4 = Some (st_db s3).
Proof.
  intros Hfresh HI H. destruct (finallyBlock_ok s3) as (s4 & Hfin & Hsame & _ & Hdb & _).
  exists s4. split; [|split; [done|]].
  - unfold importStage.  unfold mbind at 1. rewrite createDatabase_fresh by done.
    unfold try_finally, try_catch. rewrite H, Hfin. done.
  - apply transaction_ok in H as (_ & _ & _ & Hfs); [|done].
    unfold committed. rewrite Hdb, Hfs. simpl.
    by rewrite lookup_insert_eq.
Qed.


(** Whatever the outcome, the store of the import is absent, empty, or
    the tables of a state that satisfies the invariant. *)
Lemma importStage_store s1 r s4 t :
  files (st_fs s1) !! dbPath = None ->
  Inv [] (opened w s1) ->
  importStage w filePath actual tmp s1 = (r, s4) ->
  committed w s4 = Some t ->
  t = empty_tables \/
  exists s3, Inv msgs s3 /\ t = st_db s3 /\ same_vars s3 s4 /\
             r = Ok {| success := true; sessionId := Some sid; error := None |}.
Proof.
  intros Hfresh HI H Hc.
  destruct (transaction w actual (opened w s1)) as [[res|e|] s3] eqn:Ht.
  - destruct (importStage_committed _ _ _ Hfresh HI Ht) as (s4' & E & Hsame & Hc').
    rewrite H in E. injection E as -> ->. rewrite Hc in Hc'. injection Hc' as ->.
    right. exists s3. apply transaction_ok in Ht as (HI3 & _ & Hres & _); [|done].
    by rewrite Hres.
  - left.
    assert (st_fs s3 = Fs.put dbPath (FDb empty_tables) (st_fs s1)) as Hfs3.
    { by apply (transaction_failed _ _ _ Ht). }
    unfold importStage in H.  unfold mbind at 1 in H.
    rewrite createDatabase_fresh in H by done.
    unfold try_finally, try_catch in H. rewrite Ht in H.
    destruct (onFailure_outcome s3 e empty_tables) as [[_ Hon]|[_ [e' Hon]]].
    { rewrite Hfs3. simpl. by rewrite lookup_insert_eq. }
    + rewrite Hon in H.
      destruct (finallyBlock_ok (upd_fs (Fs.remove dbPath) (upd_db (fun _ => empty_tables) s3)))
        as (s4' & Hfin & _ & _ & Hdb & _).
      rewrite Hfin in H. injection H as <- <-.
      unfold committed in Hc.  rewrite Hdb in Hc.
      simpl in Hc. by rewrite lookup_delete_eq in Hc.
    + rewrite Hon in H.
      destruct (finallyBlock_ok (upd_db (fun _ => empty_tables) s3))
        as (s4' & Hfin & _ & _ & Hdb & _).
      rewrite Hfin in H. injection H as <- <-.
      unfold committed in Hc.  rewrite Hdb in Hc.
      simpl in Hc. rewrite Hfs3 in Hc. simpl in Hc. rewrite lookup_insert_eq in Hc. congruence.
  - left.
    assert (st_fs s3 = Fs.put dbPath (FDb empty_tables) (st_fs s1)) as Hfs3.
    { by apply (transaction_failed _ _ _ Ht). }
    unfold importStage in H.  unfold mbind at 1 in H.
    rewrite createDatabase_fresh in H by done.
    unfold try_finally, try_catch in H. rewrite Ht in H. injection H as <- <-.
    unfold committed in Hc. 
    rewrite Hfs3 in Hc. simpl in Hc. rewrite lookup_insert_eq in Hc. congruence.
Qed.

End ImportStage.

Lemma transaction_registers w actual s0 r s3 :
  Inv [] s0 ->
  transaction w actual s0 = (Ok r, s3) ->
  registered (run_members (run_events (streamParseFile w actual 5000))) s3.
Proof.
  intros HI H. unfold transaction in H.
  apply mbind_inv_ok in H as ([] & s1 & H1 & H).
  unfold parse in H1. apply mbind_inv_ok in H1 as ([] & s1' & H1 & H1').
  destruct (run_error _); [discriminate|]. inv_step H1'.
  apply callbacks_register in H1; [|done].
  apply mbind_inv_ok in H as ([] & s2 & H2 & H).
  apply (registered_keeps _ _ _ _ _ keeps_members_updateMemberNames H2) in H1.
  apply mbind_inv_ok in H as ([] & s2' & H3 & H).
  unfold commit in H3. apply mbind_inv_ok in H3 as ([] & s2'' & H3 & H4).
  apply storage_inv in H3 as [f ->]. inv_step H4. inv_step H. done.
Qed.




Lemma filter_fmap_absent {A B} `{EqDecision B} (f : A -> B) (l : list A) x :
  x ∉ f <$> l -> filter (fun r => f r = x) l = [].
Proof.
  induction l as [|b l IH]; [done|]. rewrite fmap_cons. intros H.
  rewrite filter_cons_False.
  - apply IH. intros ?. apply H. by right.
  - intros E. apply H. rewrite E. by left.
Qed.

Lemma NoDup_fmap_filter_length {A B} `{EqDecision B} (f : A -> B) (l : list A) x :
  NoDup (f <$> l) -> length (filter (fun r => f r = x) l) <= 1.
Proof.
  induction l as [|a l IH]; simpl; [lia|]. intros [Ha Hl]%NoDup_cons.
  destruct (decide (f a = x)) as [<-|Hne].
  - rewrite filter_cons_True by done. simpl.
    rewrite filter_fmap_absent by done. simpl. lia.
  - rewrite filter_cons_False by done. auto.
Qed.

Lemma members_of_registered pid t :
  members_ok t -> is_Some (Sql.getMemberId pid t) -> length (members_of pid t) = 1.
Proof.
  intros Hok [i (r & Hr & Hp & _)%getMemberId_Some].
  apply Nat.le_antisymm.
  - apply NoDup_fmap_filter_length, Hok.
  - assert (r ∈ members_of pid t) as Hin by by apply list_elem_of_filter.
    destruct (members_of pid t); [by apply elem_of_nil in Hin|simpl; lia].
Qed.

Section StartedFacts.

Variable w : World.
Variable fs : FS.
Variables (filePath actual : string) (tmp : option string).
Variable s1 : ImportState.
Hypothesis started : Started w fs filePath actual tmp s1.

Local Abbreviation sid := (generateSessionId w).
Local Abbreviation dbPath := (getDbPath w (generateSessionId w)).
Local Abbreviation msgs := (run_messages (run_events (streamParseFile w actual 5000))).

Lemma started_importStage :
  run_streamImport w fs filePath = importStage w filePath actual tmp s1.
Proof.
  destruct started as ([ff Hff] & Hpre & _).
  unfold run_streamImport, streamImport. rewrite Hff. unfold mbind. by rewrite Hpre.
Qed.

Lemma started_vars :
  memberIdMap s1 = ∅ /\ nicknameTracker s1 = ∅ /\ st_console s1 = [] /\
  st_fault s1 = storage_fault w.
Proof.
  destruct started as (_ & Hpre & _).
  apply preprocessStage_same_vars in Hpre as (_ & E2 & E3 & _ & E5 & E6).
  by rewrite E2, E3, E5, E6.
Qed.

Lemma started_Inv : Inv [] (opened w s1).
Proof. destruct started_vars as (? & ? & ? & _). by apply Inv_opened. Qed.

Lemma started_fresh : files (st_fs s1) !! dbPath = None.
Proof. by destruct started as (_ & _ & ? & _). Qed.

End StartedFacts.

(** The check of the code against the words of the specification. *)
Lemma is_valid_spec msg :
  is_valid msg = negb (spec_invalid msg) &&
                 negb (bool_decide (senderPlatformId msg = Some "")).
Proof.
  unfold is_valid, skip_reason, spec_invalid, truthy.
  destruct (senderPlatformId msg) as [p|]; [|done].
  case_bool_decide as Hp.
  - injection Hp as ->. simpl. by rewrite andb_false_r.
  - destruct (String.eqb_spec p "") as [->|_]; [done|]. simpl. rewrite andb_true_r.
    destruct (senderName msg) as [n|]; [|done]. destruct (n =? ""); [done|]. simpl.
    destruct (timestamp msg) as [[|z]|]; try done. simpl.
    by destruct (type msg).
Qed.

(** ** Properties of the import *)

Lemma parse_runs w r :
  run_error r = None -> runs_ok (parse w r).
Proof.
  intros Hr. unfold parse. rewrite Hr.
  apply runs_ok_mbind; [|intros; apply runs_ok_mret].
  apply runs_ok_forM. apply runs_ok_callback.
Qed.

Lemma transaction_runs w actual s0 :
  st_fault s0 = None ->
  run_error (streamParseFile w actual 5000) = None ->
  exists s3, transaction w actual s0 =
               (Ok {| success := true; sessionId := Some (generateSessionId w);
                      error := None |}, s3).
Proof.
  intros Hf Hr.
  assert (runs_ok (transaction w actual)) as H.
  { unfold transaction. apply runs_ok_mbind; [by apply parse_runs|intros _].
    apply runs_ok_mbind; [apply runs_ok_updateMemberNames|intros _].
    apply runs_ok_mbind; [|intros; apply runs_ok_mret].
    unfold commit. apply runs_ok_mbind; [apply runs_ok_storage|intros _].
    by apply runs_ok_modify. }
  destruct (H s0 Hf) as (r & s3 & E & _). exists s3. rewrite E. f_equal. f_equal.
  unfold transaction in E.
  repeat (apply mbind_inv_ok in E as (? & ? & _ & E)). by inv_step E.
Qed.

Section ImportProperties.

Variable w : World.
Variable fs : FS.
Variables (filePath actual : string) (tmp : option string).
Variable s1 : ImportState.
Hypothesis started : Started w fs filePath actual tmp s1.

Local Abbreviation sid := (generateSessionId w).
Local Abbreviation dbPath := (getDbPath w (generateSessionId w)).
Local Abbreviation msgs := (run_messages (run_events (streamParseFile w actual 5000))).

Lemma started_cleanup_ok :
  forall pre, getPreprocessor w filePath = Some pre -> cleanup_safe pre.
Proof. by destruct started as (_ & _ & _ & _ & ?). Qed.

Lemma started_tmp_not_store : tmp <> Some dbPath.
Proof. by destruct started as (_ & _ & _ & ? & _). Qed.


(** What a successful import has committed. *)
Lemma import_success r s' :
  run_streamImport w fs filePath = (Ok r, s') ->
  success r = true ->
  exists s3, Inv msgs s3 /\ committed w s' = Some (st_db s3) /\ same_vars s3 s' /\
             r = {| success := true; sessionId := Some sid; error := None |} /\
             registered (run_members (run_events (streamParseFile w actual 5000))) s3.
Proof.
  intros H Hr. rewrite (started_importStage _ _ _ _ _ _ started) in H.
  pose proof (started_fresh _ _ _ _ _ _ started) as Hfresh.
  pose proof (started_Inv _ _ _ _ _ _ started) as HI.
  destruct (transaction w actual (opened w s1)) as [[res|e|] s3] eqn:Ht.
  - destruct (importStage_committed w filePath actual tmp started_cleanup_ok started_tmp_not_store
                _ _ _ Hfresh HI Ht) as (s4 & E & Hsame & Hc).
    rewrite H in E. injection E as -> ->.
    pose proof (transaction_registers _ _ _ _ _ HI Ht) as Hreg.
    apply transaction_ok in Ht as (HI3 & _ & Hres & _); [|done]. eauto 10.
  - assert (st_fs s3 = Fs.put dbPath (FDb empty_tables) (st_fs s1)) as Hfs3.
    { by apply (transaction_failed _ _ _ _ _ Ht). }
    unfold importStage in H. unfold mbind at 1 in H.
    rewrite createDatabase_fresh in H by done.
    unfold try_finally, try_catch in H. rewrite Ht in H.
    destruct (onFailure_outcome w s3 e empty_tables) as [[_ Hon]|[_ [e' Hon]]].
    { rewrite Hfs3. simpl. by rewrite lookup_insert_eq. }
    + rewrite Hon in H.
      destruct (finallyBlock_ok w filePath tmp started_cleanup_ok started_tmp_not_store
                  (upd_fs (Fs.remove dbPath) (upd_db (fun _ => empty_tables) s3)))
        as (s4' & Hfin & _).
      rewrite Hfin in H. injection H as <- <-. done.
    + rewrite Hon in H.
      destruct (finallyBlock_ok w filePath tmp started_cleanup_ok started_tmp_not_store
                  (upd_db (fun _ => empty_tables) s3)) as (s4' & Hfin & _).
      rewrite Hfin in H. done.
  - unfold importStage in H. unfold mbind at 1 in H.
    rewrite createDatabase_fresh in H by done.
    unfold try_finally, try_catch in H. rewrite Ht in H. done.
Qed.

(** C3 (invalid records), as amended. The import keeps a message exactly
    when it is valid in the words of the specification and, moreover, its
    [senderPlatformId] is not the empty string. When no storage failure
    is injected and the parser ends without a structural error, the
    import reports success, its store holds one message row per kept
    message, and [console.warn] was called once per skipped message;
    the result has no field for the number of skipped messages and the
    state of the import has no counter of them. *)
Theorem streamImport_skips_invalid :
  storage_fault w = None ->
  run_error (streamParseFile w actual 5000) = None ->
  (forall m, is_valid m =
             negb (spec_invalid m) && negb (bool_decide (senderPlatformId m = Some ""))) /\
  exists s' t,
    run_streamImport w fs filePath =
      (Ok {| success := true; sessionId := Some sid; error := None |}, s') /\
    committed w s' = Some t /\
    length (message t) = length (filter (fun m => is_valid m) msgs) /\
    length (st_console s') = length (filter (fun m => negb (is_valid m)) msgs).
Proof.
  intros Hf Hr. split; [apply is_valid_spec|].
  destruct (started_vars _ _ _ _ _ _ started) as (_ & _ & _ & Hfault).
  destruct (transaction_runs w actual (opened w s1)) as [s3 Ht]; [simpl; congruence|done|].
  destruct (importStage_committed w filePath actual tmp started_cleanup_ok started_tmp_not_store
              _ _ _ (started_fresh _ _ _ _ _ _ started) (started_Inv _ _ _ _ _ _ started) Ht)
    as (s4 & E & Hsame & Hc).
  apply transaction_ok in Ht as (HI3 & _ & _ & _); [|by eapply started_Inv].
  exists s4, (st_db s3). rewrite (started_importStage _ _ _ _ _ _ started).
  split; [done|]. split; [done|]. destruct HI3. destruct Hsame as (_ & _ & _ & _ & Hcon & _).
  split; [done|]. by rewrite Hcon.
Qed.

(** C9 (member upsert idempotence). Whatever the parser delivers and
    however the import ends, a store that the import leaves behind holds
    at most one member row for any platform id. After a successful
    import, a platform id that occurs in a delivered member list or as
    the sender of a kept message, any number of times, has exactly one
    member row. *)
Theorem member_upsert_idempotent r s' t pid :
  run_streamImport w fs filePath = (r, s') ->
  committed w s' = Some t ->
  length (members_of pid t) <= 1 /\
  (forall res, r = Ok res -> success res = true ->
     pid ∈ run_members (run_events (streamParseFile w actual 5000)) \/
     observations pid msgs <> [] ->
     length (members_of pid t) = 1).
Proof.
  intros H Hc. split.
  - rewrite (started_importStage _ _ _ _ _ _ started) in H.
    destruct (importStage_store w filePath actual tmp started_cleanup_ok started_tmp_not_store
                _ _ _ _ (started_fresh _ _ _ _ _ _ started)
                (started_Inv _ _ _ _ _ _ started) H Hc) as [->|(s3 & HI & -> & _)].
    + simpl. lia.
    + destruct HI as [[Hp _ _] _ _ _ _ _ _ _]. by apply NoDup_fmap_filter_length.
  - intros res -> Hres Hpid.
    destruct (import_success _ _ H Hres) as (s3 & HI & Hc' & _ & _ & Hreg).
    rewrite Hc in Hc'. injection Hc' as ->.
    destruct HI as [Hm Hmap Hseen _ _ _ _ _].
    apply members_of_registered; [done|].
    destruct Hpid as [Hpid|Hpid]; [by apply Hreg|].
    destruct (Hseen pid Hpid) as [mid Hmid]. exists mid. by apply Hmap.
Qed.


End ImportProperties.

(** ** The preview *)

Lemma preview_memberSet_add_count {T} (x : T -> option string) l s :
  StreamParseFileInfo.messageCount
    (foldl (fun s m => StreamParseFileInfo.memberSet_add (x m) s) s l) =
  StreamParseFileInfo.messageCount s.
Proof. revert s. induction l as [|m l IH]; intros s; simpl; [done|]. by rewrite IH. Qed.

Lemma preview_callback_count ev s :
  StreamParseFileInfo.messageCount (StreamParseFileInfo.callback ev s) =
  StreamParseFileInfo.messageCount s + length (event_messages ev).
Proof.
  destruct ev; simpl; try lia.
  - unfold StreamParseFileInfo.onMembers.
    rewrite (preview_memberSet_add_count (fun m => Some (platformId m))). lia.
  - unfold StreamParseFileInfo.onMessageBatch.
    by rewrite (preview_memberSet_add_count senderPlatformId).
Qed.

Lemma preview_callbacks_count evs s :
  StreamParseFileInfo.messageCount
    (foldl (fun s ev => StreamParseFileInfo.callback ev s) s evs) =
  StreamParseFileInfo.messageCount s + length (run_messages evs).
Proof.
  revert s. induction evs as [|ev evs IH]; intros s; simpl; [unfold run_messages; simpl; lia|].
  rewrite IH, preview_callback_count.
  change (ev :: evs) with ([ev] ++ evs).
  unfold run_messages. rewrite omap_app, concat_app, length_app.
  destruct ev; simpl; rewrite ?app_nil_r; lia.
Qed.

Lemma preview_count w filePath info sent :
  StreamParseFileInfo.streamParseFileInfo w filePath = (Ok info, sent) ->
  exists size,
    statSize w filePath = Ok size /\
    info_messageCount info =
      length (run_messages
                (run_events (streamParseFile w filePath
                               (StreamParseFileInfo.batchSizeFor size)))).
Proof.
  unfold StreamParseFileInfo.streamParseFileInfo.
  destruct (detectFormat w filePath) as [ff|]; [|done].
  destruct (statSize w filePath) as [size|e|] eqn:Es; [|done..].
  destruct (run_error _); [done|]. intros [= <- _]. exists size. split; [done|]. simpl.
  by rewrite preview_callbacks_count.
Qed.

Lemma filter_length_all {A} (P : A -> Prop) `{forall x, Decision (P x)} (l : list A) :
  length (filter P l) = length l <-> Forall P l.
Proof.
  induction l as [|x l IH]; [by split; [constructor|]|].
  destruct (decide (P x)) as [Hx|Hx].
  - rewrite filter_cons_True by done. simpl. rewrite Forall_cons. split.
    + intros [= E]. split; [done|]. by apply IH.
    + intros [_ E]. f_equal. by apply IH.
  - rewrite filter_cons_False by done. simpl. rewrite Forall_cons. split.
    + intros E. pose proof (length_filter P l). lia.
    + by intros [? _].
Qed.

(** C2 (preview and import counts), as amended. The [messageCount] of
    the preview is the number of messages the parser delivers, kept or
    not. A successful import whose parser delivers the same messages
    commits one row per kept message, so the two counts agree exactly
    when every delivered message is kept. *)
Theorem preview_counts_delivered_messages w fs filePath actual tmp s1 info sent r s' :
  Started w fs filePath actual tmp s1 ->
  StreamParseFileInfo.streamParseFileInfo w filePath = (Ok info, sent) ->
  run_streamImport w fs filePath = (Ok r, s') ->
  success r = true ->
  (forall size, statSize w filePath = Ok size ->
     run_messages (run_events (streamParseFile w filePath
                                 (StreamParseFileInfo.batchSizeFor size))) =
     run_messages (run_events (streamParseFile w actual 5000))) ->
  let msgs := run_messages (run_events (streamParseFile w actual 5000)) in
  exists t,
    committed w s' = Some t /\
    info_messageCount info = length msgs /\
    length (message t) = length (filter (fun m => is_valid m) msgs) /\
    (length (message t) = info_messageCount info <-> Forall (fun m => is_valid m) msgs).
Proof.
  intros Hst Hprev Himp Hr Hsame msgs.
  destruct (preview_count _ _ _ _ Hprev) as (size & Hsize & Hcount).
  rewrite (Hsame _ Hsize) in Hcount. fold msgs in Hcount.
  destruct (import_success _ _ _ _ _ _ Hst _ _ Himp Hr) as (s3 & HI & Hc & _ & _).
  exists (st_db s3). split; [done|]. split; [done|].
  destruct HI as [_ _ _ _ _ _ Hmsg _]. split; [done|].
  rewrite Hmsg, Hcount. apply filter_length_all.
Qed.

(** ** Cleanup and failures of the preprocessor *)

(** C10 (cleanup never raises). [cleanupTempFile] returns normally for
    every path and every file system, be the file missing or its deletion
    refused. Hence, when the QQ preprocessor is the one at hand and the
    [try]/[catch] of [streamImport] has produced the result [r], the
    [finally] block leaves [r] as the result of the import and changes
    none of its variables. *)
Theorem cleanupTempFile_never_raises w os filePath actual tmp s1 s0 r s3 :
  getPreprocessor w filePath = Some (ShuakamiQq.qqPreprocessor os) ->
  createDatabase w (generateSessionId w) s1 = (Ok tt, s0) ->
  try_catch (transaction w actual) (onFailure w) s0 = (Ok r, s3) ->
  (forall p fs, exists fs', ShuakamiQq.cleanupTempFile os p fs = (Ok tt, fs')) /\
  exists s4, importStage w filePath actual tmp s1 = (Ok r, s4) /\ same_vars s3 s4.
Proof.
  intros Hpre Hdb Htry. split; [apply cleanupTempFile_total|].
  unfold importStage, mbind. rewrite Hdb. unfold try_finally. rewrite Htry.
  unfold finallyBlock. rewrite Hpre. destruct tmp as [p|].
  - simpl. unfold lift_fs.
    destruct (cleanupTempFile_total os p (st_fs s3)) as [fs' ->].
    eexists. split; [done|]. by repeat split.
  - simpl. eexists. split; [done|]. apply same_vars_refl.
Qed.


(** The errors of the preprocessor that have a listener: an error of
    the pipeline deletes the output and rejects; an error of the head
    stream rejects before anything is written. *)
Lemma pipeline_error_cleans_up os inputPath err v s :
  ShuakamiQq.uncaught s = None -> ShuakamiQq.pass s = Some v -> ShuakamiQq.pre_promise s = Hang ->
  ShuakamiQq.outputPath os inputPath ∉ locked (ShuakamiQq.pre_fs s) ->
  let s' := ShuakamiQq.handle os inputPath (PipelineError err) s in
  ShuakamiQq.pre_promise s' = Throw err /\
  files (ShuakamiQq.pre_fs s') !! ShuakamiQq.outputPath os inputPath = None /\
  ShuakamiQq.uncaught s' = None.
Proof.
  intros Hu Hp Hpr Hl s'. unfold s', ShuakamiQq.handle. rewrite Hu, Hp.
  unfold ShuakamiQq.on_pipeline_error. cbn [ShuakamiQq.pre_fs ShuakamiQq.set_pass].
  unfold Fs.existsSync. case_bool_decide as Hex.
  - destruct (unlinkSync_cases (ShuakamiQq.outputPath os inputPath) (ShuakamiQq.pre_fs s)) as [[e E]|(E & _ & _)].
    + exfalso. unfold Fs.unlinkSync in E. destruct Hex as [f Hf]. rewrite Hf in E.
      rewrite bool_decide_eq_false_2 in E by done. done.
    + rewrite E. simpl. rewrite Hpr. split; [done|]. split; [|done]. apply lookup_delete_eq.
  - simpl. rewrite Hpr. split; [done|]. split; [|done].
    by apply eq_None_not_Some.
Qed.

Lemma head_error_rejects os inputPath err s :
  ShuakamiQq.uncaught s = None -> ShuakamiQq.pre_promise s = Hang ->
  let s' := ShuakamiQq.handle os inputPath (HeadError err) s in
  ShuakamiQq.pre_promise s' = Throw err /\ ShuakamiQq.pre_fs s' = ShuakamiQq.pre_fs s.
Proof.
  intros Hu Hpr s'. unfold s', ShuakamiQq.handle. rewrite Hu.
  destruct (ShuakamiQq.pass s); simpl; by rewrite Hpr.
Qed.

Lemma streamImport_preprocess_failure w fs filePath pre err fs' ps :
  is_Some (detectFormat w filePath) ->
  getPreprocessor w filePath = Some pre ->
  parser_needsPreprocess w filePath = true ->
  preprocess pre filePath fs = (Throw err, fs', ps) ->
  exists s',
    run_streamImport w fs filePath = (Ok (failed ("预处理失败: " +:+ err)), s') /\
    st_fs s' = fs' /\ st_db s' = empty_tables.
Proof.
  intros [ff Hff] Hpre Hneed Hrun.
  unfold run_streamImport, streamImport. rewrite Hff.
  unfold mbind at 1. unfold preprocessStage. rewrite Hpre, Hneed.
  unfold mbind at 1. simpl. unfold try_catch, mbind. simpl. rewrite Hrun. simpl.
  eexists. split; [done|].
  match goal with |- context [foldl ?f ?s0 ps] =>
    pose proof (same_vars_sendProgress_fold
                  (fun p => {| stage := stage p; bytesRead := bytesRead p;
                               totalBytes := totalBytes p;
                               messagesProcessed := messagesProcessed p;
                               percentage := percentage p;
                               progress_message := or_str (progress_message p) "预处理中..." |})
                  ps s0) as (Hdb & _);
    assert (st_fs (foldl f s0 ps) = st_fs s0) as Hfs
  end.
  { clear. generalize (upd_fs (fun _ => fs')
      (sendProgress {| stage := SParsing; bytesRead := 0; totalBytes := 0;
                       messagesProcessed := 0; percentage := 0;
                       progress_message := "预处理：精简大文件中..." |}
         (init_state fs (storage_fault w)))).
    induction ps as [|p ps IH]; intros s; simpl; [done|]. by rewrite IH. }
  split; [by rewrite Hfs|]. by rewrite Hdb.
Qed.


(** ** What an import stores *)

Import Stored.

(** *** What one callback does to the state *)

Lemma register_member_effect s pid n nick s' :
  (exec run (Sql.insertMember pid n nick);
   do row <- get (Sql.getMemberId pid);
   match row with
   | Some id => modify (memberIdMap_set pid id)
   | None => mret tt
   end)%js s = (Ok tt, s') ->
  st_db s' = Sql.insertMember pid n nick (st_db s) /\
  st_console s' = st_console s /\ st_sent s' = st_sent s /\
  metaInserted s' = metaInserted s /\ nicknameTracker s' = nicknameTracker s.
Proof.
  intros H. inv_step H. inv_step H. simpl in H.
  destruct (Sql.getMemberId pid _); by inv_step H.
Qed.

Lemma insertMember_known pid n nick t i :
  Sql.getMemberId pid t = Some i -> Sql.insertMember pid n nick t = t.
Proof. unfold Sql.insertMember. by intros ->. Qed.

Lemma insertMember_tables pid n nick t :
  meta (Sql.insertMember pid n nick t) = meta t /\
  message (Sql.insertMember pid n nick t) = message t /\
  message_seq (Sql.insertMember pid n nick t) = message_seq t /\
  member_name_history (Sql.insertMember pid n nick t) = member_name_history t.
Proof. unfold Sql.insertMember. by destruct (Sql.getMemberId pid t). Qed.

Lemma ingest_effect done s pid sname ts ty c s' :
  Inv done s -> sname <> "" ->
  ingest pid sname ts ty c s = (Ok tt, s') ->
  exists i,
    Sql.getMemberId pid (st_db s') = Some i /\
    member (st_db s') = member (Sql.insertMember pid sname None (st_db s)) /\
    member_seq (st_db s') = member_seq (Sql.insertMember pid sname None (st_db s)) /\
    message (st_db s') =
      message (st_db s) ++ [{| msg_id := S (message_seq (st_db s)); msg_sender_id := i;
                               msg_ts := ts; msg_type := ty; msg_content := c |}] /\
    message_seq (st_db s') = S (message_seq (st_db s)) /\
    meta (st_db s') = meta (st_db s) /\
    st_console s' = st_console s /\ st_sent s' = st_sent s /\
    metaInserted s' = metaInserted s.
Proof.
  intros HI Hne H. unfold ingest in H.
  apply mbind_inv_ok in H as (known & s0 & H0 & H). inv_step H0.
  apply mbind_inv_ok in H as ([] & s1 & H1 & H).
  assert (Inv done s1 /\ is_Some (memberIdMap s1 !! pid) /\
          st_db s1 = Sql.insertMember pid sname None (st_db s0) /\
          st_console s1 = st_console s0 /\ st_sent s1 = st_sent s0 /\
          metaInserted s1 = metaInserted s0)
    as (HI1 & [i Hi] & Hdb & Hc & Hs & Hf).
  { destruct (bool_decide (is_Some (memberIdMap s0 !! pid))) eqn:Hk; simpl in H1.
    - inv_step H1. apply bool_decide_eq_true in Hk as [j Hj].
      split; [done|]. split; [eauto|]. split; [|done].
      symmetry. eapply insertMember_known, (inv_map _ _ HI), Hj.
    - cbv zeta in H1. rewrite or_str_l in H1 by done.
      destruct (register_member_inv _ _ _ _ _ _ HI H1) as [? ?].
      destruct (register_member_effect _ _ _ _ _ H1) as (? & ? & ? & ? & _). done. }
  apply mbind_inv_ok in H as (senderId & s2 & H2 & H).
  unfold gets in H2. injection H2 as <- <-.
  rewrite Hi in H. pose proof (inv_map _ _ HI1 _ _ Hi) as Hg.
  destruct (insertMember_tables pid sname None (st_db s0)) as (T1 & T2 & T3 & _).
  rewrite <- Hdb in T1, T2, T3.
  exists i. rewrite <- Hdb, <- Hc, <- Hs, <- Hf, <- T1, <- T2, <- T3.
  clear Hdb Hc Hs Hf HI T1 T2 T3.
  inv_step H. cbv zeta in H. inv_step H.
  revert H. destruct (nicknameTracker s1 !! pid) as [tr|]; intros H.
  - revert H. destruct (negb (currentName tr =? or_str sname pid)); intros H.
    + inv_step H. inv_step H. inv_step H. simpl. by repeat split.
    + inv_step H. simpl. by repeat split.
  - inv_step H. inv_step H. simpl. by repeat split.
Qed.

(** *** The stored rows through the callbacks *)

Lemma stored_as_members t t' r msg :
  (forall p i, Sql.getMemberId p t = Some i -> Sql.getMemberId p t' = Some i) ->
  stored_as t r msg -> stored_as t' r msg.
Proof. intros H (? & ? & ? & pid & ? & ?). repeat split; eauto. Qed.

Lemma MessageRows_same msgs t t' :
  message t' = message t -> message_seq t' = message_seq t ->
  (forall p i, Sql.getMemberId p t = Some i -> Sql.getMemberId p t' = Some i) ->
  MessageRows msgs t -> MessageRows msgs t'.
Proof.
  intros E1 E2 Hk [H1 H2 H3]. split; rewrite ?E1, ?E2; try done.
  eapply Forall2_impl; [exact H1|]. intros r m. by apply stored_as_members.
Qed.

Lemma MessageRows_skip msgs msg t :
  is_valid msg = false -> MessageRows msgs t -> MessageRows (msgs ++ [msg]) t.
Proof.
  intros Hv [H1 H2 H3]. split; try done.
  rewrite filter_app, filter_cons_False, app_nil_r; [done|].
  simpl. rewrite Hv. simpl. tauto.
Qed.

Lemma MessageRows_insert msgs msg t t' pid i ts ty :
  is_valid msg = true ->
  senderPlatformId msg = Some pid -> timestamp msg = Some (Num ts) -> type msg = Some ty ->
  Sql.getMemberId pid t' = Some i ->
  (forall p j, Sql.getMemberId p t = Some j -> Sql.getMemberId p t' = Some j) ->
  message t' = message t ++ [{| msg_id := S (message_seq t); msg_sender_id := i;
                                msg_ts := ts; msg_type := ty; msg_content := content msg |}] ->
  message_seq t' = S (message_seq t) ->
  MessageRows msgs t -> MessageRows (msgs ++ [msg]) t'.
Proof.
  intros Hv Hp Hts Hty Hi Hk E1 E2 [H1 H2 H3]. split; rewrite ?E1, ?E2.
  - rewrite filter_app, filter_cons_True by (simpl; by rewrite Hv).
    apply Forall2_app.
    + eapply Forall2_impl; [exact H1|]. intros r m. by apply stored_as_members.
    + constructor; [|constructor]. repeat split; simpl; eauto.
  - rewrite fmap_app, H2, length_app. simpl. rewrite H3.
    rewrite Nat.add_1_r, seq_S. done.
  - rewrite length_app. simpl. lia.
Qed.

Lemma first_mention_app_l pid l1 l2 x :
  first_mention pid l1 = Some x -> first_mention pid (l1 ++ l2) = Some x.
Proof. apply find_app_l. Qed.

Lemma first_mention_absent pid l :
  (forall x, x ∈ l -> mention_pid x <> pid) -> first_mention pid l = None.
Proof.
  unfold first_mention. induction l as [|y l IH]; intros H; simpl; [done|].
  destruct (String.eqb_spec (mention_pid y) pid) as [E|_].
  - exfalso. eapply H; [|exact E]. by left.
  - apply IH. intros x Hx. apply H. by right.
Qed.

Lemma MemberRows_same ments t t' :
  member t' = member t -> member_seq t' = member_seq t ->
  MemberRows ments t -> MemberRows ments t'.
Proof.
  intros E1 E2 [H1 H2 H3 H4]. split; rewrite ?E1, ?E2; try done.
  intros x Hx. rewrite (getMemberId_same t) by done. auto.
Qed.

Lemma MemberRows_insert ments t t' pid n nick :
  member t' = member (Sql.insertMember pid n nick t) ->
  member_seq t' = member_seq (Sql.insertMember pid n nick t) ->
  MemberRows ments t ->
  MemberRows (ments ++ [{| mention_pid := pid; mention_name := n; mention_nickname := nick |}]) t'.
Proof.
  intros E1 E2 HM. apply (MemberRows_same _ (Sql.insertMember pid n nick t)); [done..|].
  clear E1 E2 t'. destruct HM as [H1 H2 H3 H4].
  destruct (Sql.getMemberId pid t) as [i|] eqn:E.
  - rewrite (insertMember_known _ _ _ _ _ E). split; try done.
    + intros r Hr. by apply first_mention_app_l, H1.
    + intros x [Hx| ->%list_elem_of_singleton]%elem_of_app; [auto|]. simpl. eauto.
  - assert (forall x, x ∈ ments -> mention_pid x <> pid) as Hfresh.
    { intros x Hx%H2 Heq. rewrite Heq, E in Hx. by destruct Hx. }
    pose proof (first_mention_absent pid ments Hfresh) as Hnone.
    split.
    + unfold Sql.insertMember. rewrite E. simpl.
      intros r [Hr| ->%list_elem_of_singleton]%elem_of_app.
      * by apply first_mention_app_l, H1.
      * simpl. unfold first_mention in *. rewrite (find_app_r _ _ _ Hnone).
        simpl. by rewrite String.eqb_refl.
    + intros x [Hx| ->%list_elem_of_singleton]%elem_of_app.
      * destruct (H2 _ Hx) as [j Hj]. exists j. by apply getMemberId_insertMember_keep.
      * simpl. rewrite getMemberId_insertMember. eauto.
    + unfold Sql.insertMember. rewrite E. simpl.
      rewrite fmap_app, H3, length_app. simpl. rewrite H4.
      rewrite Nat.add_1_r, seq_S. done.
    + unfold Sql.insertMember. rewrite E. simpl. rewrite length_app. simpl. lia.
Qed.

Lemma Stored_db_same w base metas msgs ments progs s s' :
  Stored w base metas msgs ments progs s ->
  st_db s' = st_db s -> metaInserted s' = metaInserted s ->
  st_console s' = st_console s -> st_sent s' = st_sent s ->
  Stored w base metas msgs ments progs s'.
Proof. intros [H1 H2 H3 H4 H5 H6] E1 E2 E3 E4. split; rewrite ?E1, ?E2, ?E3, ?E4; done. Qed.

Lemma onMeta_stored w base metas msgs ments progs s meta s' :
  Stored w base metas msgs ments progs s -> onMeta w meta s = (Ok tt, s') ->
  Stored w base (metas ++ [meta]) msgs ments progs s'.
Proof.
  intros [H1 H2 H3 H4 H5 H6] H. unfold onMeta in H. inv_step H.
  revert H. rewrite H2. case_bool_decide as Hm; simpl; intros H.
  - inv_step H. destruct metas as [|m0 metas]; [done|]. by split.
  - assert (metas = []) as -> by (destruct metas; [done|]; by destruct Hm).
    inv_step H. inv_step H. split; simpl; try done.
    + by rewrite H1.
    + apply (MessageRows_same _ (st_db s0)); [done..| |done].
      intros p i Hi. by rewrite (getMemberId_same (st_db s0)).
    + by apply (MemberRows_same _ (st_db s0)).
Qed.

Lemma register_stored w base metas msgs ments progs s pid n nick s' :
  Stored w base metas msgs ments progs s ->
  (exec run (Sql.insertMember pid n nick);
   do row <- get (Sql.getMemberId pid);
   match row with
   | Some id => modify (memberIdMap_set pid id)
   | None => mret tt
   end)%js s = (Ok tt, s') ->
  Stored w base metas msgs
    (ments ++ [{| mention_pid := pid; mention_name := n; mention_nickname := nick |}]) progs s'.
Proof.
  intros [H1 H2 H3 H4 H5 H6] H.
  destruct (register_member_effect _ _ _ _ _ H) as (Hdb & Hc & Hs & Hf & _).
  destruct (insertMember_tables pid n nick (st_db s)) as (T1 & T2 & T3 & _).
  split; rewrite ?Hdb, ?Hc, ?Hs, ?Hf, ?T1; try done.
  - apply (MessageRows_same _ (st_db s)); [done..| |done].
    intros p i. apply getMemberId_insertMember_keep.
  - by eapply MemberRows_insert.
Qed.

Lemma omap_snoc {A B} (f : A -> option B) l x :
  omap f (l ++ [x]) = omap f l ++ match f x with Some y => [y] | None => [] end.
Proof. rewrite omap_app. simpl. by destruct (f x). Qed.

Lemma onMessage_stored w base metas done ments progs s msg s' :
  Inv done s ->
  Stored w base metas done ments progs s -> onMessage msg s = (Ok tt, s') ->
  Stored w base metas (done ++ [msg])
    (ments ++ match sender_mention msg with Some x => [x] | None => [] end) progs s'.
Proof.
  intros HI [H1 H2 H3 H4 H5 H6] H. unfold onMessage in H.
  destruct (skip_reason msg) as [line|] eqn:Hskip.
  - inv_step H.
    assert (is_valid msg = false) as Hv by (unfold is_valid; by rewrite Hskip).
    unfold sender_mention. rewrite Hv, app_nil_r. split; simpl; try done.
    + by rewrite omap_snoc, Hskip, H3.
    + by apply MessageRows_skip.
  - assert (is_valid msg = true) as Hv by (unfold is_valid; by rewrite Hskip).
    destruct (skip_reason_None _ Hskip) as (pid & sname & ts & ty & E1 & E2 & E3 & E4 & _ & Hn).
    rewrite E1, E2, E3, E4 in H.
    destruct (ingest_effect _ _ _ _ _ _ _ _ HI Hn H)
      as (i & Hi & Hmem & Hseq & Hmsg & Hmseq & Hmeta & Hc & Hs & Hf).
    unfold sender_mention. rewrite Hv, E1, E2, or_str_l by done.
    assert (forall p j, Sql.getMemberId p (st_db s) = Some j ->
                        Sql.getMemberId p (st_db s') = Some j) as Hk.
    { intros p j Hj. rewrite (getMemberId_same _ _ _ Hmem).
      by apply getMemberId_insertMember_keep. }
    split; rewrite ?Hmeta, ?Hc, ?Hs, ?Hf; try done.
    + by rewrite omap_snoc, Hskip, app_nil_r.
    + eapply MessageRows_insert; eauto.
    + by eapply MemberRows_insert.
Qed.

Lemma run_metas_snoc evs ev :
  run_metas (evs ++ [ev]) =
  run_metas evs ++ match ev with PMeta m => [m] | _ => [] end.
Proof. unfold run_metas. rewrite omap_snoc. by destruct ev. Qed.

Lemma run_progress_snoc evs ev :
  run_progress (evs ++ [ev]) =
  run_progress evs ++ match ev with PProgress p => [p] | _ => [] end.
Proof. unfold run_progress. rewrite omap_snoc. by destruct ev. Qed.

Lemma mentions_snoc evs ev : mentions (evs ++ [ev]) = mentions evs ++ event_mentions ev.
Proof. unfold mentions. rewrite fmap_app, concat_app. simpl. by rewrite app_nil_r. Qed.

Lemma callback_stored w base acc s ev s' :
  Inv (run_messages acc) s ->
  Stored w base (run_metas acc) (run_messages acc) (mentions acc) (run_progress acc) s ->
  callback w ev s = (Ok tt, s') ->
  Stored w base (run_metas (acc ++ [ev])) (run_messages (acc ++ [ev]))
    (mentions (acc ++ [ev])) (run_progress (acc ++ [ev])) s'.
Proof.
  intros HI HS H.
  rewrite run_metas_snoc, run_messages_snoc, mentions_snoc, run_progress_snoc.
  destruct ev as [meta|members|messages|p]; simpl in *; rewrite ?app_nil_r.
  - by eapply onMeta_stored.
  - cut (Inv (run_messages acc) s' /\
         Stored w base (run_metas acc) (run_messages acc)
           (mentions acc ++ (member_mention <$> ([] ++ members))) (run_progress acc) s');
      [by intros [_ ?]|].
    apply (forM_inv_ok
             (fun pre s => Inv (run_messages acc) s /\
                Stored w base (run_metas acc) (run_messages acc)
                  (mentions acc ++ (member_mention <$> pre)) (run_progress acc) s)
             onMember) with (s := s); [|by rewrite app_nil_r|done].
    intros pre m s1 s2 [HI1 HS1] E. split; [by eapply onMember_inv|].
    rewrite fmap_app, app_assoc. by eapply register_stored.
  - cut (Inv (run_messages acc ++ ([] ++ messages)) s' /\
         Stored w base (run_metas acc) (run_messages acc ++ ([] ++ messages))
           (mentions acc ++ omap sender_mention ([] ++ messages)) (run_progress acc) s');
      [by intros [_ ?]|].
    apply (forM_inv_ok
             (fun pre s => Inv (run_messages acc ++ pre) s /\
                Stored w base (run_metas acc) (run_messages acc ++ pre)
                  (mentions acc ++ omap sender_mention pre) (run_progress acc) s)
             onMessage) with (s := s); [|by rewrite !app_nil_r|done].
    intros pre m s1 s2 [HI1 HS1] E. rewrite !app_assoc. split; [by eapply onMessage_inv|].
    rewrite omap_snoc, app_assoc. by eapply onMessage_stored.
  - inv_step H. destruct HS as [H1 H2 H3 H4 H5 H6]. split; simpl; try done.
    by rewrite H4, app_assoc.
Qed.

Lemma callbacks_stored w base evs s s' :
  Inv [] s -> Stored w base [] [] [] [] s ->
  forM_ (callback w) evs s = (Ok tt, s') ->
  Inv (run_messages evs) s' /\
  Stored w base (run_metas evs) (run_messages evs) (mentions evs) (run_progress evs) s'.
Proof.
  intros HI HS H.
  apply (forM_inv_ok
           (fun acc s => Inv (run_messages acc) s /\
              Stored w base (run_metas acc) (run_messages acc) (mentions acc)
                (run_progress acc) s)
           (callback w)) with (l := evs) (acc := []) (s := s); [|done|done].
  intros acc ev s1 s2 [H1 H2] E. split.
  - rewrite run_messages_snoc. by eapply callback_inv.
  - by eapply callback_stored.
Qed.

(** *** The final loop over the trackers *)

Lemma rename_loop l s s' :
  forM_ (fun '(pid, tracker) => run (Sql.updateMemberName (currentName tracker) pid)) l s
    = (Ok tt, s') ->
  member (st_db s') =
    (fun r => foldl (fun r '(pid, tr) => Sql.set_member_name (currentName tr) pid r) r l)
      <$> member (st_db s) /\
  meta (st_db s') = meta (st_db s) /\ message (st_db s') = message (st_db s) /\
  member_name_history (st_db s') = member_name_history (st_db s) /\
  st_console s' = st_console s /\ st_sent s' = st_sent s /\
  nicknameTracker s' = nicknameTracker s.
Proof.
  revert s. induction l as [|[pid tr] l IH]; intros s H; simpl in H.
  - inv_step H. by rewrite list_fmap_id.
  - apply mbind_inv_ok in H as ([] & s1 & H1 & H). inv_step H1.
    destruct (IH _ H) as (E1 & E2 & E3 & E4 & E5 & E6 & E7).
    rewrite E1, E2, E3, E4, E5, E6, E7. simpl. split; [|done].
    by rewrite <- list_fmap_compose.
Qed.

Lemma rename_fold (l : list (string * Tracker)) r :
  NoDup l.*1 ->
  foldl (fun r '(pid, tr) => Sql.set_member_name (currentName tr) pid r) r l =
  rename_row (list_to_map l) r.
Proof.
  revert r. induction l as [|[p tr] l IH]; intros r Hnd; simpl.
  - unfold rename_row. by rewrite lookup_empty.
  - apply NoDup_cons in Hnd as [Hp Hnd]. rewrite IH by done.
    unfold Sql.set_member_name, rename_row.
    destruct (String.eqb_spec (m_platform_id r) p) as [->|Hne]; simpl.
    + rewrite lookup_insert_eq. by rewrite (not_elem_of_list_to_map_1 _ _ Hp).
    + by rewrite lookup_insert_ne.
Qed.

Lemma updateMemberNames_effect s s' :
  updateMemberNames s = (Ok tt, s') ->
  member (st_db s') = rename_row (nicknameTracker s) <$> member (st_db s) /\
  meta (st_db s') = meta (st_db s) /\ message (st_db s') = message (st_db s) /\
  member_name_history (st_db s') = member_name_history (st_db s) /\
  st_console s' = st_console s /\ st_sent s' = st_sent s.
Proof.
  intros H. unfold updateMemberNames in H.
  apply mbind_inv_ok in H as (trackers & s0 & H0 & H).
  unfold gets in H0. injection H0 as <- <-.
  destruct (rename_loop _ _ _ H) as (E1 & E2 & E3 & E4 & E5 & E6 & _).
  split; [|done]. rewrite E1. apply list_fmap_ext. intros _ r _.
  rewrite rename_fold by apply NoDup_fst_map_to_list.
  by rewrite list_to_map_to_list.
Qed.

Lemma rename_row_fields trk r :
  m_id (rename_row trk r) = m_id r /\
  m_platform_id (rename_row trk r) = m_platform_id r /\
  m_nickname (rename_row trk r) = m_nickname r.
Proof. unfold rename_row. by destruct (trk !! m_platform_id r). Qed.

Lemma getMemberId_rename trk t t' p :
  member t' = rename_row trk <$> member t -> Sql.getMemberId p t' = Sql.getMemberId p t.
Proof.
  unfold Sql.getMemberId. intros ->. induction (member t) as [|r l IH]; [done|].
  rewrite fmap_cons. simpl. destruct (rename_row_fields trk r) as (E1 & E2 & _).
  rewrite E2. destruct (m_platform_id r =? p); simpl; [by rewrite E1|done].
Qed.

(** *** The stored rows at the end of the transaction *)

Lemma transaction_stored w base actual s0 r s3 :
  Inv [] s0 -> Stored w base [] [] [] [] s0 ->
  transaction w actual s0 = (Ok r, s3) ->
  exists s2,
    Inv (run_messages (run_events (streamParseFile w actual 5000))) s2 /\
    Stored w base (run_metas (run_events (streamParseFile w actual 5000)))
      (run_messages (run_events (streamParseFile w actual 5000)))
      (mentions (run_events (streamParseFile w actual 5000)))
      (run_progress (run_events (streamParseFile w actual 5000))) s2 /\
    member (st_db s3) = rename_row (nicknameTracker s2) <$> member (st_db s2) /\
    meta (st_db s3) = meta (st_db s2) /\ message (st_db s3) = message (st_db s2) /\
    member_name_history (st_db s3) = member_name_history (st_db s2) /\
    st_console s3 = st_console s2 /\ st_sent s3 = st_sent s2.
Proof.
  intros HI HS H. unfold transaction in H.
  apply mbind_inv_ok in H as ([] & s1 & H1 & H).
  unfold parse in H1. apply mbind_inv_ok in H1 as ([] & s1' & H1 & H1').
  destruct (run_error _); [discriminate|]. inv_step H1'.
  destruct (callbacks_stored _ _ _ _ _ HI HS H1) as [HI2 HS2].
  apply mbind_inv_ok in H as ([] & s2 & H2 & H).
  destruct (updateMemberNames_effect _ _ H2) as (E1 & E2 & E3 & E4 & E5 & E6).
  apply mbind_inv_ok in H as ([] & s2' & H3 & H).
  unfold commit in H3. apply mbind_inv_ok in H3 as ([] & s2'' & H3 & H4).
  apply storage_inv in H3 as [f ->]. inv_step H4. inv_step H.
  exists s1. split; [done|]. split; [done|]. simpl. by repeat split.
Qed.

Lemma finallyBlock_sent w filePath tmp s r s' :
  finallyBlock w filePath tmp s = (r, s') -> st_sent s' = st_sent s.
Proof.
  unfold finallyBlock. destruct tmp as [p|]; [|by intros [= <- <-]].
  destruct (getPreprocessor w filePath) as [pre|]; [|by intros [= <- <-]].
  unfold lift_fs. destruct (cleanup pre p (st_fs s)). by intros [= <- <-].
Qed.

Section StoredByImport.

Variable w : World.
Variable fs : FS.
Variables (filePath actual : string) (tmp : option string).
Variable s1 : ImportState.
Hypothesis started : Started w fs filePath actual tmp s1.

Local Abbreviation evs := (run_events (streamParseFile w actual 5000)).
Local Abbreviation msgs := (run_messages (run_events (streamParseFile w actual 5000))).

Lemma started_Stored : Stored w (st_sent s1) [] [] [] [] (opened w s1).
Proof.
  destruct started as (_ & Hpre & _).
  apply preprocessStage_same_vars in Hpre as (_ & _ & _ & E4 & E5 & _).
  split; simpl; rewrite ?E4, ?E5, ?app_nil_r; try done.
  split; simpl; try done; intros x Hx; by apply elem_of_nil in Hx.
Qed.

(** What a successful import has run through. *)
Lemma import_success_trace r s' :
  run_streamImport w fs filePath = (Ok r, s') ->
  success r = true ->
  exists s3, transaction w actual (opened w s1) = (Ok r, s3) /\
             committed w s' = Some (st_db s3) /\
             st_console s' = st_console s3 /\ st_sent s' = st_sent s3 /\
             finallyBlock w filePath tmp s3 = (Ok tt, s').
Proof.
  intros H Hr. rewrite (started_importStage _ _ _ _ _ _ started) in H.
  pose proof (started_fresh _ _ _ _ _ _ started) as Hfresh.
  pose proof (started_Inv _ _ _ _ _ _ started) as HI.
  assert (forall pre, getPreprocessor w filePath = Some pre -> cleanup_safe pre) as Hclean
    by by destruct started as (_ & _ & _ & _ & ?).
  assert (tmp <> Some (getDbPath w (generateSessionId w))) as Htmp
    by by destruct started as (_ & _ & _ & ? & _).
  destruct (transaction w actual (opened w s1)) as [[res|e|] s3] eqn:Ht.
  - destruct (importStage_committed w filePath actual tmp Hclean Htmp _ _ _ Hfresh HI Ht)
      as (s4 & E & Hsame & Hc).
    rewrite H in E. injection E as -> ->.
    exists s3. split; [done|]. split; [done|].
    destruct Hsame as (_ & _ & _ & _ & Hcon & _). split; [done|].
    unfold importStage in H. unfold mbind at 1 in H.
    rewrite createDatabase_fresh in H by done.
    unfold try_finally, try_catch in H. rewrite Ht in H.
    destruct (finallyBlock w filePath tmp s3) as [[[]|e|] s5] eqn:Hfin;
      [injection H as <-|discriminate H..]. split; [|done]. by eapply finallyBlock_sent.
  - assert (st_fs s3 = Fs.put (getDbPath w (generateSessionId w)) (FDb empty_tables) (st_fs s1))
      as Hfs3.
    { by apply (transaction_failed _ _ _ _ _ Ht). }
    unfold importStage in H. unfold mbind at 1 in H.
    rewrite createDatabase_fresh in H by done.
    unfold try_finally, try_catch in H. rewrite Ht in H.
    destruct (onFailure_outcome w s3 e empty_tables) as [[_ Hon]|[_ [e' Hon]]].
    { rewrite Hfs3. simpl. by rewrite lookup_insert_eq. }
    + rewrite Hon in H.
      destruct (finallyBlock_ok w filePath tmp Hclean Htmp
                  (upd_fs (Fs.remove (getDbPath w (generateSessionId w)))
                     (upd_db (fun _ => empty_tables) s3)))
        as (s4' & Hfin & _).
      rewrite Hfin in H. injection H as <- <-. done.
    + rewrite Hon in H.
      destruct (finallyBlock_ok w filePath tmp Hclean Htmp
                  (upd_db (fun _ => empty_tables) s3)) as (s4' & Hfin & _).
      rewrite Hfin in H. done.
  - unfold importStage in H. unfold mbind at 1 in H.
    rewrite createDatabase_fresh in H by done.
    unfold try_finally, try_catch in H. rewrite Ht in H. done.
Qed.

(** What a successful import has stored. *)
Lemma import_stored r s' :
  run_streamImport w fs filePath = (Ok r, s') ->
  success r = true ->
  exists s2 t,
    committed w s' = Some t /\
    Inv msgs s2 /\
    Stored w (st_sent s1) (run_metas evs) msgs (mentions evs) (run_progress evs) s2 /\
    member t = rename_row (nicknameTracker s2) <$> member (st_db s2) /\
    meta t = meta (st_db s2) /\ message t = message (st_db s2) /\
    member_name_history t = member_name_history (st_db s2) /\
    st_console s' = st_console s2 /\ st_sent s' = st_sent s2.
Proof.
  intros H Hr. destruct (import_success_trace _ _ H Hr) as (s3 & Ht & Hc & Hcon & Hsent & _).
  destruct (transaction_stored _ _ _ _ _ _ (started_Inv _ _ _ _ _ _ started) started_Stored Ht)
    as (s2 & HI & HS & E1 & E2 & E3 & E4 & E5 & E6).
  exists s2, (st_db s3). rewrite Hcon, Hsent.
  split; [done|]. split; [done|]. split; [done|]. by repeat split.
Qed.

End StoredByImport.

Section StoredTheorems.

Variable w : World.
Variable fs : FS.
Variables (filePath actual : string) (tmp : option string).
Variable s1 : ImportState.
Hypothesis started : Started w fs filePath actual tmp s1.

Local Abbreviation evs := (run_events (streamParseFile w actual 5000)).
Local Abbreviation msgs := (run_messages (run_events (streamParseFile w actual 5000))).
Local Abbreviation dbPath := (getDbPath w (generateSessionId w)).

(** X1 (message rows). After a successful import the message table
    holds, in rowid order, one row for every message the import keeps, in
    the order of delivery: the row has the timestamp, the type and the
    content of the message, its sender id is the id of the member row of
    the sender's platform id, and the row ids are 1, 2, ... *)
Theorem import_stores_kept_messages r s' :
  run_streamImport w fs filePath = (Ok r, s') ->
  success r = true ->
  exists t,
    committed w s' = Some t /\
    Forall2 (stored_as t) (message t) (filter (fun m => is_valid m) msgs) /\
    msg_id <$> message t = seq 1 (length (message t)).
Proof.
  intros H Hr.
  destruct (import_stored w fs filePath actual tmp s1 started _ _ H Hr)
    as (s2 & t & Hc & HI & HS & E1 & E2 & E3 & E4 & _).
  exists t. split; [done|]. destruct HS as [_ _ _ _ [M1 M2 M3] _]. rewrite E3.
  split; [|done]. eapply Forall2_impl; [exact M1|].
  intros mr msg. apply stored_as_members. intros p i Hp.
  by rewrite (getMemberId_rename _ _ _ _ E1).
Qed.


(** X3 (references between the tables). After a successful import every
    message row and every name history row refers to the id of a member
    row, although SQLite does not enforce the foreign keys of the schema;
    and a member has name history rows only if it sent a kept message. *)
Theorem import_keeps_references r s' :
  run_streamImport w fs filePath = (Ok r, s') ->
  success r = true ->
  exists t,
    committed w s' = Some t /\
    (forall mr, mr ∈ message t ->
       exists row, row ∈ member t /\ m_id row = msg_sender_id mr) /\
    (forall h, h ∈ member_name_history t ->
       exists row, row ∈ member t /\ m_id row = h_member_id h /\
                   observations (m_platform_id row) msgs <> []).
Proof.
  intros H Hr.
  destruct (import_stored w fs filePath actual tmp s1 started _ _ H Hr)
    as (s2 & t & Hc & HI & HS & E1 & E2 & E3 & E4 & _).
  exists t. split; [done|].
  assert (forall p i, Sql.getMemberId p (st_db s2) = Some i ->
            exists row, row ∈ member t /\ m_id row = i /\ m_platform_id row = p) as Hrow.
  { intros p i Hp. rewrite <- (getMemberId_rename _ _ t _ E1) in Hp.
    apply getMemberId_Some in Hp as (row & ? & ? & ?). eauto. }
  split.
  - intros mr Hmr. rewrite E3 in Hmr. destruct HS as [_ _ _ _ [M1 _ _] _].
    apply list_elem_of_lookup in Hmr as [k Hk].
    destruct (Forall2_lookup_l _ _ _ _ _ M1 Hk) as (msg & _ & _ & _ & _ & pid & _ & Hg).
    destruct (Hrow _ _ Hg) as (row & ? & ? & _). eauto.
  - intros h Hh. rewrite E4 in Hh.
    pose proof (inv_owner _ _ HI) as Hown. rewrite Forall_forall in Hown.
    destruct (Hown _ Hh) as [p Hp].
    destruct (Hrow _ _ (inv_map _ _ HI _ _ Hp)) as (row & Hin & Hid & Hpid).
    exists row. split; [done|]. split; [done|]. rewrite Hpid. intros Hobs.
    pose proof (inv_history _ _ HI _ _ Hp) as Hl. rewrite Hobs in Hl.
    apply fmap_nil_inv in Hl.
    assert (h ∈ rows_of (h_member_id h) (st_db s2)) as Hmem
      by by apply list_elem_of_filter.
    rewrite Hl in Hmem. by apply elem_of_nil in Hmem.
Qed.

(** X4 (metadata). After a successful import the meta table holds the
    first metadata the parser delivered, stamped with the time of the
    import in seconds, and nothing of any later delivery; it is empty
    when the parser delivered none. *)
Theorem import_stores_first_meta r s' :
  run_streamImport w fs filePath = (Ok r, s') ->
  success r = true ->
  exists t, committed w s' = Some t /\ meta t = meta_row w <$> take 1 (run_metas evs).
Proof.
  intros H Hr.
  destruct (import_stored w fs filePath actual tmp s1 started _ _ H Hr)
    as (s2 & t & Hc & HI & HS & E1 & E2 & _).
  exists t. split; [done|]. rewrite E2. by destruct HS.
Qed.

(** X5 (warnings). A successful import has called [console.warn] once
    for every message it skipped, in the order of delivery, and for
    nothing else: the line names the first check the message failed
    (sender, then timestamp, then type). *)
Theorem import_warns_per_skipped_message r s' :
  run_streamImport w fs filePath = (Ok r, s') ->
  success r = true ->
  st_console s' = omap skip_reason msgs.
Proof.
  intros H Hr.
  destruct (import_stored w fs filePath actual tmp s1 started _ _ H Hr)
    as (s2 & t & Hc & HI & HS & _ & _ & _ & _ & E5 & _).
  rewrite E5. by destruct HS.
Qed.

(** X6 (progress). A successful import has posted to the parent port what
    was posted before the store was created, followed by every progress
    event of the parser, unchanged and in order. *)
Theorem import_forwards_progress r s' :
  run_streamImport w fs filePath = (Ok r, s') ->
  success r = true ->
  st_sent s' = st_sent s1 ++ run_progress evs.
Proof.
  intros H Hr.
  destruct (import_stored w fs filePath actual tmp s1 started _ _ H Hr)
    as (s2 & t & Hc & HI & HS & _ & _ & _ & _ & _ & E6).
  rewrite E6. by destruct HS.
Qed.

(** X7 (other files). A successful import has changed no file other than
    its store and the temp file of the preprocessor. *)
Theorem import_success_touches_no_other_file r s' :
  run_streamImport w fs filePath = (Ok r, s') ->
  success r = true ->
  locked (st_fs s') = locked (st_fs s1) /\
  forall q, q <> dbPath -> tmp <> Some q -> files (st_fs s') !! q = files (st_fs s1) !! q.
Proof.
  intros H Hr.
  destruct (import_success_trace w fs filePath actual tmp s1 started _ _ H Hr)
    as (s3 & Ht & _ & _ & _ & Hfin).
  assert (forall pre, getPreprocessor w filePath = Some pre -> cleanup_safe pre) as Hclean
    by by destruct started as (_ & _ & _ & _ & ?).
  assert (tmp <> Some dbPath) as Htmp by by destruct started as (_ & _ & _ & ? & _).
  destruct (finallyBlock_ok w filePath tmp Hclean Htmp s3) as (s4 & E & _ & Hl & _ & Hq).
  rewrite Hfin in E. injection E as <-.
  apply transaction_ok in Ht as (_ & _ & _ & Hfs); [|by eapply started_Inv].
  rewrite Hl, Hfs. split; [done|]. intros q Hq1 Hq2.
  rewrite Hq, Hfs by done. simpl. by rewrite !lookup_insert_ne.
Qed.

End StoredTheorems.

(** ** Runs of the preprocessor *)

Import QqStreams.

(** *** Strings and paths *)

Lemma prefix_append_l (a b : string) : String.prefix a (a +:+ b) = true.
Proof.
  induction a as [|c a IH]; simpl; [by destruct b|].
  destruct (ascii_dec c c); [done|congruence].
Qed.

Lemma includes_append_l (a b : string) : includes (a +:+ b) a = true.
Proof.
  unfold includes. destruct (String.index 0 a (a +:+ b)) as [n|] eqn:E; [done|].
  exfalso. destruct (decide (a = "")) as [->|Hne].
  - apply String.index_correct4 in E. lia.
  - eapply String.index_correct3 with (m := 0); [exact E|done|lia|].
    apply String.prefix_correct, prefix_append_l.
Qed.

Lemma path_join_prefix a b : a <> "" -> exists rest, path_join a b = a +:+ rest.
Proof.
  intros Hne. unfold path_join. destruct (String.eqb_spec a ""); [done|].
  destruct (_ =? "/"); [by exists b|]. exists ("/" +:+ b). done.
Qed.

Lemma path_join_nonempty a b : b <> "" -> path_join a b <> "".
Proof.
  intros Hb. unfold path_join. destruct (String.eqb_spec a "") as [->|Ha]; [done|].
  destruct a; [done|]. by destruct (_ =? "/").
Qed.

Lemma outputPath_in_temp_dir os inputPath :
  includes (ShuakamiQq.outputPath os inputPath) (ShuakamiQq.getTempDir os) = true.
Proof.
  unfold ShuakamiQq.outputPath.
  destruct (path_join_prefix (ShuakamiQq.getTempDir os)
              ("slim_" +:+ pretty (date_now os) +:+ "_" +:+ basename inputPath))
    as [rest ->]; [|apply includes_append_l].
  by apply path_join_nonempty.
Qed.

Lemma handle_all_app os inputPath l1 l2 s :
  ShuakamiQq.handle_all os inputPath (l1 ++ l2) s =
  ShuakamiQq.handle_all os inputPath l2 (ShuakamiQq.handle_all os inputPath l1 s).
Proof. unfold ShuakamiQq.handle_all. by rewrite foldl_app. Qed.

Lemma chars_snoc l x : chars (l ++ [x]) = (chars l + N.of_nat (String.length x))%N.
Proof. unfold chars. rewrite sum_list_with_app. simpl. lia. Qed.

Lemma handle_head_data os inputPath x s :
  ShuakamiQq.uncaught s = None ->
  ShuakamiQq.handle os inputPath (HeadData x) s = ShuakamiQq.on_head_data x s.
Proof. intros H. unfold ShuakamiQq.handle. rewrite H. by destruct (ShuakamiQq.pass s). Qed.

(** The first pass: the head of the file is collected until it has
    reached [maxHeadSize] characters. *)
Lemma head_pass_state os inputPath hs fs :
  let s := ShuakamiQq.handle_all os inputPath (HeadData <$> hs) (ShuakamiQq.pre_init os inputPath fs) in
  ShuakamiQq.pre_fs s = fs /\ ShuakamiQq.pre_promise s = Hang /\
  ShuakamiQq.uncaught s = None /\ ShuakamiQq.pass s = None /\
  ShuakamiQq.pre_progress s = ShuakamiQq.pre_progress (ShuakamiQq.pre_init os inputPath fs) /\
  ShuakamiQq.headChunks s `prefix_of` hs /\
  ShuakamiQq.headSize s = chars (ShuakamiQq.headChunks s) /\
  (ShuakamiQq.headChunks s = hs \/ (100000 <= ShuakamiQq.headSize s)%N).
Proof.
  induction hs as [|x hs IH] using rev_ind; intros s.
  - unfold s. simpl. repeat split; auto.
  - unfold s. rewrite fmap_app, handle_all_app. simpl.
    set (s0 := ShuakamiQq.handle_all os inputPath (HeadData <$> hs)
                 (ShuakamiQq.pre_init os inputPath fs)) in *.
    destruct IH as (E1 & E2 & E3 & E4 & E5 & E6 & E7 & E8).
    rewrite handle_head_data by done. unfold ShuakamiQq.on_head_data.
    destruct (N.ltb_spec (ShuakamiQq.headSize s0) ShuakamiQq.maxHeadSize) as [Hlt|Hge].
    + simpl. destruct E8 as [E8|E8]; [|unfold ShuakamiQq.maxHeadSize in Hlt; lia].
      rewrite E8. repeat split; auto.
      rewrite E7, E8. by rewrite chars_snoc.
    + unfold ShuakamiQq.maxHeadSize in Hge. repeat split; auto.
      by apply prefix_app_r.
Qed.

Lemma div_succ (n : N) :
  ((n + 1) / 10000 = n / 10000 + (if (n + 1) mod 10000 =? 0 then 1 else 0))%N.
Proof.
  destruct (N.eqb_spec ((n + 1) mod 10000) 0) as [E|E];
    zify; Z.to_euclidean_division_equations; lia.
Qed.

Lemma put_same p f fs : files fs !! p = Some f -> Fs.put p f fs = fs.
Proof. intros H. destruct fs as [m lk]. unfold Fs.put. simpl in *. by rewrite insert_id. Qed.

Lemma put_put p f g fs : Fs.put p f (Fs.put p g fs) = Fs.put p f fs.
Proof. unfold Fs.put. simpl. by rewrite insert_insert_eq. Qed.

Lemma handle_second_pass os inputPath ev s v :
  ShuakamiQq.uncaught s = None -> ShuakamiQq.pass s = Some v ->
  ShuakamiQq.handle os inputPath ev s =
  match ev with
  | HeadData chunk => ShuakamiQq.on_head_data chunk s
  | HeadClose => ShuakamiQq.on_head_close os inputPath s
  | HeadError err => ShuakamiQq.on_head_error err s
  | ReadData chunk => ShuakamiQq.on_read_data chunk v s
  | PipelineData msgJson => ShuakamiQq.on_pipeline_data os inputPath msgJson v s
  | PipelineEnd => ShuakamiQq.on_pipeline_end os inputPath v s
  | PipelineError err => ShuakamiQq.on_pipeline_error os inputPath err v s
  | WriteFinish =>
      if ShuakamiQq.finishListener v then ShuakamiQq.on_write_finish os inputPath v s else s
  | WriteError err => ShuakamiQq.crash err s
  end.
Proof. intros Hu Hp. unfold ShuakamiQq.handle. rewrite Hu, Hp. by destruct ev. Qed.

(** The second pass, up to its end. *)
Lemma second_pass_state os inputPath l : forall s v cs,
  ShuakamiQq.uncaught s = None -> ShuakamiQq.pass s = Some v ->
  ShuakamiQq.writeOpen v = true ->
  files (ShuakamiQq.pre_fs s) !! ShuakamiQq.outputPath os inputPath = Some (FText cs) ->
  let s' := ShuakamiQq.handle_all os inputPath (second_pass l) s in
  ShuakamiQq.uncaught s' = None /\ ShuakamiQq.pre_promise s' = ShuakamiQq.pre_promise s /\
  (exists b, ShuakamiQq.pass s' =
     Some {| ShuakamiQq.pass_bytesRead := b;
             ShuakamiQq.pass_messagesProcessed :=
               ShuakamiQq.pass_messagesProcessed v + N.of_nat (length (records l));
             ShuakamiQq.isFirstMessage :=
               ShuakamiQq.isFirstMessage v && bool_decide (records l = []);
             ShuakamiQq.writeOpen := true;
             ShuakamiQq.finishListener := ShuakamiQq.finishListener v |}) /\
  ShuakamiQq.pre_fs s' =
    Fs.put (ShuakamiQq.outputPath os inputPath)
      (FText (cs ++ (if ShuakamiQq.isFirstMessage v
                     then framed (records l) else separated (records l))))
      (ShuakamiQq.pre_fs s) /\
  (N.of_nat (length (ShuakamiQq.pre_progress s')) + ShuakamiQq.pass_messagesProcessed v / 10000 =
   N.of_nat (length (ShuakamiQq.pre_progress s)) +
   (ShuakamiQq.pass_messagesProcessed v + N.of_nat (length (records l))) / 10000)%N.
Proof.
  induction l as [|[chunk|msgJson] l IH]; intros s v cs Hu Hp Hw Hf s'.
  - unfold s'. simpl. split; [done|]. split; [done|]. split; [|split].
    + exists (ShuakamiQq.pass_bytesRead v). rewrite Hp. destruct v; simpl in *.
      rewrite N.add_0_r, andb_true_r, Hw. done.
    + destruct (ShuakamiQq.isFirstMessage v); rewrite app_nil_r; symmetry; by apply put_same.
    + by rewrite N.add_0_r.
  - unfold s'. simpl. rewrite (handle_second_pass _ _ _ _ _ Hu Hp).
    unfold ShuakamiQq.on_read_data.
    match goal with |- context [ShuakamiQq.set_pass ?v1 s] =>
      destruct (IH (ShuakamiQq.set_pass v1 s) v1 cs) as (E1 & E2 & E3 & E4 & E5); try done
    end.
  - unfold s'. simpl. rewrite (handle_second_pass _ _ _ _ _ Hu Hp).
    set (chunk := if ShuakamiQq.isFirstMessage v then msgJson else "," +:+ LF +:+ msgJson).
    set (v1 := {| ShuakamiQq.pass_bytesRead := ShuakamiQq.pass_bytesRead v;
                  ShuakamiQq.pass_messagesProcessed := ShuakamiQq.pass_messagesProcessed v + 1;
                  ShuakamiQq.isFirstMessage := false;
                  ShuakamiQq.writeOpen := ShuakamiQq.writeOpen v;
                  ShuakamiQq.finishListener := ShuakamiQq.finishListener v |}).
    set (s1 := ShuakamiQq.on_pipeline_data os inputPath msgJson v s).
    assert (ShuakamiQq.uncaught s1 = None /\ ShuakamiQq.pass s1 = Some v1 /\
            ShuakamiQq.pre_promise s1 = ShuakamiQq.pre_promise s /\
            ShuakamiQq.pre_fs s1 =
              Fs.put (ShuakamiQq.outputPath os inputPath) (FText (cs ++ [chunk]))
                (ShuakamiQq.pre_fs s) /\
            length (ShuakamiQq.pre_progress s1) =
              length (ShuakamiQq.pre_progress s) +
              (if ((ShuakamiQq.pass_messagesProcessed v + 1) mod 10000 =? 0)%N then 1 else 0))
      as (U1 & P1 & R1 & F1 & L1).
    { unfold s1, ShuakamiQq.on_pipeline_data, ShuakamiQq.write. rewrite Hw.
      assert (forall c, Fs.append (ShuakamiQq.outputPath os inputPath) c (ShuakamiQq.pre_fs s) =
                Fs.put (ShuakamiQq.outputPath os inputPath) (FText (cs ++ [c]))
                  (ShuakamiQq.pre_fs s)) as Ha.
      { intros c. unfold Fs.append. by rewrite Hf. }
      unfold chunk.
      destruct (ShuakamiQq.isFirstMessage v);
        destruct ((ShuakamiQq.pass_messagesProcessed v + 1) mod 10000 =? 0)%N;
        simpl; rewrite Ha, ?length_app; simpl; repeat split; try done;
        first [lia | unfold v1; by rewrite Hw]. }
    destruct (IH s1 v1 (cs ++ [chunk])) as (E1 & E2 & E3 & E4 & E5); try done.
    { rewrite F1. simpl. by rewrite lookup_insert_eq. }
    fold s1. split; [done|]. split; [by rewrite E2|]. split; [|split].
    + destruct E3 as [b E3]. exists b. rewrite E3. simpl. f_equal. f_equal; [lia|].
      by rewrite andb_false_r.
    + rewrite E4, F1, put_put. simpl. f_equal. f_equal. rewrite <- app_assoc. f_equal.
      unfold chunk. by destruct (ShuakamiQq.isFirstMessage v).
    + simpl in E5 |- *. rewrite L1 in E5.
      pose proof (div_succ (ShuakamiQq.pass_messagesProcessed v)) as Hd.
      replace (ShuakamiQq.pass_messagesProcessed v + N.of_nat (S (length (records l))))%N
        with (ShuakamiQq.pass_messagesProcessed v + 1 + N.of_nat (length (records l)))%N by lia.
      destruct ((ShuakamiQq.pass_messagesProcessed v + 1) mod 10000 =? 0)%N; lia.
Qed.

(** The state in which the second pass starts. *)
Lemma head_close_state os inputPath hs fs :
  let s := ShuakamiQq.handle_all os inputPath ((HeadData <$> hs) ++ [HeadClose])
             (ShuakamiQq.pre_init os inputPath fs) in
  exists kept,
    kept `prefix_of` hs /\ (kept = hs \/ (100000 <= chars kept)%N) /\
    ShuakamiQq.uncaught s = None /\ ShuakamiQq.pre_promise s = Hang /\
    ShuakamiQq.pass s =
      Some {| ShuakamiQq.pass_bytesRead := 0; ShuakamiQq.pass_messagesProcessed := 0;
              ShuakamiQq.isFirstMessage := true; ShuakamiQq.writeOpen := true;
              ShuakamiQq.finishListener := false |} /\
    ShuakamiQq.pre_fs s =
      Fs.put (ShuakamiQq.outputPath os inputPath)
        (FText [headerOf os (String.concat "" kept) +:+ LF]) fs /\
    ShuakamiQq.pre_progress s =
      [createProgress os SParsing 0 (getFileSize os inputPath) 0 "预处理：读取文件头...";
       createProgress os SParsing 0 (getFileSize os inputPath) 0 "预处理：开始精简消息..."].
Proof.
  intros s. unfold s. rewrite handle_all_app.
  destruct (head_pass_state os inputPath hs fs) as (E1 & E2 & E3 & E4 & E5 & E6 & E7 & E8).
  set (s0 := ShuakamiQq.handle_all os inputPath (HeadData <$> hs)
               (ShuakamiQq.pre_init os inputPath fs)) in *.
  exists (ShuakamiQq.headChunks s0). split; [done|]. split; [by rewrite <- E7|].
  simpl. unfold ShuakamiQq.handle. rewrite E3.
  unfold ShuakamiQq.on_head_close, ShuakamiQq.write. simpl.
  rewrite E1, E2, E3, E5. repeat split; try done.
  unfold Fs.append. simpl. rewrite lookup_insert_eq. by rewrite put_put.
Qed.

(** The state after a complete run: the head, its close, the second pass,
    the end of the pipeline and the finish of the write stream. *)
Lemma complete_run_state os inputPath fs hs body :
  let s := ShuakamiQq.handle_all os inputPath
             ((HeadData <$> hs) ++ [HeadClose] ++ second_pass body ++ [PipelineEnd; WriteFinish])
             (ShuakamiQq.pre_init os inputPath fs) in
  exists kept,
    kept `prefix_of` hs /\ (kept = hs \/ (100000 <= chars kept)%N) /\
    ShuakamiQq.pre_promise s = Ok (ShuakamiQq.outputPath os inputPath) /\
    ShuakamiQq.pre_fs s =
      Fs.put (ShuakamiQq.outputPath os inputPath)
        (FText ((headerOf os (String.concat "" kept) +:+ LF) ::
                  framed (records body) ++ [LF +:+ "]}"])) fs /\
    last (ShuakamiQq.pre_progress s) =
      Some (createProgress os SDone (getFileSize os inputPath) (getFileSize os inputPath)
              (N.of_nat (length (records body))) "预处理完成") /\
    N.of_nat (length (ShuakamiQq.pre_progress s)) =
      (3 + N.of_nat (length (records body)) / 10000)%N.
Proof.
  intros s. unfold s. rewrite app_assoc, handle_all_app, handle_all_app.
  destruct (head_close_state os inputPath hs fs) as (kept & K1 & K2 & U & P & V & F & G).
  set (s0 := ShuakamiQq.handle_all os inputPath ((HeadData <$> hs) ++ [HeadClose])
               (ShuakamiQq.pre_init os inputPath fs)) in *.
  destruct (second_pass_state os inputPath body s0 _ [headerOf os (String.concat "" kept) +:+ LF]
              U V eq_refl) as (U1 & P1 & [b V1] & F1 & L1).
  { rewrite F. simpl. by rewrite lookup_insert_eq. }
  set (s1 := ShuakamiQq.handle_all os inputPath (second_pass body) s0) in *.
  exists kept. split; [done|]. split; [done|].
  simpl in V1, F1, L1. rewrite F, put_put in F1. rewrite G in L1. simpl in L1.
  rewrite P in P1.
  simpl. rewrite (handle_second_pass _ _ _ _ _ U1 V1).
  unfold ShuakamiQq.on_pipeline_end, ShuakamiQq.write. simpl.
  unfold ShuakamiQq.handle. simpl. rewrite U1. simpl.
  rewrite P1, F1. unfold Fs.append. simpl. rewrite lookup_insert_eq, put_put.
  split; [reflexivity|]. split; [reflexivity|]. split; [by rewrite last_snoc|].
  rewrite length_app. simpl. rewrite N.add_0_l in L1.
  change (0 / 10000)%N with 0%N in L1. lia.
Qed.

(** A rejected promise changes nothing of what the handlers do besides
    the promise. *)
Lemma handle_rejected os inputPath e ev s :
  ShuakamiQq.handle os inputPath ev (rejected e s) =
  rejected e (ShuakamiQq.handle os inputPath ev s).
Proof.
  unfold ShuakamiQq.handle. cbn [rejected ShuakamiQq.uncaught ShuakamiQq.pass].
  destruct (ShuakamiQq.uncaught s); [done|].
  destruct ev, (ShuakamiQq.pass s) as [v|]; try done;
    unfold ShuakamiQq.on_head_data, ShuakamiQq.on_head_close, ShuakamiQq.on_head_error,
      ShuakamiQq.on_read_data, ShuakamiQq.on_pipeline_data, ShuakamiQq.on_pipeline_end,
      ShuakamiQq.on_pipeline_error, ShuakamiQq.on_write_finish, ShuakamiQq.write;
    cbn [rejected ShuakamiQq.pre_fs ShuakamiQq.headSize ShuakamiQq.headChunks
         ShuakamiQq.set_pass ShuakamiQq.upd_fs];
    repeat case_match; try done;
    unfold rejected; simpl; by destruct (ShuakamiQq.pre_promise s).
Qed.

Lemma handle_all_rejected os inputPath e evs s :
  ShuakamiQq.handle_all os inputPath evs (rejected e s) =
  rejected e (ShuakamiQq.handle_all os inputPath evs s).
Proof.
  revert s. induction evs as [|ev evs IH]; intros s; [done|].
  simpl. fold (ShuakamiQq.handle_all os inputPath evs).
  change (foldl (fun s ev => ShuakamiQq.handle os inputPath ev s)
            (ShuakamiQq.handle os inputPath ev (rejected e s)) evs)
    with (ShuakamiQq.handle_all os inputPath evs
            (ShuakamiQq.handle os inputPath ev (rejected e s))).
  by rewrite handle_rejected, IH.
Qed.

(** An error of the head stream while the head is read: the promise is
    rejected, and everything else goes on as without the error. *)
Lemma head_error_run os inputPath fs hs err rest :
  io_events os inputPath = (HeadData <$> hs) ++ HeadError err :: rest ->
  let s := ShuakamiQq.handle_all os inputPath ((HeadData <$> hs) ++ rest)
             (ShuakamiQq.pre_init os inputPath fs) in
  ShuakamiQq.preprocessQQJson os inputPath fs =
    (Throw err, ShuakamiQq.pre_fs s, ShuakamiQq.pre_progress s).
Proof.
  intros Hev s. unfold ShuakamiQq.preprocessQQJson. rewrite Hev. unfold s.
  rewrite !handle_all_app.
  destruct (head_pass_state os inputPath hs fs) as (_ & E2 & E3 & _).
  set (s0 := ShuakamiQq.handle_all os inputPath (HeadData <$> hs)
               (ShuakamiQq.pre_init os inputPath fs)) in *.
  change (ShuakamiQq.handle_all os inputPath (HeadError err :: rest) s0)
    with (ShuakamiQq.handle_all os inputPath rest
            (ShuakamiQq.handle os inputPath (HeadError err) s0)).
  assert (ShuakamiQq.handle os inputPath (HeadError err) s0 = rejected err s0) as ->.
  { unfold ShuakamiQq.handle. rewrite E3. unfold ShuakamiQq.on_head_error, ShuakamiQq.settle.
    by rewrite E2. }
  by rewrite handle_all_rejected.
Qed.

(** Whatever the streams emit, the handlers change no file but the
    output file, and no lock. *)
Lemma handle_frame os inputPath ev s :
  let s' := ShuakamiQq.handle os inputPath ev s in
  locked (ShuakamiQq.pre_fs s') = locked (ShuakamiQq.pre_fs s) /\
  forall q, q <> ShuakamiQq.outputPath os inputPath ->
            files (ShuakamiQq.pre_fs s') !! q = files (ShuakamiQq.pre_fs s) !! q.
Proof.
  assert (forall c t,
            locked (Fs.append (ShuakamiQq.outputPath os inputPath) c t) = locked t /\
            forall q, q <> ShuakamiQq.outputPath os inputPath ->
                      files (Fs.append (ShuakamiQq.outputPath os inputPath) c t) !! q =
                      files t !! q) as Happ.
  { intros c t. unfold Fs.append.
    destruct (files t !! ShuakamiQq.outputPath os inputPath) as [[cs|?]|]; simpl; try done.
    split; [done|]. intros q Hq. by rewrite lookup_insert_ne. }
  assert (forall c v s0,
            locked (ShuakamiQq.pre_fs (ShuakamiQq.write (ShuakamiQq.outputPath os inputPath) c v s0)) =
              locked (ShuakamiQq.pre_fs s0) /\
            forall q, q <> ShuakamiQq.outputPath os inputPath ->
              files (ShuakamiQq.pre_fs (ShuakamiQq.write (ShuakamiQq.outputPath os inputPath) c v s0)) !! q =
              files (ShuakamiQq.pre_fs s0) !! q) as Hwr.
  { intros c v s0. unfold ShuakamiQq.write. destruct (ShuakamiQq.writeOpen v); [|done].
    simpl. apply Happ. }
  intros s'. unfold s', ShuakamiQq.handle.
  destruct (ShuakamiQq.uncaught s); [done|].
  destruct ev, (ShuakamiQq.pass s) as [v|]; try done.
  - unfold ShuakamiQq.on_head_data. by destruct (_ <? _)%N.
  - unfold ShuakamiQq.on_head_data. by destruct (_ <? _)%N.
  - unfold ShuakamiQq.on_head_close. cbn [ShuakamiQq.set_pass ShuakamiQq.pre_fs].
    match goal with |- context [ShuakamiQq.write ?o ?c ?v0 ?s0] =>
      destruct (Hwr c v0 s0) as [-> Hq] end.
    split; [done|]. intros q Hne. rewrite Hq by done. simpl. by rewrite lookup_insert_ne.
  - unfold ShuakamiQq.on_head_close. cbn [ShuakamiQq.set_pass ShuakamiQq.pre_fs].
    match goal with |- context [ShuakamiQq.write ?o ?c ?v0 ?s0] =>
      destruct (Hwr c v0 s0) as [-> Hq] end.
    split; [done|]. intros q Hne. rewrite Hq by done. simpl. by rewrite lookup_insert_ne.
  - unfold ShuakamiQq.on_pipeline_data.
    destruct (ShuakamiQq.isFirstMessage v), (_ =? _)%N; simpl; apply Hwr.
  - unfold ShuakamiQq.on_pipeline_end. simpl. apply Hwr.
  - unfold ShuakamiQq.on_pipeline_error. cbn [ShuakamiQq.set_pass ShuakamiQq.pre_fs].
    unfold Fs.existsSync, Fs.unlinkSync. case_bool_decide as Hex; [|done].
    destruct Hex as [f ->]. case_bool_decide; [done|]. simpl.
    split; [done|]. intros q Hne. by rewrite lookup_delete_ne.
  - by destruct (ShuakamiQq.finishListener v).
Qed.

Section Runs.

Variable os : Os.
Variable inputPath : string.
Variable fs : FS.
Variable hs : list string.
Variable body : list (string + string).

Local Abbreviation out := (ShuakamiQq.outputPath os inputPath).
Local Abbreviation total := (getFileSize os inputPath).

(** X8 (the slimmed file). When the head stream delivers its chunks and
    closes, the second pass reads chunks and delivers records in any
    interleaving, the pipeline ends and the write stream finishes, then
    [preprocessQQJson] resolves with the output path in the temp
    directory. The output file holds the header line computed from the
    collected head (all the head chunks, unless 100000 characters were
    reached before), then the records, the first as it is and every later
    one after a comma and a line feed, then the closing [\n]}]. No other
    file is changed. The last progress event is of stage [done] with the
    number of records, and one progress event was sent for every 10000
    records, besides the two at the start and the one at the end. *)
Theorem preprocess_writes_framed_records :
  io_events os inputPath =
    (HeadData <$> hs) ++ [HeadClose] ++ second_pass body ++ [PipelineEnd; WriteFinish] ->
  exists kept progress,
    kept `prefix_of` hs /\ (kept = hs \/ (100000 <= chars kept)%N) /\
    ShuakamiQq.preprocessQQJson os inputPath fs =
      (Ok out,
       Fs.put out (FText ((headerOf os (String.concat "" kept) +:+ LF) ::
                            framed (records body) ++ [LF +:+ "]}"])) fs,
       progress) /\
    last progress =
      Some (createProgress os SDone total total (N.of_nat (length (records body)))
              "预处理完成") /\
    N.of_nat (length progress) = (3 + N.of_nat (length (records body)) / 10000)%N.
Proof.
  intros Hev. unfold ShuakamiQq.preprocessQQJson. rewrite Hev.
  destruct (complete_run_state os inputPath fs hs body) as (kept & K1 & K2 & P & F & L & N).
  exists kept. eexists. split; [done|]. split; [done|].
  split; [by rewrite P, F|]. by split.
Qed.

(** X9 (a structural error of the second pass). When the pipeline emits
    ['error'] after the head was read and any number of chunks and
    records were handled, and the operating system lets the output file
    be deleted, [preprocessQQJson] rejects with that error and the output
    file is gone: the file system is the one before the call without the
    output path. The last progress event is of stage [error]. *)
Theorem preprocess_pipeline_error_removes_output err :
  io_events os inputPath =
    (HeadData <$> hs) ++ [HeadClose] ++ second_pass body ++ [PipelineError err] ->
  out ∉ locked fs ->
  exists b progress,
    ShuakamiQq.preprocessQQJson os inputPath fs = (Throw err, Fs.remove out fs, progress) /\
    last progress =
      Some (createProgress os SError b total (N.of_nat (length (records body)))
              ("预处理错误: " +:+ err)).
Proof.
  intros Hev Hl. unfold ShuakamiQq.preprocessQQJson. rewrite Hev.
  rewrite app_assoc, handle_all_app, handle_all_app.
  destruct (head_close_state os inputPath hs fs) as (kept & K1 & K2 & U & P & V & F & G).
  set (s0 := ShuakamiQq.handle_all os inputPath ((HeadData <$> hs) ++ [HeadClose])
               (ShuakamiQq.pre_init os inputPath fs)) in *.
  destruct (second_pass_state os inputPath body s0 _ [headerOf os (String.concat "" kept) +:+ LF]
              U V eq_refl) as (U1 & P1 & [b V1] & F1 & L1).
  { rewrite F. simpl. by rewrite lookup_insert_eq. }
  set (s1 := ShuakamiQq.handle_all os inputPath (second_pass body) s0) in *.
  simpl in V1, F1. rewrite F, put_put in F1. rewrite P in P1.
  exists b. eexists.
  simpl. rewrite (handle_second_pass _ _ _ _ _ U1 V1).
  unfold ShuakamiQq.on_pipeline_error. simpl. rewrite F1.
  unfold Fs.existsSync, Fs.unlinkSync. simpl. rewrite lookup_insert_eq.
  rewrite bool_decide_eq_true_2 by eauto. rewrite bool_decide_eq_false_2 by done.
  simpl. rewrite P1. split; [|by rewrite last_snoc].
  f_equal. f_equal. unfold Fs.remove. simpl. by rewrite delete_insert_eq.
Qed.

(** X10 (an error of the head stream). When the head stream emits
    ['error'] while the head is read, [preprocessQQJson] rejects with
    that error, whatever the streams emit afterwards; the files and the
    progress events are those of the same run without the error, since
    nothing but the promise records it. So when nothing follows, no
    output file has been created and the file system is untouched. But
    when the stream goes on to emit ['close'], as a destroyed stream
    does, its handler starts the second pass all the same, and if that
    pass completes, the slimmed file is written in full and left in the
    temp directory although the promise is rejected. *)
Theorem preprocess_head_error_only_rejects err rest :
  io_events os inputPath = (HeadData <$> hs) ++ HeadError err :: rest ->
  let s := ShuakamiQq.handle_all os inputPath ((HeadData <$> hs) ++ rest)
             (ShuakamiQq.pre_init os inputPath fs) in
  ShuakamiQq.preprocessQQJson os inputPath fs =
    (Throw err, ShuakamiQq.pre_fs s, ShuakamiQq.pre_progress s) /\
  (rest = [] ->
   ShuakamiQq.pre_fs s = fs /\
   ShuakamiQq.pre_progress s =
     [createProgress os SParsing 0 total 0 "预处理：读取文件头..."]) /\
  (rest = [HeadClose] ++ second_pass body ++ [PipelineEnd; WriteFinish] ->
   exists kept,
     kept `prefix_of` hs /\
     ShuakamiQq.pre_fs s =
       Fs.put out (FText ((headerOf os (String.concat "" kept) +:+ LF) ::
                            framed (records body) ++ [LF +:+ "]}"])) fs).
Proof.
  intros Hev s. split; [|split].
  - by apply head_error_run.
  - intros ->. unfold s. rewrite app_nil_r.
    by destruct (head_pass_state os inputPath hs fs) as (-> & _ & _ & _ & -> & _).
  - intros ->. unfold s.
    destruct (complete_run_state os inputPath fs hs body) as (kept & K1 & _ & _ & F & _).
    eauto.
Qed.

End Runs.

(** *** What the promise resolves with *)

Lemma handle_path os inputPath ev s :
  (forall p, ShuakamiQq.pre_promise s = Ok p -> p = ShuakamiQq.outputPath os inputPath) ->
  forall p, ShuakamiQq.pre_promise (ShuakamiQq.handle os inputPath ev s) = Ok p ->
            p = ShuakamiQq.outputPath os inputPath.
Proof.
  intros Hs p. unfold ShuakamiQq.handle. destruct (ShuakamiQq.uncaught s); [by apply Hs|].
  destruct ev, (ShuakamiQq.pass s) as [v|]; try (by apply Hs);
    unfold ShuakamiQq.on_head_data, ShuakamiQq.on_head_close, ShuakamiQq.on_head_error,
      ShuakamiQq.on_read_data, ShuakamiQq.on_pipeline_data, ShuakamiQq.on_pipeline_end,
      ShuakamiQq.on_pipeline_error, ShuakamiQq.on_write_finish, ShuakamiQq.write;
    repeat case_match; simpl; try (by apply Hs);
    destruct (ShuakamiQq.pre_promise s) eqn:E; try done;
    try (intros [= <-]; by apply Hs); by intros [= <-].
Qed.

Lemma preprocess_resolves_with_outputPath os inputPath fs p fs' ps :
  ShuakamiQq.preprocessQQJson os inputPath fs = (Ok p, fs', ps) ->
  p = ShuakamiQq.outputPath os inputPath.
Proof.
  unfold ShuakamiQq.preprocessQQJson. intros [= H _ _]. revert p H.
  unfold ShuakamiQq.handle_all.
  induction (io_events os inputPath) as [|ev l IH] using rev_ind; [done|].
  rewrite foldl_app. simpl. by apply handle_path.
Qed.

(** X11 (cleanup of its own output). Whatever the streams did, a path that
    [preprocessQQJson] resolved with passes the guard of
    [cleanupTempFile]: in any file system in which the operating system
    lets the file be deleted, [cleanup] returns normally, the file is
    absent afterwards, and no other file is touched. *)
Theorem cleanup_removes_preprocess_output os inputPath fs p fs' ps fs1 :
  preprocess (ShuakamiQq.qqPreprocessor os) inputPath fs = (Ok p, fs', ps) ->
  p ∉ locked fs1 ->
  exists fs2,
    cleanup (ShuakamiQq.qqPreprocessor os) p fs1 = (Ok tt, fs2) /\
    files fs2 !! p = None /\ locked fs2 = locked fs1 /\
    forall q, q <> p -> files fs2 !! q = files fs1 !! q.
Proof.
  simpl. intros ->%preprocess_resolves_with_outputPath Hl.
  unfold ShuakamiQq.cleanupTempFile, try_catch. rewrite outputPath_in_temp_dir, andb_true_r.
  unfold Fs.existsSync. case_bool_decide as Hex.
  - unfold Fs.unlinkSync. destruct Hex as [f ->]. rewrite bool_decide_eq_false_2 by done.
    eexists. split; [done|]. simpl. split; [apply lookup_delete_eq|]. split; [done|].
    intros q Hq. by apply lookup_delete_ne.
  - exists fs1. split; [done|]. split; [by apply eq_None_not_Some|done].
Qed.

(** X12 (no other file). Whatever its streams emit, and whether it
    resolves, rejects or never settles, [preprocessQQJson] changes no
    file other than its output file in the temp directory, and it makes
    no file undeletable. *)
Theorem preprocess_touches_only_its_output os inputPath fs :
  let out := (ShuakamiQq.preprocessQQJson os inputPath fs).1.2 in
  locked out = locked fs /\
  forall q, q <> ShuakamiQq.outputPath os inputPath -> files out !! q = files fs !! q.
Proof.
  unfold ShuakamiQq.preprocessQQJson. simpl. unfold ShuakamiQq.handle_all.
  induction (io_events os inputPath) as [|ev l IH] using rev_ind; [done|].
  rewrite foldl_app. simpl. destruct IH as [IH1 IH2].
  match goal with |- context [ShuakamiQq.handle _ _ ev ?s0] =>
    destruct (handle_frame os inputPath ev s0) as [H1 H2] end.
  split; [by rewrite H1|]. intros q Hq. by rewrite H2, IH2.
Qed.

(** ** Failures of the import *)




Lemma preprocessStage_tmp w filePath pre s actual p s1 :
  getPreprocessor w filePath = Some pre ->
  preprocessStage w filePath s = (Ok (inr (actual, Some p)), s1) ->
  exists fs' ps, preprocess pre filePath (st_fs s) = (Ok p, fs', ps).
Proof.
  intros Hpre Hst. unfold preprocessStage in Hst. rewrite Hpre in Hst.
  destruct (parser_needsPreprocess w filePath); [|unfold mret in Hst; congruence].
  unfold mbind at 1 in Hst. simpl in Hst. unfold try_catch, mbind in Hst. simpl in Hst.
  destruct (preprocess pre filePath (st_fs s)) as [[[p'|e'|] fs'] ps] eqn:E;
    simpl in Hst; try (unfold mret in Hst; congruence).
  exists fs', ps. unfold mret in Hst. congruence.
Qed.

Section Failures.

Variable w : World.
Variable fs : FS.
Variables (filePath actual : string) (tmp : option string).
Variable s1 : ImportState.
Hypothesis started : Started w fs filePath actual tmp s1.

Local Abbreviation dbPath := (getDbPath w (generateSessionId w)).





(** What the [try] and [catch] blocks leave of the file system. *)
Lemma try_catch_files r s3 :
  try_catch (transaction w actual) (onFailure w) (opened w s1) = (r, s3) ->
  locked (st_fs s3) = locked (st_fs s1) /\
  forall q, q <> dbPath -> files (st_fs s3) !! q = files (st_fs s1) !! q.
Proof.
  unfold try_catch.
  destruct (transaction w actual (opened w s1)) as [[res|e|] s2] eqn:Ht.
  - intros [= <- <-].
    apply transaction_ok in Ht as (_ & _ & _ & ->); [|by eapply started_Inv].
    simpl. split; [done|]. intros q Hq. by rewrite !lookup_insert_ne.
  - assert (st_fs s2 = Fs.put dbPath (FDb empty_tables) (st_fs s1)) as Hfs.
    { by apply (transaction_failed _ _ _ _ _ Ht). }
    destruct (onFailure_outcome w s2 e empty_tables) as [[_ ->]|[_ [e' ->]]].
    { rewrite Hfs. simpl. by rewrite lookup_insert_eq. }
    + intros [= <- <-]. simpl. rewrite Hfs. simpl. split; [done|].
      intros q Hq. by rewrite lookup_delete_ne, lookup_insert_ne.
    + intros [= <- <-]. simpl. rewrite Hfs. simpl. split; [done|].
      intros q Hq. by rewrite lookup_insert_ne.
  - intros [= <- <-].
    assert (st_fs s2 = Fs.put dbPath (FDb empty_tables) (st_fs s1)) as ->.
    { by apply (transaction_failed _ _ _ _ _ Ht). }
    simpl. split; [done|]. intros q Hq. by rewrite lookup_insert_ne.
Qed.

(** X15 (the temp file of a large export). When the import has slimmed a
    large QQ export, the temp file is gone when [streamImport] returns or
    rejects, whether the import succeeded, failed and rolled back, or
    failed to delete its store, provided the operating system lets the
    temp file be deleted. *)
Theorem import_removes_temp_file os p r s' :
  getPreprocessor w filePath = Some (ShuakamiQq.qqPreprocessor os) ->
  tmp = Some p ->
  p ∉ locked (st_fs s1) ->
  run_streamImport w fs filePath = (r, s') ->
  r <> Hang ->
  files (st_fs s') !! p = None.
Proof.
  intros Hpre Htmp Hl H Hr.
  assert (p = ShuakamiQq.outputPath os filePath) as Hp.
  { destruct started as (_ & Hst & _). rewrite Htmp in Hst.
    destruct (preprocessStage_tmp _ _ _ _ _ _ _ Hpre Hst) as (fs' & ps & E).
    by apply preprocess_resolves_with_outputPath in E. }
  rewrite (started_importStage _ _ _ _ _ _ started) in H.
  unfold importStage in H. unfold mbind at 1 in H.
  rewrite createDatabase_fresh in H by by eapply started_fresh.
  unfold try_finally in H.
  destruct (try_catch (transaction w actual) (onFailure w) (opened w s1)) as [r1 s3] eqn:Htc.
  destruct (try_catch_files _ _ Htc) as [Hlk Hq].
  assert (files (st_fs s') !! p = None \/ r = Hang) as [?|?]; [|done|done].
  assert (exists s4, finallyBlock w filePath tmp s3 = (Ok tt, s4) /\
                     files (st_fs s4) !! p = None) as (s4 & Hfin & Hgone).
  { unfold finallyBlock. rewrite Htmp, Hpre. simpl. unfold lift_fs.
    destruct (cleanupTempFile_cases os p (st_fs s3)) as [E|(E & _)].
    - rewrite E. eexists. split; [done|]. simpl.
      unfold ShuakamiQq.cleanupTempFile, try_catch in E.
      rewrite Hp, outputPath_in_temp_dir, andb_true_r in E.
      unfold Fs.existsSync in E. rewrite <- Hp in E. case_bool_decide as Hex.
      + unfold Fs.unlinkSync in E. destruct Hex as [f Hf]. rewrite Hf in E.
        rewrite bool_decide_eq_false_2 in E by by rewrite Hlk.
        injection E as E. apply (f_equal files) in E. simpl in E.
        rewrite <- E. apply lookup_delete_eq.
      + by apply eq_None_not_Some.
    - rewrite E. eexists. split; [done|]. simpl. apply lookup_delete_eq. }
  rewrite Hfin in H. destruct r1; injection H as <- <-; auto.
Qed.

End Failures.

(** X16 (a head error leaves the slimmed file behind). Let a large QQ
    export be imported, let the head stream emit ['error'] while the
    head is read and then close, and let the second pass complete all
    the same. Then [streamImport] returns [{success: false}] with the
    error of the head stream behind [预处理失败: ], no store is created
    and no other file is changed; but the slimmed file has been written
    in full, and it stays in the temp directory: the early [return]
    comes before the [try] whose [finally] calls [cleanup]. *)
Theorem import_leaves_output_after_head_error w fs filePath os hs body err :
  is_Some (detectFormat w filePath) ->
  getPreprocessor w filePath = Some (ShuakamiQq.qqPreprocessor os) ->
  parser_needsPreprocess w filePath = true ->
  io_events os filePath =
    (HeadData <$> hs) ++ HeadError err ::
    [HeadClose] ++ second_pass body ++ [PipelineEnd; WriteFinish] ->
  exists s' kept,
    run_streamImport w fs filePath = (Ok (failed ("预处理失败: " +:+ err)), s') /\
    kept `prefix_of` hs /\
    st_fs s' =
      Fs.put (ShuakamiQq.outputPath os filePath)
        (FText ((headerOf os (String.concat "" kept) +:+ LF) ::
                  framed (records body) ++ [LF +:+ "]}"])) fs.
Proof.
  intros Hff Hpre Hneed Hev.
  pose proof (head_error_run os filePath fs hs err _ Hev) as Hrun. cbv zeta in Hrun.
  destruct (complete_run_state os filePath fs hs body) as (kept & K1 & _ & _ & F & _).
  destruct (streamImport_preprocess_failure w fs filePath _ err _ _ Hff Hpre Hneed Hrun)
    as (s' & Hres & Hfs & _).
  exists s', kept. split; [done|]. split; [done|]. by rewrite Hfs, <- F.
Qed.

(** ** What the preview reports *)

Import Previewed.

Lemma preview_add_all {T} (x : T -> option string) l s :
  let s' := foldl (fun s m => StreamParseFileInfo.memberSet_add (x m) s) s l in
  StreamParseFileInfo.memberSet s' = list_to_set (x <$> l) ∪ StreamParseFileInfo.memberSet s /\
  StreamParseFileInfo.var_name s' = StreamParseFileInfo.var_name s /\
  StreamParseFileInfo.var_platform s' = StreamParseFileInfo.var_platform s /\
  StreamParseFileInfo.info_sent s' = StreamParseFileInfo.info_sent s.
Proof.
  revert s. induction l as [|m l IH]; intros s; simpl.
  - split; [by rewrite union_empty_l_L|done].
  - destruct (IH (StreamParseFileInfo.memberSet_add (x m) s)) as (E1 & E2 & E3 & E4).
    rewrite E1, E2, E3, E4. simpl. split; [|done].
    by rewrite (assoc_L (∪)), (comm_L (∪) (list_to_set _)).
Qed.

Lemma preview_callback_state ev s :
  let s' := StreamParseFileInfo.callback ev s in
  StreamParseFileInfo.memberSet s' = list_to_set (event_ids ev) ∪ StreamParseFileInfo.memberSet s /\
  StreamParseFileInfo.var_name s' =
    match ev with PMeta m => meta_name m | _ => StreamParseFileInfo.var_name s end /\
  StreamParseFileInfo.var_platform s' =
    match ev with PMeta m => meta_platform m | _ => StreamParseFileInfo.var_platform s end /\
  StreamParseFileInfo.info_sent s' =
    StreamParseFileInfo.info_sent s ++ match ev with PProgress p => [p] | _ => [] end.
Proof.
  destruct ev as [meta|members|messages|p]; simpl.
  - rewrite app_nil_r. split; [by rewrite union_empty_l_L|done].
  - unfold StreamParseFileInfo.onMembers.
    destruct (preview_add_all (fun m => Some (platformId m)) members s) as (E1 & E2 & E3 & E4).
    rewrite E1, E2, E3, E4, app_nil_r. done.
  - unfold StreamParseFileInfo.onMessageBatch.
    match goal with |- context [foldl _ ?s0 messages] =>
      destruct (preview_add_all senderPlatformId messages s0) as (E1 & E2 & E3 & E4)
    end.
    rewrite E1, E2, E3, E4, app_nil_r. done.
  - split; [by rewrite union_empty_l_L|done].
Qed.

Lemma run_ids_snoc evs ev : run_ids (evs ++ [ev]) = run_ids evs ++ event_ids ev.
Proof. unfold run_ids. rewrite fmap_app, concat_app. simpl. by rewrite app_nil_r. Qed.

Lemma last_snoc_meta evs ev :
  last (run_metas (evs ++ [ev])) =
  match ev with PMeta m => Some m | _ => last (run_metas evs) end.
Proof. rewrite run_metas_snoc. destruct ev; rewrite ?app_nil_r, ?last_snoc; done. Qed.

Lemma preview_callbacks_state evs s :
  let s' := foldl (fun s ev => StreamParseFileInfo.callback ev s) s evs in
  StreamParseFileInfo.memberSet s' = list_to_set (run_ids evs) ∪ StreamParseFileInfo.memberSet s /\
  StreamParseFileInfo.var_name s' =
    default (StreamParseFileInfo.var_name s) (meta_name <$> last (run_metas evs)) /\
  StreamParseFileInfo.var_platform s' =
    default (StreamParseFileInfo.var_platform s) (meta_platform <$> last (run_metas evs)) /\
  StreamParseFileInfo.info_sent s' = StreamParseFileInfo.info_sent s ++ run_progress evs.
Proof.
  induction evs as [|ev evs IH] using rev_ind; intros s'.
  - unfold s'. simpl. rewrite app_nil_r. split; [by rewrite union_empty_l_L|done].
  - unfold s'. rewrite foldl_app. simpl.
    destruct IH as (E1 & E2 & E3 & E4).
    destruct (preview_callback_state ev
                (foldl (fun s ev => StreamParseFileInfo.callback ev s) s evs))
      as (F1 & F2 & F3 & F4).
    rewrite F1, F2, F3, F4, E1, E2, E3, E4.
    rewrite run_ids_snoc, last_snoc_meta, run_progress_snoc, list_to_set_app_L.
    split; [by rewrite (assoc_L (∪)), (comm_L (∪) (list_to_set (event_ids ev)))|].
    split; [by destruct ev|]. split; [by destruct ev|].
    by rewrite app_assoc.
Qed.

Section Preview.

Variable w : World.
Variable filePath : string.


(** X18 (what the preview reports). The preview reports the name and the
    platform of the last metadata the parser delivered (the import
    stores the first); without any metadata the name is [未知群聊] and the
    platform is that of the detected format. It reports the format's
    name and the size of the file, and it has posted to the parent port
    its own first progress message followed by every progress event of
    the parser, in order. *)
Theorem preview_reports_last_meta info sent :
  StreamParseFileInfo.streamParseFileInfo w filePath = (Ok info, sent) ->
  exists ff size,
    detectFormat w filePath = Some ff /\ statSize w filePath = Ok size /\
    let evs := run_events (streamParseFile w filePath
                             (StreamParseFileInfo.batchSizeFor size)) in
    info_name info = default "未知群聊" (meta_name <$> last (run_metas evs)) /\
    info_platform info = default (format_platform ff) (meta_platform <$> last (run_metas evs)) /\
    info_format info = format_name ff /\ info_fileSize info = size /\
    sent = {| stage := SParsing; bytesRead := 0; totalBytes := size; messagesProcessed := 0;
              percentage := 0; progress_message := "正在读取文件..." |} :: run_progress evs.
Proof.
  unfold StreamParseFileInfo.streamParseFileInfo.
  destruct (detectFormat w filePath) as [ff|]; [|done].
  destruct (statSize w filePath) as [size|e|] eqn:Es; [|done..].
  destruct (run_error _); [done|]. intros [= <- <-]. exists ff, size.
  split; [done|]. split; [done|]. simpl.
  match goal with |- context [foldl _ ?s0 ?evs] =>
    destruct (preview_callbacks_state evs s0) as (_ & E2 & E3 & E4)
  end.
  by rewrite E2, E3, E4.
Qed.

(** X19 (failures of the preview). Unlike [streamImport], the preview
    throws: for a file whose format is not detected, or whose size
    cannot be read, before any progress is posted; and for a file whose
    parser ends with a structural error, after all its progress events
    were forwarded. *)
Theorem preview_throws :
  (detectFormat w filePath = None ->
   StreamParseFileInfo.streamParseFileInfo w filePath = (Throw "无法识别文件格式", [])) /\
  (forall ff e, detectFormat w filePath = Some ff -> statSize w filePath = Throw e ->
     StreamParseFileInfo.streamParseFileInfo w filePath = (Throw e, [])) /\
  (forall ff size e, detectFormat w filePath = Some ff -> statSize w filePath = Ok size ->
     let r := streamParseFile w filePath (StreamParseFileInfo.batchSizeFor size) in
     run_error r = Some e ->
     StreamParseFileInfo.streamParseFileInfo w filePath =
       (Throw e,
        {| stage := SParsing; bytesRead := 0; totalBytes := size; messagesProcessed := 0;
           percentage := 0; progress_message := "正在读取文件..." |}
          :: run_progress (run_events r))).
Proof.
  unfold StreamParseFileInfo.streamParseFileInfo. split; [|split].
  - by intros ->.
  - by intros ff e -> ->.
  - intros ff size e -> -> He. rewrite He. f_equal.
    match goal with |- context [foldl _ ?s0 ?evs] =>
      destruct (preview_callbacks_state evs s0) as (_ & _ & _ & E4)
    end.
    by rewrite E4.
Qed.

End Preview.

(** ** The members of the preview and of the import *)

Lemma first_mention_Some pid l x :
  first_mention pid l = Some x -> x ∈ l /\ mention_pid x = pid.
Proof.
  unfold first_mention. intros [Hin Heq]%List.find_some.
  split; [by apply list_elem_of_In|by apply String.eqb_eq].
Qed.

Lemma elem_of_concat {A} (x : A) (ls : list (list A)) :
  x ∈ concat ls <-> exists l, l ∈ ls /\ x ∈ l.
Proof.
  induction ls as [|l ls IH]; simpl.
  - split; [by intros ?%elem_of_nil|by intros (? & ?%elem_of_nil & _)].
  - rewrite elem_of_app, IH. split.
    + intros [H|(k & ? & ?)]; [exists l; split; [by left|done]|exists k; split; [by right|done]].
    + intros (k & [->|?]%elem_of_cons & ?); [by left|right; eauto].
Qed.

(** Every mention is of an id the preview adds to its set. *)
Lemma mention_in_run_ids evs x : x ∈ mentions evs -> Some (mention_pid x) ∈ run_ids evs.
Proof.
  unfold mentions, run_ids. intros (l & (ev & -> & Hev)%list_elem_of_fmap & Hx)%elem_of_concat.
  apply elem_of_concat. exists (event_ids ev). split; [apply list_elem_of_fmap; eauto|].
  destruct ev as [meta|members|messages|p]; simpl in *; try by apply elem_of_nil in Hx.
  - apply list_elem_of_fmap in Hx as (m & -> & Hm). apply list_elem_of_fmap. by exists m.
  - apply list_elem_of_omap in Hx as (msg & Hmsg & Hs). apply list_elem_of_fmap.
    exists msg. split; [|done]. unfold sender_mention in Hs.
    destruct (is_valid msg); [|done].
    destruct (senderPlatformId msg) as [p|]; [|done].
    destruct (senderName msg); [|done]. by injection Hs as <-.
Qed.

Lemma member_rows_pids ments t :
  members_ok t -> MemberRows ments t ->
  m_platform_id <$> member t ≡ₚ remove_dups (mention_pid <$> ments).
Proof.
  intros [Hnd _ _] [R1 R2 _ _]. apply NoDup_Permutation; [done|apply NoDup_remove_dups|].
  intros p. rewrite elem_of_remove_dups. split.
  - intros (r & -> & Hr)%list_elem_of_fmap.
    destruct (first_mention_Some _ _ _ (R1 r Hr)) as [Hin Hp].
    apply list_elem_of_fmap. eexists. split; [|exact Hin]. done.
  - intros (x & -> & Hx)%list_elem_of_fmap.
    destruct (R2 x Hx) as [i (r & Hr & Hp & _)%getMemberId_Some].
    apply list_elem_of_fmap. by exists r.
Qed.

(** Two duplicate-free lists of which the first is included in the
    second: the first is not longer, and as long only if it has all the
    elements of the second. *)
Lemma NoDup_subseteq_length {A} (l k : list A) :
  NoDup l -> NoDup k -> l ⊆ k ->
  length l <= length k /\ (length l = length k <-> k ⊆ l).
Proof.
  intros Hl Hk Hsub. pose proof (NoDup_submseteq l k Hl Hsub) as Hm. split.
  - by apply submseteq_length.
  - split.
    + intros E x Hx. apply submseteq_length_Permutation in Hm; [|lia]. by rewrite Hm.
    + intros Hsup. apply Permutation_length, NoDup_Permutation; try done.
      intros x. split; [apply Hsub|apply Hsup].
Qed.

Section Members.

Variable w : World.
Variable fs : FS.
Variables (filePath actual : string) (tmp : option string).
Variable s1 : ImportState.
Hypothesis started : Started w fs filePath actual tmp s1.

Local Abbreviation evs := (run_events (streamParseFile w actual 5000)).

(** X20 (member counts of the preview and of the import). A successful
    import has one member row for every distinct platform id among the
    entries of the member lists and the senders of the kept messages.
    When the parser delivers the same ids to the preview, the
    [memberCount] of the preview is at least the number of member rows,
    and it is that number exactly when every id the preview counts,
    [undefined] included, is that of a listed member or of the sender of
    a kept message. *)
Theorem preview_member_count_bounds_import info sent r s' :
  StreamParseFileInfo.streamParseFileInfo w filePath = (Ok info, sent) ->
  run_streamImport w fs filePath = (Ok r, s') ->
  success r = true ->
  (forall size, statSize w filePath = Ok size ->
     run_ids (run_events (streamParseFile w filePath
                            (StreamParseFileInfo.batchSizeFor size))) = run_ids evs) ->
  let pids := mention_pid <$> mentions evs in
  exists t,
    committed w s' = Some t /\
    m_platform_id <$> member t ≡ₚ remove_dups pids /\
    length (member t) <= info_memberCount info /\
    (length (member t) = info_memberCount info <->
     forall x, x ∈ run_ids evs -> exists p, x = Some p /\ p ∈ pids).
Proof.
  intros Hprev H Hr Hsame pids.
  destruct (import_stored w fs filePath actual tmp s1 started _ _ H Hr)
    as (s2 & t & Hc & HI & HS & E1 & _).
  exists t. split; [done|].
  assert (m_platform_id <$> member t ≡ₚ remove_dups pids) as Hperm.
  { rewrite E1, <- list_fmap_compose.
    rewrite (list_fmap_ext _ m_platform_id (member (st_db s2))).
    - apply member_rows_pids; [apply (inv_members _ _ HI)|by destruct HS].
    - intros _ row _. simpl. by destruct (rename_row_fields (nicknameTracker s2) row) as (_ & ? & _). }
  split; [done|].
  assert (info_memberCount info = length (remove_dups (run_ids evs))) as ->.
  { revert Hprev. unfold StreamParseFileInfo.streamParseFileInfo.
    destruct (detectFormat w filePath) as [ff|]; [|done].
    destruct (statSize w filePath) as [size|e|] eqn:Es; [|done..].
    destruct (run_error _); [done|]. intros [= <- _]. simpl.
    match goal with |- context [foldl _ ?s0 ?l] =>
      destruct (preview_callbacks_state l s0) as (E & _)
    end.
    rewrite E, (Hsame _ eq_refl). simpl. rewrite union_empty_r_L.
    rewrite <- (size_list_to_set (C := gset (option string)) (remove_dups _))
      by apply NoDup_remove_dups.
    f_equal. apply set_eq. intros x. rewrite !elem_of_list_to_set.
    by rewrite elem_of_remove_dups. }
  replace (length (member t)) with (length (Some <$> remove_dups pids))
    by by rewrite length_fmap, <- Hperm, length_fmap.
  destruct (NoDup_subseteq_length (Some <$> remove_dups pids) (remove_dups (run_ids evs)))
    as [Hle Hiff].
  - apply NoDup_fmap_2; [apply _|apply NoDup_remove_dups].
  - apply NoDup_remove_dups.
  - intros x (p & -> & Hp)%list_elem_of_fmap.
    apply (proj1 (elem_of_remove_dups _ _)) in Hp.
    apply (proj2 (elem_of_remove_dups _ _)). unfold pids in Hp.
    apply list_elem_of_fmap in Hp as (y & -> & Hy). by apply mention_in_run_ids.
  - split; [done|]. rewrite Hiff. split.
    + intros Hsup x Hx. apply (proj2 (elem_of_remove_dups _ _)) in Hx.
      apply Hsup, list_elem_of_fmap in Hx as (p & -> & Hp).
      apply (proj1 (elem_of_remove_dups _ _)) in Hp. eauto.
    + intros Hall x Hx. apply (proj1 (elem_of_remove_dups _ _)) in Hx.
      destruct (Hall x Hx) as (p & -> & Hp).
      apply list_elem_of_fmap. exists p. split; [done|].
      by apply (proj2 (elem_of_remove_dups _ _)).
Qed.

End Members.

Import WorkerManager.

(** ** The worker manager *)

Lemma request_id_inj : Inj (=) (=) request_id.
Proof.
  intros a b H. unfold request_id in H. cbn [String.append] in H.
  injection H as H. by apply pretty_nat_inj in H.
Qed.

Lemma reject_all_spec l m :
  worker (reject_all m l) = worker m /\
  requestIdCounter (reject_all m l) = requestIdCounter m /\
  promises (reject_all m l) = promises m /\
  timers (reject_all m l) = timers m /\
  progressCalls (reject_all m l) = progressCalls m /\
  posted (reject_all m l) = posted m /\
  calls (reject_all m l) = calls m ++ exit_calls l /\
  forall k, pendingRequests (reject_all m l) !! k =
            if decide (k ∈ l.*1) then None else pendingRequests m !! k.
Proof.
  revert m. induction l as [|[id p] l IH]; intros m.
  - unfold reject_all, exit_calls. simpl. rewrite app_nil_r. repeat split; done.
  - change (reject_all m ((id, p) :: l)) with
      (reject_all (pending_delete id
                     (call (promise p) (Reject "Worker exited unexpectedly") m)) l).
    destruct (IH (pending_delete id (call (promise p) (Reject "Worker exited unexpectedly") m)))
      as (E1 & E2 & E3 & E4 & E5 & E6 & E7 & E8).
    rewrite E1, E2, E3, E4, E5, E6, E7. repeat split; try done.
    + unfold exit_calls. cbn [calls pending_delete call]. rewrite fmap_cons.
      by rewrite <- app_assoc.
    + intros k. rewrite E8. cbn [pendingRequests pending_delete call].
      rewrite fmap_cons. cbn [fst].
      destruct (decide (k = id)) as [->|Hne].
      * rewrite lookup_delete_eq. rewrite (decide_True (P := id ∈ id :: l.*1)) by by left.
        by case_decide.
      * rewrite lookup_delete_ne by done.
        destruct (decide (k ∈ l.*1)) as [Hin|Hnin].
        -- rewrite decide_True; [done|]. by right.
        -- rewrite decide_False; [done|]. by intros [?|?]%elem_of_cons.
Qed.

Lemma on_exit_spec m :
  worker (on_exit m) = false /\
  requestIdCounter (on_exit m) = requestIdCounter m /\
  promises (on_exit m) = promises m /\
  timers (on_exit m) = timers m /\
  calls (on_exit m) = calls m ++ exit_calls (map_to_list (pendingRequests m)) /\
  pendingRequests (on_exit m) = ∅.
Proof.
  unfold on_exit.
  match goal with |- context [foldl ?f ?m0 ?l] =>
    change (foldl f m0 l) with (reject_all m0 l);
    destruct (reject_all_spec l m0) as (E1 & E2 & E3 & E4 & E5 & E6 & E7 & E8)
  end.
  simpl in *. repeat split; try done.
  apply map_eq. intros k. rewrite E8, lookup_empty.
  case_decide as Hk; [done|].
  destruct (pendingRequests m !! k) as [p|] eqn:E; [|done].
  exfalso. apply Hk. apply list_elem_of_fmap. exists (k, p). split; [done|].
  by apply elem_of_map_to_list.
Qed.

Lemma MInv_init : MInv init.
Proof. split; simpl; try done; try constructor; by intros ? ?%elem_of_nil. Qed.

Lemma fst_calls_snoc (l : list (nat * Settlement)) h o : (l ++ [(h, o)]).*1 = l.*1 ++ [h].
Proof. by rewrite fmap_app. Qed.

Lemma NoDup_snoc {A} (l : list A) x : NoDup l -> x ∉ l -> NoDup (l ++ [x]).
Proof.
  intros H1 H2. apply NoDup_app. split; [done|]. split; [|apply NoDup_singleton].
  intros y Hy ->%list_elem_of_singleton. done.
Qed.

Lemma MInv_send ty payload prog initOk m : MInv m -> MInv (send ty payload prog initOk m).
Proof.
  intros [Hp Ht Hl Hi Hc Hb]. unfold send.
  destruct (negb (worker m) && negb initOk).
  - split; simpl.
    + intros id p E. destruct (Hp _ _ E) as (Hk & Hlt & Hn).
      split; [done|]. split; [lia|]. rewrite fst_calls_snoc.
      intros [?|Hx%list_elem_of_singleton]%elem_of_app; [done|lia].
    + intros h id ty' E. destruct (Ht _ _ _ E). split; [lia|done].
    + done.
    + done.
    + rewrite fst_calls_snoc. apply NoDup_snoc; [done|]. intros H%Hb. lia.
    + intros h. rewrite fst_calls_snoc.
      intros [H%Hb| ->%list_elem_of_singleton]%elem_of_app; lia.
  - assert (forall k, k <= requestIdCounter m ->
              request_id k <> request_id (S (requestIdCounter m))) as Hfresh.
    { intros k Hk E%request_id_inj. lia. }
    split; simpl.
    + intros id p. destruct (decide (id = request_id (S (requestIdCounter m)))) as [->|Hne].
      * rewrite lookup_insert_eq. intros [= <-]. simpl.
        split; [eauto|]. split; [lia|]. intros H%Hb. lia.
      * rewrite lookup_insert_ne by done. intros E.
        destruct (Hp _ _ E) as ((k & -> & Hk) & Hlt & Hn).
        split; [exists k; split; [done|lia]|]. split; [lia|done].
    + intros h id ty'. destruct (decide (h = promises m)) as [->|Hne].
      * rewrite lookup_insert_eq. intros [= <- <-]. split; [lia|eauto].
      * rewrite lookup_insert_ne by done. intros E.
        destruct (Ht _ _ _ E) as (Hlt & k & -> & Hk). split; [lia|].
        exists k. split; [done|lia].
    + intros h id ty' p. destruct (decide (h = promises m)) as [->|Hne].
      * rewrite lookup_insert_eq. intros [= <- <-]. rewrite lookup_insert_eq.
        by intros [= <-].
      * rewrite lookup_insert_ne by done. intros E.
        destruct (Ht _ _ _ E) as (Hlt & k & -> & Hk).
        rewrite lookup_insert_ne by (apply not_eq_sym, Hfresh; done). intros E2. eauto.
    + intros id id' p p'.
      destruct (decide (id = request_id (S (requestIdCounter m)))) as [->|Hne];
        destruct (decide (id' = request_id (S (requestIdCounter m)))) as [->|Hne'];
        rewrite ?lookup_insert_eq, ?lookup_insert_ne by done; try done.
      * intros [= <-] E. simpl. destruct (Hp _ _ E) as (_ & ? & _). lia.
      * intros E [= <-]. simpl. destruct (Hp _ _ E) as (_ & ? & _). lia.
      * apply Hi.
    + done.
    + intros h H%Hb. lia.
Qed.

(** A pending entry is settled and removed. *)
Lemma MInv_settle id p o m :
  MInv m -> pendingRequests m !! id = Some p ->
  MInv (call (promise p) o (pending_delete id m)).
Proof.
  intros [Hp Ht Hl Hi Hc Hb] E. destruct (Hp _ _ E) as (_ & Hlt & Hn).
  split; simpl.
  - intros id' p' E'. apply lookup_delete_Some in E' as [Hne E'].
    destruct (Hp _ _ E') as (Hk & Hlt' & Hn'). split; [done|]. split; [done|].
    rewrite fst_calls_snoc. intros [?|Heq%list_elem_of_singleton]%elem_of_app; [done|].
    apply Hne. symmetry. eapply Hi; eauto.
  - apply Ht.
  - intros h id' ty p' E1 E2. apply lookup_delete_Some in E2 as [_ E2]. eauto.
  - intros id1 id2 p1 p2 E1 E2. apply lookup_delete_Some in E1 as [_ E1].
    apply lookup_delete_Some in E2 as [_ E2]. eauto.
  - rewrite fst_calls_snoc. by apply NoDup_snoc.
  - intros h. rewrite fst_calls_snoc.
    intros [H%Hb| ->%list_elem_of_singleton]%elem_of_app; lia.
Qed.

Lemma MInv_same m m' :
  MInv m ->
  pendingRequests m' = pendingRequests m -> requestIdCounter m' = requestIdCounter m ->
  promises m' = promises m -> timers m' = timers m -> calls m' = calls m ->
  MInv m'.
Proof. intros [Hp Ht Hl Hi Hc Hb] E1 E2 E3 E4 E5. split; rewrite ?E1, ?E2, ?E3, ?E4, ?E5; done. Qed.

Lemma MInv_on_message msg m : MInv m -> MInv (on_message msg m).
Proof.
  intros HI. unfold on_message.
  destruct (pendingRequests m !! wm_id msg) as [p|] eqn:E; [|done].
  destruct (wm_type msg =? "progress").
  - destruct (onProgress p); [|done]. by eapply MInv_same.
  - destruct (wm_success msg); by apply MInv_settle.
Qed.

Lemma MInv_on_timeout h m : MInv m -> MInv (on_timeout h m).
Proof.
  intros HI. unfold on_timeout.
  destruct (timers m !! h) as [[id ty]|] eqn:E; [|done].
  assert (MInv {| worker := worker m; pendingRequests := pendingRequests m;
                  requestIdCounter := requestIdCounter m; promises := promises m;
                  timers := delete h (timers m); calls := calls m;
                  progressCalls := progressCalls m; posted := posted m |}) as HI'.
  { destruct HI as [Hp Ht Hl Hi Hc Hb]. split; simpl; try done.
    - intros h' id' ty' [_ E']%lookup_delete_Some. eauto.
    - intros h' id' ty' p [_ E']%lookup_delete_Some. eauto. }
  cbn [pendingRequests]. case_bool_decide as Hs; [|done].
  destruct Hs as [p Hp].
  pose proof (MInv_settle id p (Reject ("Worker request timeout: " +:+ ty)) _ HI' Hp) as R.
  by rewrite (minv_link _ HI _ _ _ _ E Hp) in R.
Qed.

Lemma NoDup_exit_calls m :
  MInv m ->
  NoDup ((calls m).*1 ++ (exit_calls (map_to_list (pendingRequests m))).*1).
Proof.
  intros [Hp Ht Hl Hi Hc Hb]. apply NoDup_app. split; [done|]. split.
  - intros h Hh (e & -> & (e' & -> & He')%list_elem_of_fmap)%list_elem_of_fmap.
    destruct e' as [id p]. apply elem_of_map_to_list in He'. simpl in Hh.
    by destruct (Hp _ _ He') as (_ & _ & ?).
  - unfold exit_calls. rewrite <- list_fmap_compose.
    apply NoDup_fmap_2_strong; [|apply NoDup_map_to_list].
    intros [id p] [id' p'] H1%elem_of_map_to_list H2%elem_of_map_to_list Heq.
    simpl in Heq. assert (id = id') as <- by eauto. congruence.
Qed.

Lemma MInv_on_exit m : MInv m -> MInv (on_exit m).
Proof.
  intros HI. pose proof (NoDup_exit_calls m HI) as Hnd.
  destruct (on_exit_spec m) as (E1 & E2 & E3 & E4 & E5 & E6).
  destruct HI as [Hp Ht Hl Hi Hc Hb].
  split; rewrite ?E2, ?E3, ?E4, ?E5, ?E6.
  - by intros id p ?%lookup_empty_Some.
  - done.
  - by intros h id ty p _ ?%lookup_empty_Some.
  - by intros id id' p p' ?%lookup_empty_Some.
  - by rewrite fmap_app.
  - intros h. rewrite fmap_app.
    intros [H%Hb|(e & -> & (e' & -> & He')%list_elem_of_fmap)%list_elem_of_fmap]%elem_of_app;
      [done|].
    destruct e' as [id p]. apply elem_of_map_to_list in He'. simpl.
    by destruct (Hp _ _ He') as (_ & ? & _).
Qed.

Lemma MInv_closeWorker m : MInv m -> MInv (closeWorker m).
Proof.
  intros HI. unfold closeWorker. destruct (worker m); [|done].
  eapply MInv_same; [apply (MInv_send "closeAll" "{}" None true m HI)|done..].
Qed.

Lemma MInv_step ev m : MInv m -> MInv (step ev m).
Proof.
  intros HI. destruct ev; simpl.
  - by apply MInv_send.
  - by apply MInv_on_message.
  - by apply MInv_on_exit.
  - done.
  - by apply MInv_on_timeout.
  - by apply MInv_closeWorker.
Qed.

Lemma MInv_steps evs m : MInv m -> MInv (steps evs m).
Proof.
  revert m. induction evs as [|ev evs IH]; intros m HI; [done|].
  simpl. apply IH. by apply MInv_step.
Qed.

Lemma settled_count_le evs p : settled_count p (steps evs init) <= 1.
Proof.
  unfold settled_count. apply NoDup_fmap_filter_length.
  apply minv_calls, MInv_steps, MInv_init.
Qed.

Lemma MInv_settled_le m p : MInv m -> settled_count p m <= 1.
Proof. intros HI. unfold settled_count. apply NoDup_fmap_filter_length, minv_calls, HI. Qed.

Lemma settled_count_0 m p : p ∉ (calls m).*1 -> settled_count p m = 0.
Proof. intros H. unfold settled_count. by rewrite filter_fmap_absent. Qed.

Lemma calls_step ev m : exists l, calls (step ev m) = calls m ++ l.
Proof.
  destruct ev; simpl.
  - unfold send. destruct (_ && _); simpl; [eauto|]. exists []. by rewrite app_nil_r.
  - unfold on_message. destruct (_ !! _) as [p|]; [|exists []; by rewrite app_nil_r].
    destruct (_ =? _).
    + destruct (onProgress p); exists []; by rewrite app_nil_r.
    + destruct (wm_success m0); simpl; eauto.
  - destruct (on_exit_spec m) as (_ & _ & _ & _ & E & _). eauto.
  - exists []. by rewrite app_nil_r.
  - unfold on_timeout. destruct (_ !! _) as [[id ty]|]; [|exists []; by rewrite app_nil_r].
    case_bool_decide; simpl; [eauto|]. exists []. by rewrite app_nil_r.
  - unfold closeWorker, send. rewrite andb_false_r.
    destruct (worker m); simpl; exists []; by rewrite app_nil_r.
Qed.

Lemma calls_steps evs m : exists l, calls (steps evs m) = calls m ++ l.
Proof.
  revert m. induction evs as [|ev evs IH]; intros m; simpl.
  - exists []. by rewrite app_nil_r.
  - destruct (IH (step ev m)) as [l ->]. destruct (calls_step ev m) as [l' ->].
    exists (l' ++ l). by rewrite app_assoc.
Qed.

Lemma settled_count_mono evs m p : settled_count p m <= settled_count p (steps evs m).
Proof.
  unfold settled_count. destruct (calls_steps evs m) as [l ->].
  rewrite filter_app, length_app. lia.
Qed.

Lemma armed_send ty payload prog m :
  MInv m ->
  armed (request_id (S (requestIdCounter m))) (promises m) ty (send ty payload prog true m).
Proof.
  intros HI. unfold send. rewrite andb_false_r. split; simpl.
  - eexists. rewrite lookup_insert_eq. done.
  - by rewrite lookup_insert_eq.
Qed.

Lemma armed_fresh id h ty m :
  MInv m -> armed id h ty m ->
  id <> request_id (S (requestIdCounter m)) /\ h <> promises m.
Proof.
  intros HI [(p & Hp & <-) Ht].
  destruct (minv_pending _ HI _ _ Hp) as ((k & -> & Hk) & Hlt & _).
  split; [|lia]. intros E%request_id_inj. lia.
Qed.

Lemma armed_after_send id h ty ty' payload prog initOk m :
  MInv m -> armed id h ty m -> armed id h ty (send ty' payload prog initOk m).
Proof.
  intros HI Ha. destruct (armed_fresh _ _ _ _ HI Ha) as [Hid Hh].
  destruct Ha as [(p & Hp & Hph) Ht].
  unfold send. destruct (_ && _); [by split; eauto|]. split; simpl.
  - exists p. by rewrite lookup_insert_ne.
  - by rewrite lookup_insert_ne.
Qed.

Lemma armed_step id h ty ev m :
  MInv m -> armed id h ty m -> quiet id h ev -> armed id h ty (step ev m).
Proof.
  intros HI Ha Hq. destruct ev; simpl in *.
  - by apply armed_after_send.
  - destruct Ha as [(p & Hp & Hph) Ht]. unfold on_message.
    destruct (pendingRequests m !! wm_id m0) as [p'|] eqn:E; [|by split; eauto].
    destruct (String.eqb_spec (wm_type m0) "progress") as [Hprog|Hterm].
    + destruct (onProgress p'); by split; eauto.
    + destruct Hq as [Hne|?]; [|done].
      destruct (wm_success m0); (split; simpl; [|done]);
        exists p; by rewrite lookup_delete_ne.
  - done.
  - done.
  - destruct Ha as [(p & Hp & Hph) Ht]. unfold on_timeout.
    destruct (timers m !! timer) as [[id' ty']|] eqn:E; [|by split; eauto].
    assert (id' <> id) as Hne.
    { intros ->. apply Hq. rewrite <- Hph. symmetry. eapply minv_link; eauto. }
    cbn [pendingRequests]. case_bool_decide; (split; simpl; [|by rewrite lookup_delete_ne]).
    + exists p. by rewrite lookup_delete_ne.
    + eauto.
  - unfold closeWorker. destruct (worker m); [|done].
    pose proof (armed_after_send id h ty "closeAll" "{}" None true m HI Ha) as [? ?].
    by split.
Qed.

Lemma armed_steps id h ty evs m :
  MInv m -> armed id h ty m -> Forall (quiet id h) evs -> armed id h ty (steps evs m).
Proof.
  revert m. induction evs as [|ev evs IH]; intros m HI Ha Hq; [done|].
  apply Forall_cons in Hq as [Hq Hqs]. simpl. apply IH; [by apply MInv_step| |done].
  by apply armed_step.
Qed.

Lemma armed_unsettled id h ty m : MInv m -> armed id h ty m -> h ∉ (calls m).*1.
Proof.
  intros HI [(p & Hp & <-) _]. by destruct (minv_pending _ HI _ _ Hp) as (_ & _ & ?).
Qed.

Lemma on_timeout_armed id h ty m :
  armed id h ty m ->
  calls (on_timeout h m) = calls m ++ [(h, Reject ("Worker request timeout: " +:+ ty))] /\
  pendingRequests (on_timeout h m) !! id = None.
Proof.
  intros [(p & Hp & Hph) Ht]. unfold on_timeout. rewrite Ht. cbn [pendingRequests].
  rewrite bool_decide_eq_true_2 by eauto. simpl. split; [done|]. apply lookup_delete_eq.
Qed.

(** C7 (timeout, exactly once). After any history [evs0] of the manager,
    let a request be sent: it gets the id [id] and the promise [h]. Let
    then [evs] happen, in which the worker stays alive, no terminal
    message carries [id] (progress messages may) and the timer of the
    request does not fire. Then the request is still pending and
    unsettled, and when its timer fires the promise is rejected with the
    timeout error and the entry is removed. Whatever happens afterwards
    (a late terminal message, other timers, the exit of the worker), the
    promise has been settled exactly once, and no promise at all has
    been settled twice. Indeed no history of sends, messages, timers,
    exits and closes settles any promise twice. *)
Theorem timeout_settles_exactly_once evs0 ty payload prog ms evs evs' :
  let m0 := steps evs0 init in
  let id := request_id (S (requestIdCounter m0)) in
  let h := promises m0 in
  let m2 := steps evs (step (Send ty payload prog ms true) m0) in
  let m3 := step (TimerFires h) m2 in
  Forall (quiet id h) evs ->
  is_Some (pendingRequests m2 !! id) /\ settled_count h m2 = 0 /\
  calls m3 = calls m2 ++ [(h, Reject ("Worker request timeout: " +:+ ty))] /\
  pendingRequests m3 !! id = None /\
  settled_count h (steps evs' m3) = 1 /\
  (forall p, settled_count p (steps evs' m3) <= 1) /\
  forall history p, settled_count p (steps history init) <= 1.
Proof.
  intros m0 id h m2 m3 Hq.
  assert (MInv m0) as HI0 by apply MInv_steps, MInv_init.
  assert (MInv (step (Send ty payload prog ms true) m0)) as HI1 by by apply MInv_step.
  assert (MInv m2) as HI2 by by apply MInv_steps.
  assert (MInv m3) as HI3 by by apply MInv_step.
  assert (armed id h ty m2) as Ha.
  { apply armed_steps; [done| |done]. by apply armed_send. }
  destruct (on_timeout_armed _ _ _ _ Ha) as [Hc Hp].
  split; [destruct Ha as [(p & -> & _) _]; eauto|].
  split; [eapply settled_count_0, armed_unsettled; eauto|].
  split; [done|]. split; [done|]. split.
  - apply Nat.le_antisymm; [apply MInv_settled_le; by apply MInv_steps|].
    etrans; [|apply settled_count_mono]. unfold settled_count, m3. simpl. rewrite Hc.
    rewrite filter_app, length_app, filter_cons_True by done. simpl. lia.
  - split; [intros p; apply MInv_settled_le; by apply MInv_steps|].
    intros history p. apply MInv_settled_le, MInv_steps, MInv_init.
Qed.

(** C8 (exit of the worker). After any history of the manager, the exit
    handler leaves [pendingRequests] empty and [worker] null; every
    request that was pending had not been settled and is rejected, once,
    with the error [Worker exited unexpectedly]; and no promise is
    settled twice by anything that happens later. *)
Theorem worker_exit_rejects_all evs code :
  let m := steps evs init in
  let m' := step (Exit code) m in
  pendingRequests m' = ∅ /\ worker m' = false /\
  (forall id p, pendingRequests m !! id = Some p ->
     settled_count (promise p) m = 0 /\
     (promise p, Reject "Worker exited unexpectedly") ∈ calls m' /\
     settled_count (promise p) m' = 1) /\
  forall evs' p, settled_count p (steps evs' m') <= 1.
Proof.
  intros m m'.
  assert (MInv m) as HI by apply MInv_steps, MInv_init.
  assert (MInv m') as HI' by by apply MInv_step.
  destruct (on_exit_spec m) as (E1 & _ & _ & _ & E5 & E6).
  split; [done|]. split; [done|]. split.
  - intros id p Hp.
    assert ((promise p, Reject "Worker exited unexpectedly") ∈ calls m') as Hin.
    { unfold m'. simpl. rewrite E5. apply elem_of_app. right.
      apply list_elem_of_fmap. exists (id, p). split; [done|]. by apply elem_of_map_to_list. }
    destruct (minv_pending _ HI _ _ Hp) as (_ & _ & Hn).
    split; [by apply settled_count_0|]. split; [done|].
    apply Nat.le_antisymm; [by apply MInv_settled_le|].
    unfold settled_count.
    assert ((promise p, Reject "Worker exited unexpectedly")
              ∈ filter (fun c : nat * Settlement => c.1 = promise p) (calls m')) as Hf.
    { by apply list_elem_of_filter. }
    destruct (filter _ (calls m')); [by apply elem_of_nil in Hf|simpl; lia].
  - intros evs' p. apply MInv_settled_le. by apply MInv_steps.
Qed.

(** ** The records of a request *)

Import Ledger.

Lemma Linked_init : Linked init.
Proof. split; simpl; done. Qed.

Lemma Linked_send ty payload prog initOk m :
  MInv m -> Linked m -> Linked (send ty payload prog initOk m).
Proof.
  intros HI [Hp Ht Hy]. unfold send. destruct (negb (worker m) && negb initOk); [by split|].
  split; cbn [posted requestIdCounter pendingRequests timers].
  - unfold posted_ids in *. cbn [posted]. rewrite fmap_app, Hp.
    rewrite seq_S, fmap_app. done.
  - intros id p. destruct (decide (id = request_id (S (requestIdCounter m)))) as [->|Hne].
    + rewrite lookup_insert_eq. intros [= <-]. simpl. rewrite lookup_insert_eq. eauto.
    + rewrite lookup_insert_ne by done. intros E. destruct (Ht _ _ E) as [ty' Hty].
      exists ty'. rewrite lookup_insert_ne; [done|].
      destruct (minv_pending _ HI _ _ E) as (_ & ? & _). lia.
  - intros h id ty'. destruct (decide (h = promises m)) as [->|Hne].
    + rewrite lookup_insert_eq. intros [= <- <-]. exists payload.
      apply elem_of_app. right. by apply list_elem_of_singleton.
    + rewrite lookup_insert_ne by done. intros E. destruct (Hy _ _ _ E) as [pl Hpl].
      exists pl. apply elem_of_app. by left.
Qed.

Lemma Linked_on_message msg m : Linked m -> Linked (on_message msg m).
Proof.
  intros [Hp Ht Hy]. unfold on_message.
  destruct (pendingRequests m !! wm_id msg) as [p|] eqn:E; [|done].
  destruct (wm_type msg =? "progress").
  - destruct (onProgress p); by split.
  - destruct (wm_success msg); (split; simpl; [done| |done]);
      intros id p' [_ E']%lookup_delete_Some; eauto.
Qed.

Lemma Linked_on_timeout h m : MInv m -> Linked m -> Linked (on_timeout h m).
Proof.
  intros HI [Hp Ht Hy]. unfold on_timeout.
  destruct (timers m !! h) as [[id ty]|] eqn:E; [|done].
  cbn [pendingRequests]. case_bool_decide as Hs.
  - split; simpl; [done| |].
    + intros id' p' [Hne E']%lookup_delete_Some. destruct (Ht _ _ E') as [ty' Hty].
      exists ty'. rewrite lookup_delete_ne; [done|]. intros ->. congruence.
    + intros h' id' ty' [_ E']%lookup_delete_Some. eauto.
  - split; simpl; [done| |].
    + intros id' p' E'. destruct (Ht _ _ E') as [ty' Hty].
      exists ty'. rewrite lookup_delete_ne; [done|]. intros ->.
      apply Hs. rewrite E in Hty. injection Hty as -> _. eauto.
    + intros h' id' ty' [_ E']%lookup_delete_Some. eauto.
Qed.

Lemma Linked_on_exit m : Linked m -> Linked (on_exit m).
Proof.
  intros [Hp Ht Hy]. destruct (on_exit_spec m) as (E1 & E2 & E3 & E4 & E5 & E6).
  assert (posted (on_exit m) = posted m) as E7.
  { unfold on_exit.
    match goal with |- context [foldl ?f ?m0 ?l] =>
      change (foldl f m0 l) with (reject_all m0 l);
      destruct (reject_all_spec l m0) as (_ & _ & _ & _ & _ & E & _)
    end. by rewrite E. }
  split.
  - unfold posted_ids in *. by rewrite E7, E2.
  - rewrite E6. by intros id p ?%lookup_empty_Some.
  - rewrite E4, E7. done.
Qed.

Lemma Linked_closeWorker m : MInv m -> Linked m -> Linked (closeWorker m).
Proof.
  intros HI HL. unfold closeWorker. destruct (worker m); [|done].
  destruct (Linked_send "closeAll" "{}" None true m HI HL) as [Hp Ht Hy]. by split.
Qed.

Lemma Linked_step ev m : MInv m -> Linked m -> Linked (step ev m).
Proof.
  intros HI HL. destruct ev; simpl.
  - by apply Linked_send.
  - by apply Linked_on_message.
  - by apply Linked_on_exit.
  - done.
  - by apply Linked_on_timeout.
  - by apply Linked_closeWorker.
Qed.

Lemma Linked_steps evs m : MInv m -> Linked m -> Linked (steps evs m).
Proof.
  revert m. induction evs as [|ev evs IH]; intros m HI HL; [done|].
  simpl. apply IH; [by apply MInv_step|by apply Linked_step].
Qed.

Lemma NoDup_request_ids n : NoDup (request_id <$> seq 1 n).
Proof. apply NoDup_fmap_2; [apply request_id_inj|apply NoDup_seq]. Qed.

(** X21 (correlation ids). After any history of the manager, the ids of the
    messages posted to the worker are [req_1], [req_2], ..., one per
    message and in this order, up to the request counter: no id is posted
    twice, and every pending entry is filed under an id that was posted. *)
Theorem posted_ids_are_sequential evs :
  let m := steps evs init in
  posted_ids m = request_id <$> seq 1 (requestIdCounter m) /\
  length (posted m) = requestIdCounter m /\
  NoDup (posted_ids m) /\
  forall id p, pendingRequests m !! id = Some p -> id ∈ posted_ids m.
Proof.
  intros m.
  assert (MInv m) as HI by apply MInv_steps, MInv_init.
  assert (Linked m) as [Hp Ht Hy] by (apply Linked_steps; [apply MInv_init|apply Linked_init]).
  split; [done|]. split; [|split].
  - rewrite <- (length_fmap (fun x => x.1.1)). fold (posted_ids m).
    by rewrite Hp, length_fmap, length_seq.
  - rewrite Hp. apply NoDup_request_ids.
  - intros id p E. destruct (Ht _ _ E) as [ty Hty]. destruct (Hy _ _ _ Hty) as [pl Hpl].
    apply list_elem_of_fmap. by exists (id, ty, pl).
Qed.

(** X22 (a pending request can always time out). After any history of the
    manager, every pending entry still has its timer armed, and the timer
    closes over the type the request was posted with. When that timer
    fires, the request is rejected with the timeout error of its type
    and its entry is removed; having been unsettled before, its promise
    is then settled exactly once. *)
Theorem pending_request_has_timer evs id p :
  let m := steps evs init in
  pendingRequests m !! id = Some p ->
  exists ty payload,
    timers m !! promise p = Some (id, ty) /\
    (id, ty, payload) ∈ posted m /\
    settled_count (promise p) m = 0 /\
    let m' := step (TimerFires (promise p)) m in
    calls m' = calls m ++ [(promise p, Reject ("Worker request timeout: " +:+ ty))] /\
    pendingRequests m' = delete id (pendingRequests m) /\
    settled_count (promise p) m' = 1.
Proof.
  intros m E.
  assert (MInv m) as HI by apply MInv_steps, MInv_init.
  assert (Linked m) as [Hp Ht Hy] by (apply Linked_steps; [apply MInv_init|apply Linked_init]).
  destruct (Ht _ _ E) as [ty Hty]. destruct (Hy _ _ _ Hty) as [pl Hpl].
  exists ty, pl. split; [done|]. split; [done|].
  destruct (minv_pending _ HI _ _ E) as (_ & _ & Hn).
  split; [by apply settled_count_0|]. simpl. unfold on_timeout. rewrite Hty.
  cbn [pendingRequests]. rewrite bool_decide_eq_true_2 by eauto. simpl.
  split; [done|]. split; [done|].
  unfold settled_count. simpl. rewrite filter_app, length_app.
  fold (settled_count (promise p) m). rewrite settled_count_0 by done.
  by rewrite filter_cons_True.
Qed.

(** X23 (the exit of a replaced worker). Let the manager hold a worker, let
    [closeWorker] be called and then a request be sent, for which a new
    worker is created. When the exit event of the terminated worker
    arrives after that, its handler rejects the new request with [Worker
    exited unexpectedly], although the message was posted to the new
    worker, and sets [worker] to null. *)
Theorem exit_of_closed_worker_rejects_new_request evs ty payload prog ms code :
  let m := steps evs init in
  let sent := steps [CloseWorker; Send ty payload prog ms true] m in
  let m' := step (Exit code) sent in
  worker m = true ->
  worker sent = true /\
  (exists id, last (posted sent) = Some (id, ty, payload) /\
     exists p, pendingRequests sent !! id = Some p /\
       settled_count (promise p) sent = 0 /\
       (promise p, Reject "Worker exited unexpectedly") ∈ calls m' /\
       settled_count (promise p) m' = 1) /\
  worker m' = false /\ pendingRequests m' = ∅.
Proof.
  intros m sent m' Hw.
  assert (MInv m) as HI by apply MInv_steps, MInv_init.
  assert (MInv sent) as HI1 by by apply MInv_steps.
  assert (MInv m') as HI2 by by apply MInv_step.
  destruct (on_exit_spec sent) as (E1 & _ & _ & _ & E5 & E6).
  assert (exists id p, last (posted sent) = Some (id, ty, payload) /\
                       pendingRequests sent !! id = Some p /\ worker sent = true)
    as (id & p & Hlast & Hp & Hws).
  { unfold sent. simpl. unfold closeWorker. rewrite Hw. unfold send at 1. simpl.
    unfold send. rewrite Hw. simpl.
    eexists _, _. rewrite last_snoc, lookup_insert_eq. done. }
  split; [done|]. split; [|by split].
  exists id. split; [done|]. exists p. split; [done|].
  destruct (minv_pending _ HI1 _ _ Hp) as (_ & _ & Hn).
  assert ((promise p, Reject "Worker exited unexpectedly") ∈ calls m') as Hin.
  { unfold m'. simpl. rewrite E5. apply elem_of_app. right.
    apply list_elem_of_fmap. exists (id, p). split; [done|]. by apply elem_of_map_to_list. }
  split; [by apply settled_count_0|]. split; [done|].
  apply Nat.le_antisymm; [by apply MInv_settled_le|].
  unfold settled_count.
  assert ((promise p, Reject "Worker exited unexpectedly")
            ∈ filter (fun c : nat * Settlement => c.1 = promise p) (calls m')) as Hf.
  { by apply list_elem_of_filter. }
  destruct (filter _ (calls m')); [by apply elem_of_nil in Hf|simpl; lia].
Qed.

Lemma accounted_init : accounted init.
Proof. intros h Hh. simpl in Hh. lia. Qed.

Lemma accounted_send ty payload prog initOk m :
  MInv m -> accounted m -> accounted (send ty payload prog initOk m).
Proof.
  intros HI HA h Hh. unfold send in *.
  destruct (negb (worker m) && negb initOk); cbn [promises calls pendingRequests] in *.
  - destruct (decide (h = promises m)) as [->|Hne].
    + left. rewrite fmap_app. apply elem_of_app. right. by apply list_elem_of_singleton.
    + destruct (HA h) as [Hc|Hp]; [lia| |by right].
      left. rewrite fmap_app. apply elem_of_app. by left.
  - destruct (decide (h = promises m)) as [->|Hne].
    + right. eexists _, _. rewrite lookup_insert_eq. done.
    + destruct (HA h) as [Hc|(id & p & Hp & Hph)]; [lia|by left|].
      right. exists id, p. split; [|done]. rewrite lookup_insert_ne; [done|].
      intros <-. destruct (minv_pending _ HI _ _ Hp) as ((k & Hk%request_id_inj & ?) & _). lia.
Qed.

Lemma accounted_on_message msg m : accounted m -> accounted (on_message msg m).
Proof.
  intros HA h Hh. unfold on_message in *.
  destruct (pendingRequests m !! wm_id msg) as [pd|] eqn:E; [|by apply HA].
  destruct (wm_type msg =? "progress").
  - destruct (onProgress pd); by apply HA.
  - assert (h < promises m) as Hh' by by destruct (wm_success msg).
    assert (forall o, h ∈ (calls (call (promise pd) o (pending_delete (wm_id msg) m))).*1 \/
              exists id p, pendingRequests (call (promise pd) o (pending_delete (wm_id msg) m))
                             !! id = Some p /\ promise p = h) as Hgoal.
    { intros o. simpl. rewrite fmap_app.
      destruct (HA h Hh') as [Hc|(id & p & Hp & Hph)].
      - left. apply elem_of_app. by left.
      - destruct (decide (id = wm_id msg)) as [->|Hne].
        + left. apply elem_of_app. right. rewrite E in Hp. injection Hp as <-.
          rewrite Hph. by apply list_elem_of_singleton.
        + right. exists id, p. by rewrite lookup_delete_ne. }
    destruct (wm_success msg); apply Hgoal.
Qed.

Lemma accounted_on_exit m : accounted m -> accounted (on_exit m).
Proof.
  intros HA h Hh. destruct (on_exit_spec m) as (_ & _ & E3 & _ & E5 & _).
  rewrite E3 in Hh. left. rewrite E5, fmap_app. apply elem_of_app.
  destruct (HA h Hh) as [Hc|(id & p & Hp & Hph)]; [by left|right].
  unfold exit_calls. rewrite <- list_fmap_compose. apply list_elem_of_fmap.
  exists (id, p). split; [done|]. by apply elem_of_map_to_list.
Qed.

Lemma accounted_on_timeout t m : MInv m -> accounted m -> accounted (on_timeout t m).
Proof.
  intros HI HA h Hh. unfold on_timeout in *.
  destruct (timers m !! t) as [[id ty]|] eqn:E; [|by apply HA].
  cbn [pendingRequests] in *. case_bool_decide as Hs; [|by apply HA].
  simpl in *. rewrite fmap_app.
  destruct (HA h Hh) as [Hc|(id' & p & Hp & Hph)].
  - left. apply elem_of_app. by left.
  - destruct (decide (id' = id)) as [->|Hne].
    + left. apply elem_of_app. right. apply list_elem_of_singleton.
      simpl. rewrite <- Hph. by eapply (minv_link _ HI).
    + right. exists id', p. by rewrite lookup_delete_ne.
Qed.

Lemma accounted_closeWorker m : MInv m -> accounted m -> accounted (closeWorker m).
Proof.
  intros HI HA. unfold closeWorker. destruct (worker m); [|done].
  pose proof (accounted_send "closeAll" "{}" None true m HI HA) as H.
  intros h Hh. by apply H.
Qed.

Lemma accounted_step ev m : MInv m -> accounted m -> accounted (step ev m).
Proof.
  intros HI HA. destruct ev; simpl.
  - by apply accounted_send.
  - by apply accounted_on_message.
  - by apply accounted_on_exit.
  - done.
  - by apply accounted_on_timeout.
  - by apply accounted_closeWorker.
Qed.

Lemma accounted_steps evs m : MInv m -> accounted m -> accounted (steps evs m).
Proof.
  revert m. induction evs as [|ev evs IH]; intros m HI HA; [done|].
  simpl. apply IH; [by apply MInv_step|by apply accounted_step].
Qed.

Lemma settled_count_pos m p : p ∈ (calls m).*1 -> 0 < settled_count p m.
Proof.
  intros ([q o] & -> & Hin)%list_elem_of_fmap. unfold settled_count.
  assert ((q, o) ∈ filter (fun c : nat * Settlement => c.1 = (q, o).1) (calls m)) as Hf
    by by apply list_elem_of_filter.
  destruct (filter _ (calls m)); [by apply elem_of_nil in Hf|simpl; lia].
Qed.

(** X24 (no promise is lost). After any history of the manager, every
    promise that [sendToWorker] or [sendToWorkerWithProgress] has
    returned is in exactly one of two states: it has been settled, once,
    and no entry of [pendingRequests] belongs to it; or it has not been
    settled, and then it has its entry, under exactly one id, with the
    timer of that id armed. No entry is ever removed without its promise
    being settled. *)
Theorem every_promise_is_pending_or_settled evs h :
  let m := steps evs init in
  h < promises m ->
  (settled_count h m = 1 /\
   forall id p, pendingRequests m !! id = Some p -> promise p <> h) \/
  (settled_count h m = 0 /\
   exists id ty, armed id h ty m /\
     forall id' p, pendingRequests m !! id' = Some p -> promise p = h -> id' = id).
Proof.
  intros m Hh.
  assert (MInv m) as HI by apply MInv_steps, MInv_init.
  assert (Linked m) as [_ Ht _] by (apply Linked_steps; [apply MInv_init|apply Linked_init]).
  assert (accounted m) as HA by (apply accounted_steps; [apply MInv_init|apply accounted_init]).
  destruct (HA h Hh) as [Hc|(id & p & Hp & Hph)].
  - left. split.
    + apply Nat.le_antisymm; [by apply MInv_settled_le|by apply settled_count_pos].
    + intros id p Hp <-. by destruct (minv_pending _ HI _ _ Hp) as (_ & _ & Hn).
  - right. destruct (minv_pending _ HI _ _ Hp) as (_ & _ & Hn). rewrite Hph in Hn.
    split; [by apply settled_count_0|].
    destruct (Ht _ _ Hp) as [ty Hty]. rewrite Hph in Hty.
    exists id, ty. split; [split; eauto|].
    intros id' p' Hp' Hph'. apply (minv_inj _ HI _ _ _ _ Hp' Hp). congruence.
Qed.

(** ** Sample runs *)

Lemma plain_started r fault :
  Started (Demo.plain r fault) Demo.fs0 Demo.path Demo.path None (init_state Demo.fs0 fault).
Proof.
  split; [by eexists|]. split; [reflexivity|]. split; [reflexivity|].
  split; [discriminate|]. discriminate.
Qed.


Lemma streamImport_skips_invalid_witness :
  let w := Demo.plain (Demo.run_of Demo.noisy_chat None) None in
  (forall m, is_valid m =
             negb (spec_invalid m) && negb (bool_decide (senderPlatformId m = Some ""))) /\
  exists s' t,
    run_streamImport w Demo.fs0 Demo.path =
      (Ok {| success := true; sessionId := Some (generateSessionId w); error := None |}, s') /\
    committed w s' = Some t /\
    length (message t) = 4 /\ length (st_console s') = 2.
Proof.
  intros w.
  apply (streamImport_skips_invalid w Demo.fs0 Demo.path Demo.path None (init_state Demo.fs0 None)
           (plain_started _ _)); reflexivity.
Defined.

(** C2, counterexample: the only message of the file has no timestamp.
    The preview reports one message; the import succeeds and commits no
    message row. *)
Example preview_count_differs :
  let missing_time := Demo.msg (Some "u1") (Some "Alice") None (Some 0%Z) in
  let w := Demo.plain (Demo.run_of [missing_time] None) None in
  info_messageCount <$>
    match (StreamParseFileInfo.streamParseFileInfo w Demo.path).1 with
    | Ok info => Some info
    | _ => None
    end = Some 1 /\
  (run_streamImport w Demo.fs0 Demo.path).1 =
    Ok {| success := true; sessionId := Some "chat_1700000000000_k3x9qa"; error := None |} /\
  (fun t => length (message t)) <$> committed w (run_streamImport w Demo.fs0 Demo.path).2 = Some 0.
Proof. vm_compute. done. Qed.

Lemma preview_counts_delivered_messages_witness :
  let w := Demo.plain (Demo.run_of Demo.noisy_chat None) None in
  exists t,
    committed w (run_streamImport w Demo.fs0 Demo.path).2 = Some t /\
    6 = length Demo.noisy_chat /\
    length (message t) = 4 /\
    (length (message t) = 6 <-> Forall (fun m => is_valid m) Demo.noisy_chat).
Proof.
  intros w.
  apply (preview_counts_delivered_messages w Demo.fs0 Demo.path Demo.path None
           (init_state Demo.fs0 None)
           {| info_name := "group"; info_format := "chatlab"; info_platform := "qq";
              info_messageCount := 6; info_memberCount := 3; info_fileSize := 1000 |}
           (StreamParseFileInfo.streamParseFileInfo w Demo.path).2
           {| success := true; sessionId := Some (generateSessionId w); error := None |}
           (run_streamImport w Demo.fs0 Demo.path).2 (plain_started _ _)).
  - vm_compute. reflexivity.
  - vm_compute. reflexivity.
  - reflexivity.
  - reflexivity.
Defined.

Lemma member_upsert_idempotent_witness :
  let w := Demo.plain (Demo.run_of Demo.chat None) None in
  let s' := (run_streamImport w Demo.fs0 Demo.path).2 in
  let t := default empty_tables (committed w s') in
  length (members_of "u1" t) <= 1 /\
  (forall res, (run_streamImport w Demo.fs0 Demo.path).1 = Ok res -> success res = true ->
     "u1" ∈ run_members (run_events (streamParseFile w Demo.path 5000)) \/
     observations "u1" (run_messages (run_events (streamParseFile w Demo.path 5000))) <> [] ->
     length (members_of "u1" t) = 1).
Proof.
  intros w s' t.
  apply (member_upsert_idempotent w Demo.fs0 Demo.path Demo.path None (init_state Demo.fs0 None)
           (plain_started _ _) (run_streamImport w Demo.fs0 Demo.path).1 s').
  - by destruct (run_streamImport w Demo.fs0 Demo.path).
  - vm_compute. reflexivity.
Defined.



(** C3, counterexample: a message whose [senderPlatformId] is the empty
    string has none of the defects that make a message invalid in the
    words of the specification, and yet the import skips it: of two such
    valid messages one row is committed. Moreover, the run with the
    skipped message and the run without it end with the same result, the
    same files, tables, maps and progress: they differ in the lines of
    the console only, no count of skipped messages exists. *)
Example empty_sender_id_is_dropped :
  let blank := Demo.msg (Some "") (Some "Bob") (Some (Num 5)) (Some 0%Z) in
  let kept := Demo.msg (Some "u2") (Some "Bob") (Some (Num 5)) (Some 0%Z) in
  let w := Demo.plain (Demo.run_of [kept; blank] None) None in
  let w' := Demo.plain (Demo.run_of [kept] None) None in
  let out := run_streamImport w Demo.fs0 Demo.path in
  let out' := run_streamImport w' Demo.fs0 Demo.path in
  spec_invalid blank = false /\ spec_invalid kept = false /\
  out.1 = Ok {| success := true; sessionId := Some "chat_1700000000000_k3x9qa";
                error := None |} /\
  (fun t => length (message t)) <$> committed w out.2 = Some 1 /\
  out.1 = out'.1 /\ st_fs out.2 = st_fs out'.2 /\ st_db out.2 = st_db out'.2 /\
  memberIdMap out.2 = memberIdMap out'.2 /\ nicknameTracker out.2 = nicknameTracker out'.2 /\
  st_sent out.2 = st_sent out'.2 /\
  st_console out.2 = ["[StreamImport] 跳过无效消息：缺少发送者信息"] /\ st_console out'.2 = [].
Proof. repeat split; vm_compute; reflexivity. Qed.


Lemma timeout_settles_exactly_once_witness :
  let evs := [Send "getSession" "{}" None 30000 true;
              Message (Demo.progress_of "req_1");
              Message (Demo.done_of "req_2" "null");
              TimerFires 1] in
  let late := [Message (Demo.done_of "req_1" "{success: true}"); TimerFires 0; Exit 1] in
  let m2 := steps evs (step (Send "streamImport" "{filePath}" (Some true) 600000 true) init) in
  let m3 := step (TimerFires 0) m2 in
  is_Some (pendingRequests m2 !! "req_1") /\ settled_count 0 m2 = 0 /\
  calls m3 = calls m2 ++ [(0, Reject "Worker request timeout: streamImport")] /\
  pendingRequests m3 !! "req_1" = None /\
  settled_count 0 (steps late m3) = 1 /\
  (forall p, settled_count p (steps late m3) <= 1) /\
  forall history p, settled_count p (steps history init) <= 1.
Proof.
  intros evs late.
  apply (timeout_settles_exactly_once [] "streamImport" "{filePath}" (Some true) 600000 evs late).
  apply Forall_cons. split; [exact I|].
  apply Forall_cons. split; [right; reflexivity|].
  apply Forall_cons. split; [left; discriminate|].
  apply Forall_cons. split; [discriminate|]. apply Forall_nil_2.
Defined.

Lemma cleanupTempFile_never_raises_witness :
  let w := Demo.large Demo.quiet_io (Demo.run_of Demo.chat None) None in
  let os := Demo.os_with Demo.quiet_io in
  let staged := preprocessStage w "/in/big.json" (init_state Demo.fs0 None) in
  let s0 := (createDatabase w (generateSessionId w) staged.2).2 in
  let s3 := (try_catch (transaction w "/tmp/chatlab/slim_1700000000000_big.json")
               (onFailure w) s0).2 in
  (forall p fs, exists fs', ShuakamiQq.cleanupTempFile os p fs = (Ok tt, fs')) /\
  exists s4,
    importStage w "/in/big.json" "/tmp/chatlab/slim_1700000000000_big.json"
      (Some "/tmp/chatlab/slim_1700000000000_big.json") staged.2 =
      (Ok {| success := true; sessionId := Some "chat_1700000000000_k3x9qa";
             error := None |}, s4) /\
    same_vars s3 s4.
Proof.
  intros w os staged s0 s3.
  apply (cleanupTempFile_never_raises w os "/in/big.json"
           "/tmp/chatlab/slim_1700000000000_big.json"
           (Some "/tmp/chatlab/slim_1700000000000_big.json") staged.2 s0
           {| success := true; sessionId := Some "chat_1700000000000_k3x9qa"; error := None |}
           s3).
  - reflexivity.
  - vm_compute. reflexivity.
  - vm_compute. reflexivity.
Defined.

(** A large file is slimmed, imported, and its temp file removed. *)
Example large_import_cleans_up :
  let w := Demo.large Demo.quiet_io (Demo.run_of Demo.chat None) None in
  let out := run_streamImport w Demo.fs0 "/in/big.json" in
  out.1 = Ok {| success := true; sessionId := Some "chat_1700000000000_k3x9qa";
                error := None |} /\
  (map_to_list (files (st_fs out.2))).*1 = ["/db/chat_1700000000000_k3x9qa.db"].
Proof. split; vm_compute; reflexivity. Qed.

(** C6 (preprocess failure), at the failing input: the header and one
    record have been written when the write stream emits ['error']
    (the volume of the temp directory is full). No listener was ever
    registered for that event, so it is an uncaught exception in the
    worker: the promise of [preprocessQQJson] is never settled, the
    partial output file stays in the temp directory, and [streamImport],
    which awaits the promise, returns nothing. *)
Theorem write_error_leaves_partial_output :
  let os := Demo.os_with Demo.full_disk_io in
  let w := Demo.large Demo.full_disk_io (Demo.run_of Demo.chat None) None in
  let out := ShuakamiQq.preprocessQQJson os "/in/big.json" Demo.fs0 in
  ShuakamiQq.outputPath os "/in/big.json" = "/tmp/chatlab/slim_1700000000000_big.json" /\
  out.1.1 = Hang /\
  files out.1.2 !! "/tmp/chatlab/slim_1700000000000_big.json"
    = Some (FText ["{" +:+ LF; "{m1}"]) /\
  (run_streamImport w Demo.fs0 "/in/big.json").1 = Hang /\
  Fs.existsSync "/tmp/chatlab/slim_1700000000000_big.json"
    (st_fs (run_streamImport w Demo.fs0 "/in/big.json").2) = true.
Proof. repeat split; vm_compute; reflexivity. Qed.

(** A structural error of the parser at the same place is handled: the
    import returns the error and the temp directory is empty again. *)
Example parse_error_is_handled :
  let w := Demo.large Demo.broken_io (Demo.run_of Demo.chat None) None in
  let out := run_streamImport w Demo.fs0 "/in/big.json" in
  out.1 = Ok (failed "预处理失败: Parser cannot parse input: expected a value") /\
  files (st_fs out.2) = ∅.
Proof. split; vm_compute; reflexivity. Qed.

(** ** Sample runs of the further properties *)

Lemma plain_started_in fs r fault :
  files fs !! getDbPath (Demo.plain r fault) (generateSessionId (Demo.plain r fault)) = None ->
  Started (Demo.plain r fault) fs Demo.path Demo.path None (init_state fs fault).
Proof.
  intros H. split; [by eexists|]. split; [reflexivity|]. split; [exact H|].
  split; [discriminate|]. discriminate.
Qed.

Lemma large_started io r fault :
  let w := Demo.large io r fault in
  forall actual tmp s1,
  preprocessStage w Samples.big (init_state Demo.fs0 fault) = (Ok (inr (actual, Some tmp)), s1) ->
  files (st_fs s1) !! getDbPath w (generateSessionId w) = None ->
  tmp <> getDbPath w (generateSessionId w) ->
  Started w Demo.fs0 Samples.big actual (Some tmp) s1.
Proof.
  intros w actual tmp s1 H1 H2 H3.
  split; [by eexists|]. split; [exact H1|]. split; [exact H2|].
  split; [congruence|]. intros pre [= <-]. apply qqPreprocessor_cleanup_safe.
Qed.

Lemma import_stores_kept_messages_witness :
  let w := Demo.plain Samples.listed_chat None in
  let s' := (run_streamImport w Demo.fs0 Demo.path).2 in
  exists t,
    committed w s' = Some t /\
    Forall2 (stored_as t) (message t) (filter (fun m => is_valid m) Demo.noisy_chat) /\
    msg_id <$> message t = seq 1 (length (message t)).
Proof.
  intros w s'.
  apply (import_stores_kept_messages w Demo.fs0 Demo.path Demo.path None
           (init_state Demo.fs0 None) (plain_started _ _)
           {| success := true; sessionId := Some (generateSessionId w); error := None |} s').
  - vm_compute. reflexivity.
  - reflexivity.
Defined.


(** The member rows of that run: Alice has the name of her last message,
    Carol, who sent nothing, the name of the member list, and her empty
    nickname is stored as [NULL]. *)
Example listed_chat_members :
  let w := Demo.plain Samples.listed_chat None in
  (fun t => (fun r => (m_id r, m_platform_id r, m_name r, m_nickname r)) <$> member t)
    <$> committed w (run_streamImport w Demo.fs0 Demo.path).2 =
  Some [(1, "u1", "Ally", None); (2, "u3", "Carol", None); (3, "u2", "Bob", None)].
Proof. vm_compute. reflexivity. Qed.

Lemma import_keeps_references_witness :
  let w := Demo.plain Samples.listed_chat None in
  let s' := (run_streamImport w Demo.fs0 Demo.path).2 in
  exists t,
    committed w s' = Some t /\
    (forall mr, mr ∈ message t ->
       exists row, row ∈ member t /\ m_id row = msg_sender_id mr) /\
    (forall h, h ∈ member_name_history t ->
       exists row, row ∈ member t /\ m_id row = h_member_id h /\
                   observations (m_platform_id row) Demo.noisy_chat <> []).
Proof.
  intros w s'.
  apply (import_keeps_references w Demo.fs0 Demo.path Demo.path None
           (init_state Demo.fs0 None) (plain_started _ _)
           {| success := true; sessionId := Some (generateSessionId w); error := None |} s').
  - vm_compute. reflexivity.
  - reflexivity.
Defined.

Lemma import_stores_first_meta_witness :
  let w := Demo.plain Samples.listed_chat None in
  let s' := (run_streamImport w Demo.fs0 Demo.path).2 in
  exists t,
    committed w s' = Some t /\
    meta t = [{| r_name := "group"; r_platform := "qq"; r_type := "group";
                 r_imported_at := 1700000000 |}].
Proof.
  intros w s'.
  apply (import_stores_first_meta w Demo.fs0 Demo.path Demo.path None
           (init_state Demo.fs0 None) (plain_started _ _)
           {| success := true; sessionId := Some (generateSessionId w); error := None |} s').
  - vm_compute. reflexivity.
  - reflexivity.
Defined.

Lemma import_warns_per_skipped_message_witness :
  let w := Demo.plain Samples.listed_chat None in
  st_console (run_streamImport w Demo.fs0 Demo.path).2 = omap skip_reason Demo.noisy_chat.
Proof.
  intros w.
  apply (import_warns_per_skipped_message w Demo.fs0 Demo.path Demo.path None
           (init_state Demo.fs0 None) (plain_started _ _)
           {| success := true; sessionId := Some (generateSessionId w); error := None |}).
  - vm_compute. reflexivity.
  - reflexivity.
Defined.

Lemma import_forwards_progress_witness :
  let w := Demo.plain Samples.listed_chat None in
  st_sent (run_streamImport w Demo.fs0 Demo.path).2 =
    [{| stage := SParsing; bytesRead := 10; totalBytes := 1000;
        messagesProcessed := 0; percentage := 1; progress_message := "" |}].
Proof.
  intros w.
  apply (import_forwards_progress w Demo.fs0 Demo.path Demo.path None
           (init_state Demo.fs0 None) (plain_started _ _)
           {| success := true; sessionId := Some (generateSessionId w); error := None |}).
  - vm_compute. reflexivity.
  - reflexivity.
Defined.

Lemma import_success_touches_no_other_file_witness :
  let w := Demo.plain Samples.listed_chat None in
  let s' := (run_streamImport w Samples.used_fs Demo.path).2 in
  locked (st_fs s') = locked Samples.used_fs /\
  forall q, q <> getDbPath w (generateSessionId w) -> None <> Some q ->
            files (st_fs s') !! q = files Samples.used_fs !! q.
Proof.
  intros w s'.
  apply (import_success_touches_no_other_file w Samples.used_fs Demo.path Demo.path None
           (init_state Samples.used_fs None)
           (plain_started_in Samples.used_fs Samples.listed_chat None
              ltac:(vm_compute; reflexivity))
           {| success := true; sessionId := Some (generateSessionId w); error := None |} s').
  - vm_compute. reflexivity.
  - reflexivity.
Defined.

Lemma preprocess_writes_framed_records_witness :
  let os := Demo.os_with Demo.quiet_io in
  exists kept progress,
    kept `prefix_of` ["{"] /\ (kept = ["{"] \/ (100000 <= chars kept)%N) /\
    ShuakamiQq.preprocessQQJson os Samples.big Demo.fs0 =
      (Ok (ShuakamiQq.outputPath os Samples.big),
       Fs.put (ShuakamiQq.outputPath os Samples.big)
         (FText ((headerOf os (String.concat "" kept) +:+ LF) ::
                   ["{m1}"; "," +:+ LF +:+ "{m2}"] ++ [LF +:+ "]}"])) Demo.fs0,
       progress) /\
    last progress =
      Some (createProgress os SDone (getFileSize os Samples.big) (getFileSize os Samples.big) 2
              "预处理完成") /\
    N.of_nat (length progress) = (3 + 2 / 10000)%N.
Proof.
  intros os.
  apply (preprocess_writes_framed_records os Samples.big Demo.fs0 ["{"]
           [inl "{"; inr "{m1}"; inr "{m2}"]).
  reflexivity.
Defined.

Lemma preprocess_pipeline_error_removes_output_witness :
  let os := Demo.os_with Demo.broken_io in
  exists b progress,
    ShuakamiQq.preprocessQQJson os Samples.big Demo.fs0 =
      (Throw "Parser cannot parse input: expected a value",
       Fs.remove (ShuakamiQq.outputPath os Samples.big) Demo.fs0, progress) /\
    last progress =
      Some (createProgress os SError b (getFileSize os Samples.big) 1
              ("预处理错误: " +:+ "Parser cannot parse input: expected a value")).
Proof.
  intros os.
  apply (preprocess_pipeline_error_removes_output os Samples.big Demo.fs0 ["{"]
           [inl "{"; inr "{m1}"] "Parser cannot parse input: expected a value").
  - reflexivity.
  - apply not_elem_of_empty.
Defined.

Lemma preprocess_head_error_only_rejects_witness :
  let os := Demo.os_with Samples.flaky_io in
  let rest := [HeadClose; ReadData "{"; PipelineData "{m1}"; PipelineEnd; WriteFinish] in
  let s := ShuakamiQq.handle_all os Samples.big ((HeadData <$> ["{"]) ++ rest)
             (ShuakamiQq.pre_init os Samples.big Demo.fs0) in
  ShuakamiQq.preprocessQQJson os Samples.big Demo.fs0 =
    (Throw "EIO: i/o error, read", ShuakamiQq.pre_fs s, ShuakamiQq.pre_progress s) /\
  (rest = [] ->
   ShuakamiQq.pre_fs s = Demo.fs0 /\
   ShuakamiQq.pre_progress s =
     [createProgress os SParsing 0 (getFileSize os Samples.big) 0 "预处理：读取文件头..."]) /\
  (rest = [HeadClose] ++ second_pass [inl "{"; inr "{m1}"] ++ [PipelineEnd; WriteFinish] ->
   exists kept,
     kept `prefix_of` ["{"] /\
     ShuakamiQq.pre_fs s =
       Fs.put (ShuakamiQq.outputPath os Samples.big)
         (FText ((headerOf os (String.concat "" kept) +:+ LF) ::
                   framed (records [inl "{"; inr "{m1}"]) ++ [LF +:+ "]}"])) Demo.fs0).
Proof.
  intros os rest.
  apply (preprocess_head_error_only_rejects os Samples.big Demo.fs0 ["{"]
           [inl "{"; inr "{m1}"] "EIO: i/o error, read" rest).
  reflexivity.
Defined.

Lemma cleanup_removes_preprocess_output_witness :
  let os := Demo.os_with Demo.quiet_io in
  let out := ShuakamiQq.preprocessQQJson os Samples.big Demo.fs0 in
  is_Some (files out.1.2 !! Samples.slim) /\
  exists fs2,
    cleanup (ShuakamiQq.qqPreprocessor os) Samples.slim out.1.2 = (Ok tt, fs2) /\
    files fs2 !! Samples.slim = None /\ locked fs2 = locked out.1.2 /\
    forall q, q <> Samples.slim -> files fs2 !! q = files out.1.2 !! q.
Proof.
  intros os out. split; [vm_compute; eauto|].
  apply (cleanup_removes_preprocess_output os Samples.big Demo.fs0 Samples.slim out.1.2 out.2).
  - vm_compute. reflexivity.
  - replace (locked out.1.2) with (∅ : gset string) by (vm_compute; reflexivity).
    apply not_elem_of_empty.
Defined.



Lemma import_removes_temp_file_witness :
  let w := Demo.large Demo.quiet_io (Demo.run_of Demo.chat None) (Some 5) in
  let staged := preprocessStage w Samples.big (init_state Demo.fs0 (Some 5)) in
  let out := run_streamImport w Demo.fs0 Samples.big in
  is_Some (files (st_fs staged.2) !! Samples.slim) /\
  out.1 = Ok (failed "SqliteError: disk I/O error") /\
  files (st_fs out.2) !! Samples.slim = None.
Proof.
  intros w staged out. split; [vm_compute; eauto|]. split; [vm_compute; reflexivity|].
  apply (import_removes_temp_file w Demo.fs0 Samples.big Samples.slim (Some Samples.slim)
           staged.2
           (large_started Demo.quiet_io (Demo.run_of Demo.chat None) (Some 5)
              Samples.slim Samples.slim staged.2
              ltac:(vm_compute; reflexivity) ltac:(vm_compute; reflexivity)
              ltac:(vm_compute; discriminate))
           (Demo.os_with Demo.quiet_io) Samples.slim out.1 out.2).
  - reflexivity.
  - reflexivity.
  - replace (locked (st_fs staged.2)) with (∅ : gset string) by (vm_compute; reflexivity).
    apply not_elem_of_empty.
  - apply surjective_pairing.
  - vm_compute. discriminate.
Defined.


Lemma preview_reports_last_meta_witness :
  let w := Demo.plain Samples.listed_chat None in
  let sent := (StreamParseFileInfo.streamParseFileInfo w Demo.path).2 in
  exists ff size,
    detectFormat w Demo.path = Some ff /\ statSize w Demo.path = Ok size /\
    let evs := run_events (streamParseFile w Demo.path
                             (StreamParseFileInfo.batchSizeFor size)) in
    "renamed" = default "未知群聊" (meta_name <$> last (run_metas evs)) /\
    "qq" = default (format_platform ff) (meta_platform <$> last (run_metas evs)) /\
    "chatlab" = format_name ff /\ 1000%N = size /\
    sent = {| stage := SParsing; bytesRead := 0; totalBytes := size; messagesProcessed := 0;
              percentage := 0; progress_message := "正在读取文件..." |} :: run_progress evs.
Proof.
  intros w sent.
  apply (preview_reports_last_meta w Demo.path
           {| info_name := "renamed"; info_format := "chatlab"; info_platform := "qq";
              info_messageCount := 6; info_memberCount := 4; info_fileSize := 1000 |} sent).
  vm_compute. reflexivity.
Defined.

Lemma preview_member_count_bounds_import_witness :
  let w := Demo.plain Samples.listed_chat None in
  let s' := (run_streamImport w Demo.fs0 Demo.path).2 in
  let pids := mention_pid <$> mentions (run_events Samples.listed_chat) in
  exists t,
    committed w s' = Some t /\
    m_platform_id <$> member t ≡ₚ remove_dups pids /\
    length (member t) <= 4 /\
    (length (member t) = 4 <->
     forall x, x ∈ run_ids (run_events Samples.listed_chat) -> exists p, x = Some p /\ p ∈ pids).
Proof.
  intros w s'.
  apply (preview_member_count_bounds_import w Demo.fs0 Demo.path Demo.path None
           (init_state Demo.fs0 None) (plain_started _ _)
           {| info_name := "renamed"; info_format := "chatlab"; info_platform := "qq";
              info_messageCount := 6; info_memberCount := 4; info_fileSize := 1000 |}
           (StreamParseFileInfo.streamParseFileInfo w Demo.path).2
           {| success := true; sessionId := Some (generateSessionId w); error := None |} s').
  - vm_compute. reflexivity.
  - vm_compute. reflexivity.
  - reflexivity.
  - reflexivity.
Defined.

Lemma import_leaves_output_after_head_error_witness :
  let w := Demo.large Samples.flaky_io (Demo.run_of Demo.chat None) None in
  let os := Demo.os_with Samples.flaky_io in
  exists s' kept,
    run_streamImport w Demo.fs0 Samples.big =
      (Ok (failed ("预处理失败: " +:+ "EIO: i/o error, read")), s') /\
    kept `prefix_of` ["{"] /\
    st_fs s' =
      Fs.put (ShuakamiQq.outputPath os Samples.big)
        (FText ((headerOf os (String.concat "" kept) +:+ LF) ::
                  framed (records [inl "{"; inr "{m1}"]) ++ [LF +:+ "]}"])) Demo.fs0.
Proof.
  intros w os.
  apply (import_leaves_output_after_head_error w Demo.fs0 Samples.big os ["{"]
           [inl "{"; inr "{m1}"] "EIO: i/o error, read").
  - by eexists.
  - reflexivity.
  - reflexivity.
  - reflexivity.
Defined.

(** That run: the import fails and the slimmed file is still there. *)
Example head_error_leaks_temp_file :
  let w := Demo.large Samples.flaky_io (Demo.run_of Demo.chat None) None in
  let out := run_streamImport w Demo.fs0 Samples.big in
  out.1 = Ok (failed "预处理失败: EIO: i/o error, read") /\
  files (st_fs out.2) !! Samples.slim = Some (FText ["{" +:+ LF; "{m1}"; LF +:+ "]}"]).
Proof. split; vm_compute; reflexivity. Qed.

Lemma pending_request_has_timer_witness :
  let evs := [Send "getSession" "{}" None 30000 true;
              Send "streamImport" "{filePath}" (Some true) 600000 true;
              Message (Demo.progress_of "req_2");
              Message (Demo.done_of "req_1" "null")] in
  let m := steps evs init in
  exists ty payload,
    timers m !! 1 = Some ("req_2", ty) /\
    ("req_2", ty, payload) ∈ posted m /\
    settled_count 1 m = 0 /\
    let m' := step (TimerFires 1) m in
    calls m' = calls m ++ [(1, Reject ("Worker request timeout: " +:+ ty))] /\
    pendingRequests m' = delete "req_2" (pendingRequests m) /\
    settled_count 1 m' = 1.
Proof.
  intros evs m.
  apply (pending_request_has_timer evs "req_2" {| promise := 1; onProgress := true |}).
  vm_compute. reflexivity.
Defined.

Lemma exit_of_closed_worker_rejects_new_request_witness :
  let m := steps [Send "getSession" "{}" None 30000 true] init in
  let sent := steps [CloseWorker; Send "getMembers" "{sessionId}" None 30000 true] m in
  let m' := step (Exit 1) sent in
  worker sent = true /\
  (exists id, last (posted sent) = Some (id, "getMembers", "{sessionId}") /\
     exists p, pendingRequests sent !! id = Some p /\
       settled_count (promise p) sent = 0 /\
       (promise p, Reject "Worker exited unexpectedly") ∈ calls m' /\
       settled_count (promise p) m' = 1) /\
  worker m' = false /\ pendingRequests m' = ∅.
Proof.
  intros m sent m'.
  apply (exit_of_closed_worker_rejects_new_request
           [Send "getSession" "{}" None 30000 true] "getMembers" "{sessionId}" None 30000 1).
  reflexivity.
Defined.

Lemma every_promise_is_pending_or_settled_witness :
  let evs := [Send "getSession" "{}" None 30000 true;
              Send "streamImport" "{filePath}" (Some true) 600000 true;
              Send "getMembers" "{sessionId}" None 30000 false;
              Message (Demo.progress_of "req_2");
              Message (Demo.done_of "req_1" "null")] in
  let m := steps evs init in
  (settled_count 1 m = 1 /\
   forall id p, pendingRequests m !! id = Some p -> promise p <> 1) \/
  (settled_count 1 m = 0 /\
   exists id ty, armed id 1 ty m /\
     forall id' p, pendingRequests m !! id' = Some p -> promise p = 1 -> id' = id).
Proof.
  intros evs m. apply (every_promise_is_pending_or_settled evs 1). vm_compute. lia.
Defined.

(** ** [slimMessage] *)

Import Slim.

Example slim_sample : slimMessage sample = Ok slimmed_sample.
Proof. vm_compute. reflexivity. Qed.

Lemma lookup_nil k : lookup_field k [] = JUndefined.
Proof. done. Qed.

Lemma lookup_cons_eq k v rest : lookup_field k ((k, v) :: rest) = v.
Proof. unfold lookup_field. simpl. by rewrite String.eqb_refl. Qed.

Lemma lookup_cons_ne k k' v rest :
  k' <> k -> lookup_field k ((k', v) :: rest) = lookup_field k rest.
Proof. intros H. unfold lookup_field. simpl. by destruct (String.eqb_spec k' k). Qed.

Lemma lookup_when_eq c k v rest :
  lookup_field k (when c k v ++ rest) = if c then v else lookup_field k rest.
Proof. destruct c; simpl; [apply lookup_cons_eq|done]. Qed.

Lemma lookup_when_ne c k k' v rest :
  k' <> k -> lookup_field k (when c k' v ++ rest) = lookup_field k rest.
Proof. intros H. destruct c; simpl; [by apply lookup_cons_ne|done]. Qed.

Lemma lookup_when_last_eq c k v :
  lookup_field k (when c k v) = if c then v else JUndefined.
Proof. destruct c; simpl; [apply lookup_cons_eq|done]. Qed.

Lemma lookup_when_last_ne c k k' v : k' <> k -> lookup_field k (when c k' v) = JUndefined.
Proof. intros H. destruct c; simpl; [by rewrite lookup_cons_ne|done]. Qed.

Ltac look :=
  repeat first
    [ rewrite lookup_cons_eq
    | rewrite lookup_cons_ne by done
    | rewrite lookup_when_eq
    | rewrite lookup_when_ne by done
    | rewrite lookup_when_last_eq
    | rewrite lookup_when_last_ne by done
    | rewrite lookup_nil ].

Lemma or_default_idem a b : or (or a b) b = or a b.
Proof. unfold or. destruct (truthy a) eqn:E; [by rewrite E|]. by destruct (truthy b). Qed.

Lemma when_truthy_idem k v :
  when (truthy (if truthy v then v else JUndefined)) k (if truthy v then v else JUndefined) =
  when (truthy v) k v.
Proof. destruct (truthy v) eqn:E; [by rewrite E|done]. Qed.

Lemma when_defined_idem k v :
  when (defined (if defined v then v else JUndefined)) k (if defined v then v else JUndefined) =
  when (defined v) k v.
Proof. by destruct v. Qed.

(** *** The arrays of the content *)

Lemma map_types_ok items :
  (exists l, map_types items = Ok l) <-> Forall (fun e => nullish e = false) items.
Proof.
  induction items as [|e items IH]; simpl; [by split; eauto|].
  rewrite Forall_cons, <- IH. destruct e; simpl;
    try (split; [intros [l H]|intros [H _]]; done);
    destruct (map_types items) as [l| |]; split; try (intros [? ?]; done); eauto;
    intros [_ [? ?]]; done.
Qed.

Lemma map_types_never_hangs items : map_types items <> Hang.
Proof.
  induction items as [|e items IH]; simpl; [done|].
  destruct e; simpl; try done; by destruct (map_types items).
Qed.

Lemma map_types_shape items l :
  map_types items = Ok l ->
  Forall2 (fun e r => r = JObject [("type", opt_get e "type")]) items l.
Proof.
  revert l. induction items as [|e items IH]; intros l; simpl.
  - intros [= <-]. constructor.
  - destruct (get e "type") as [t| |] eqn:E; try done.
    destruct (map_types items) as [l'| |]; try done. intros [= <-].
    constructor; [|by apply IH]. destruct e; simpl in E; try done; by injection E as <-.
Qed.

Lemma map_types_idem items l : map_types items = Ok l -> map_types l = Ok l.
Proof.
  intros H%map_types_shape. induction H as [|e r items l -> _ IH]; simpl; [done|].
  rewrite IH. by rewrite lookup_cons_eq.
Qed.

Lemma map_types_fmap items l :
  map_types items = Ok l -> l = (fun e => JObject [("type", opt_get e "type")]) <$> items.
Proof.
  intros H%map_types_shape. induction H as [|e r items l -> _ IH]; simpl; [done|].
  by rewrite IH.
Qed.

Lemma slim_list_shape content k fs :
  slim_list content k = Ok fs ->
  exists b l, fs = when b k (JArray l) /\ map_types l = Ok l /\
              l = (fun e => JObject [("type", opt_get e "type")]) <$> items_of content k /\
              (b = false -> l = []).
Proof.
  unfold slim_list, items_of.
  destruct (opt_get content k) as [| | | | |items|]; try (intros [= <-]; by exists false, []).
  destruct (map_types items) as [l| |] eqn:E; try done. intros [= <-].
  exists true, l. split; [done|]. split; [by eapply map_types_idem|].
  split; [by apply map_types_fmap|done].
Qed.

Lemma slim_list_ok content k :
  (exists fs, slim_list content k = Ok fs) <->
  Forall (fun e => nullish e = false) (items_of content k).
Proof.
  unfold slim_list, items_of.
  destruct (opt_get content k) as [| | | | |items|]; try (split; eauto; done).
  rewrite <- map_types_ok. destruct (map_types items) as [l| |]; split; eauto;
    intros [? ?]; done.
Qed.

Lemma slim_list_never_hangs content k : slim_list content k <> Hang.
Proof.
  unfold slim_list. destruct (opt_get content k) as [| | | | |items|]; try done.
  pose proof (map_types_never_hangs items). by destruct (map_types items).
Qed.

(** What [slimMessage] returns, when it returns. *)
Lemma slimMessage_inv msg v :
  slimMessage msg = Ok v ->
  nullish msg = false /\
  exists (b1 : bool) l1 (b2 : bool) l2 (b3 : bool) l3,
    map_types l1 = Ok l1 /\ map_types l2 = Ok l2 /\ map_types l3 = Ok l3 /\
    l1 = (fun e => JObject [("type", opt_get e "type")])
           <$> items_of (opt_get msg "content") "elements" /\
    l2 = (fun e => JObject [("type", opt_get e "type")])
           <$> items_of (opt_get msg "content") "resources" /\
    l3 = (fun e => JObject [("type", opt_get e "type")])
           <$> items_of (opt_get msg "content") "emojis" /\
    (b1 = false -> l1 = []) /\ (b2 = false -> l2 = []) /\ (b3 = false -> l3 = []) /\
    v = JObject
          (("timestamp", opt_get msg "timestamp") ::
           ("sender",
            JObject (("name", or (opt_get (opt_get msg "sender") "name") (JString "")) ::
                     when (truthy (opt_get (opt_get msg "sender") "uin")) "uin"
                       (opt_get (opt_get msg "sender") "uin") ++
                     when (truthy (opt_get (opt_get msg "sender") "uid")) "uid"
                       (opt_get (opt_get msg "sender") "uid"))) ::
           ("content",
            JObject (("text", or (opt_get (opt_get msg "content") "text") (JString "")) ::
                     when b1 "elements" (JArray l1) ++ when b2 "resources" (JArray l2) ++
                     when b3 "emojis" (JArray l3))) ::
           when (truthy (opt_get msg "id")) "id" (opt_get msg "id") ++
           when (truthy (opt_get msg "type")) "type" (opt_get msg "type") ++
           when (truthy (opt_get msg "recalled")) "recalled" (opt_get msg "recalled") ++
           when (truthy (opt_get msg "system")) "system" (opt_get msg "system") ++
           when (truthy (opt_get msg "messageId")) "messageId" (opt_get msg "messageId") ++
           when (defined (opt_get msg "messageType")) "messageType"
             (opt_get msg "messageType") ++
           when (truthy (opt_get msg "isRecalled")) "isRecalled" (opt_get msg "isRecalled") ++
           when (truthy (opt_get msg "isSystemMessage")) "isSystemMessage"
             (opt_get msg "isSystemMessage") ++
           slim_raw (opt_get msg "rawMessage")).
Proof.
  unfold slimMessage. destruct (get msg "sender") as [sender| |] eqn:Es; try done.
  assert (nullish msg = false /\ sender = opt_get msg "sender") as [Hn ->].
  { destruct msg; simpl in Es; try done; by injection Es as <-. }
  cbv zeta.
  destruct (slim_list _ "elements") as [f1| |] eqn:E1; try done.
  destruct (slim_list _ "resources") as [f2| |] eqn:E2; try done.
  destruct (slim_list _ "emojis") as [f3| |] eqn:E3; try done.
  intros [= <-]. split; [done|].
  apply slim_list_shape in E1 as (b1 & l1 & -> & M1 & S1 & Z1).
  apply slim_list_shape in E2 as (b2 & l2 & -> & M2 & S2 & Z2).
  apply slim_list_shape in E3 as (b3 & l3 & -> & M3 & S3 & Z3).
  exists b1, l1, b2, l2, b3, l3. done.
Qed.

Lemma slim_list_again t b1 l1 b2 l2 b3 l3 :
  map_types l1 = Ok l1 -> map_types l2 = Ok l2 -> map_types l3 = Ok l3 ->
  let content := JObject (("text", t) :: when b1 "elements" (JArray l1) ++
                          when b2 "resources" (JArray l2) ++ when b3 "emojis" (JArray l3)) in
  slim_list content "elements" = Ok (when b1 "elements" (JArray l1)) /\
  slim_list content "resources" = Ok (when b2 "resources" (JArray l2)) /\
  slim_list content "emojis" = Ok (when b3 "emojis" (JArray l3)).
Proof.
  intros M1 M2 M3 content. unfold slim_list, content. cbn [opt_get]. look.
  destruct b1, b2, b3; rewrite ?M1, ?M2, ?M3; done.
Qed.

Lemma slim_raw_again raw :
  slim_raw (lookup_field "rawMessage" (slim_raw raw)) = slim_raw raw.
Proof.
  unfold slim_raw at 2 3. look. destruct (truthy raw); [|done].
  unfold slim_raw. cbn [truthy opt_get]. look. by rewrite !when_truthy_idem.
Qed.

Lemma lookup_slim_raw_ne k raw :
  "rawMessage" <> k -> lookup_field k (slim_raw raw) = JUndefined.
Proof. intros H. unfold slim_raw. by rewrite lookup_when_last_ne. Qed.

(** X25 ([slimMessage] is idempotent). Slimming a message that
    [slimMessage] returned gives the same message again, property by
    property and in the same order. *)
Theorem slimMessage_idempotent msg v :
  slimMessage msg = Ok v -> slimMessage v = Ok v.
Proof.
  intros (Hn & b1 & l1 & b2 & l2 & b3 & l3 & M1 & M2 & M3 & _ & _ & _ & _ & _ & _ & ->)%slimMessage_inv.
  unfold slimMessage, get. cbn [opt_get]. look. cbv zeta.
  destruct (slim_list_again (or (opt_get (opt_get msg "content") "text") (JString ""))
              b1 l1 b2 l2 b3 l3 M1 M2 M3) as (-> & -> & ->).
  cbn [opt_get]. look. rewrite !lookup_slim_raw_ne by done.
  rewrite !or_default_idem, !when_truthy_idem, when_defined_idem, slim_raw_again. done.
Qed.

Ltac among :=
  solve [repeat first [apply list_elem_of_here | apply list_elem_of_further]].

Ltac keys_in H :=
  repeat first
    [ apply elem_of_nil in H; destruct H
    | apply elem_of_cons in H as [->|H]; [among|]
    | apply elem_of_app in H as [H|H];
      [match type of H with _ ∈ (when ?c _ _).*1 => destruct c; simpl in H end|] ].

(** X26 (when [slimMessage] returns). [slimMessage] never hangs. It
    returns a message exactly when its argument is neither [null] nor
    [undefined] and no item of the arrays [elements], [resources] and
    [emojis] of the content is; otherwise it throws a [TypeError], as
    for a [null] entry of [messages]. *)
Theorem slimMessage_returns_iff msg :
  slimMessage msg <> Hang /\
  ((exists v, slimMessage msg = Ok v) <->
   nullish msg = false /\
   Forall (fun e => nullish e = false)
     (items_of (opt_get msg "content") "elements" ++
      items_of (opt_get msg "content") "resources" ++
      items_of (opt_get msg "content") "emojis")).
Proof.
  rewrite !Forall_app, <- !slim_list_ok. unfold slimMessage.
  pose proof (slim_list_never_hangs (opt_get msg "content") "elements") as N1.
  pose proof (slim_list_never_hangs (opt_get msg "content") "resources") as N2.
  pose proof (slim_list_never_hangs (opt_get msg "content") "emojis") as N3.
  assert ((exists s, get msg "sender" = Ok s) <-> nullish msg = false) as Hg.
  { destruct msg; simpl; split; try done; try (intros [? ?]; done); eauto. }
  assert (get msg "sender" <> Hang) as N0 by by destruct msg.
  cbv zeta. destruct (get msg "sender") as [s|e|]; [|split; [done|]..].
  - destruct (slim_list _ "elements") as [f1|e1|]; [|split; [done|]..].
    + destruct (slim_list _ "resources") as [f2|e2|]; [|split; [done|]..].
      * destruct (slim_list _ "emojis") as [f3|e3|]; [|split; [done|]..].
        -- split; [done|]. split; [|eauto]. intros _. rewrite <- Hg. eauto 10.
        -- split; [intros [? ?]; done|]. intros (_ & _ & _ & [? ?]). done.
        -- done.
      * split; [intros [? ?]; done|]. intros (_ & _ & [? ?] & _). done.
      * done.
    + split; [intros [? ?]; done|]. intros (_ & [? ?] & _). done.
    + done.
  - split; [intros [? ?]; done|]. intros ([? ?]%Hg & _). done.
  - done.
Qed.

(** X27 (what [slimMessage] leaves out). A message that [slimMessage]
    returns has no property besides the twelve it copies; its sender has
    at most [name], [uin] and [uid], its content at most [text],
    [elements], [resources] and [emojis], so that [html] and [raw] never
    pass, its [rawMessage] at most the four name and id fields, and every
    item of the three arrays has the property [type] and no other. *)
Theorem slimMessage_keeps_only_listed_keys msg v :
  slimMessage msg = Ok v ->
  keys v ⊆ ["timestamp"; "sender"; "content"; "id"; "type"; "recalled"; "system";
            "messageId"; "messageType"; "isRecalled"; "isSystemMessage"; "rawMessage"] /\
  keys (opt_get v "sender") ⊆ ["name"; "uin"; "uid"] /\
  keys (opt_get v "content") ⊆ ["text"; "elements"; "resources"; "emojis"] /\
  keys (opt_get v "rawMessage") ⊆ ["sendNickName"; "sendMemberName"; "senderUin"; "senderUid"] /\
  forall k item, k ∈ ["elements"; "resources"; "emojis"] ->
    item ∈ items_of (opt_get v "content") k -> keys item = ["type"].
Proof.
  intros (Hn & b1 & l1 & b2 & l2 & b3 & l3 & _ & _ & _ & L1 & L2 & L3 & Z1 & Z2 & Z3 & ->)%slimMessage_inv.
  cbn [opt_get]. look. rewrite ?lookup_slim_raw_ne by done. cbn [keys].
  split; [|split; [|split; [|split]]].
  - intros x Hx. rewrite !fmap_cons, !fmap_app in Hx. cbn [fst] in Hx.
    unfold slim_raw in Hx. keys_in Hx; try among.
    destruct (truthy (opt_get msg "rawMessage")); simpl in Hx; keys_in Hx.
  - intros x Hx. rewrite !fmap_cons, !fmap_app in Hx. cbn [fst] in Hx.
    keys_in Hx; try among.
    destruct (truthy (opt_get (opt_get msg "sender") "uid")); simpl in Hx; keys_in Hx.
  - intros x Hx. rewrite !fmap_cons, !fmap_app in Hx. cbn [fst] in Hx.
    keys_in Hx; try among. destruct b3; simpl in Hx; keys_in Hx.
  - unfold slim_raw. look. destruct (truthy (opt_get msg "rawMessage")); [|by intros x ?%elem_of_nil].
    intros x Hx. cbn [keys] in Hx. rewrite !fmap_app in Hx.
    keys_in Hx; try among.
    destruct (truthy (opt_get (opt_get msg "rawMessage") "senderUid")); simpl in Hx; keys_in Hx.
  - intros k item Hk Hitem. unfold items_of in Hitem. cbn [opt_get] in Hitem.
    assert (exists l, item ∈ (fun e => JObject [("type", opt_get e "type")]) <$> l)
      as (l & (e & -> & _)%list_elem_of_fmap); [|done].
    apply elem_of_cons in Hk as [->|Hk]; [|apply elem_of_cons in Hk as [->|Hk];
      [|apply elem_of_cons in Hk as [->|Hk]; [|by apply elem_of_nil in Hk]]];
      revert Hitem; look; [destruct b1|destruct b2|destruct b3];
      try (by intros ?%elem_of_nil); rewrite ?L1, ?L2, ?L3; eauto.
Qed.

(** X28 (what [slimMessage] keeps). The slimmed message has the
    timestamp of the message, whatever it is; the sender's name and the
    text of the content, or the empty string where they are missing or
    falsy; [messageType] whenever it is not [undefined], be it [0] or
    [null];
    each of [id], [type], [recalled], [system], [messageId],
    [isRecalled], [isSystemMessage] and of the sender's [uin] and [uid]
    when its value is truthy, and not otherwise; and of every item of the
    three arrays its [type]. *)
Theorem slimMessage_keeps_what_is_read msg v :
  slimMessage msg = Ok v ->
  opt_get v "timestamp" = opt_get msg "timestamp" /\
  opt_get (opt_get v "sender") "name" =
    or (opt_get (opt_get msg "sender") "name") (JString "") /\
  opt_get (opt_get v "content") "text" =
    or (opt_get (opt_get msg "content") "text") (JString "") /\
  opt_get v "messageType" = opt_get msg "messageType" /\
  (forall k, k ∈ ["id"; "type"; "recalled"; "system"; "messageId"; "isRecalled";
                  "isSystemMessage"] ->
     opt_get v k = if truthy (opt_get msg k) then opt_get msg k else JUndefined) /\
  (forall k, k ∈ ["uin"; "uid"] ->
     opt_get (opt_get v "sender") k =
     if truthy (opt_get (opt_get msg "sender") k)
     then opt_get (opt_get msg "sender") k else JUndefined) /\
  (forall k, k ∈ ["elements"; "resources"; "emojis"] ->
     items_of (opt_get v "content") k =
     (fun e => JObject [("type", opt_get e "type")]) <$> items_of (opt_get msg "content") k).
Proof.
  intros (Hn & b1 & l1 & b2 & l2 & b3 & l3 & _ & _ & _ & L1 & L2 & L3 & Z1 & Z2 & Z3 & ->)%slimMessage_inv.
  cbn [opt_get]. look. cbn [opt_get]. look. rewrite ?lookup_slim_raw_ne by done.
  split; [done|]. split; [done|]. split; [done|]. split; [by destruct (opt_get msg "messageType")|].
  split; [|split].
  - intros k Hk. repeat (apply elem_of_cons in Hk as [->|Hk]; [look; by rewrite ?lookup_slim_raw_ne by done|]).
    by apply elem_of_nil in Hk.
  - intros k Hk. repeat (apply elem_of_cons in Hk as [->|Hk]; [by look|]).
    by apply elem_of_nil in Hk.
  - intros k Hk. unfold items_of at 1. cbn [opt_get].
    apply elem_of_cons in Hk as [->|Hk]; [|apply elem_of_cons in Hk as [->|Hk];
      [|apply elem_of_cons in Hk as [->|Hk]; [|by apply elem_of_nil in Hk]]];
      look; [destruct b1|destruct b2|destruct b3]; try done;
      [rewrite <- L1; by rewrite Z1|rewrite <- L2; by rewrite Z2|rewrite <- L3; by rewrite Z3].
Qed.

Lemma slimMessage_idempotent_witness : slimMessage slimmed_sample = Ok slimmed_sample.
Proof.
  apply (slimMessage_idempotent sample slimmed_sample). vm_compute. reflexivity.
Defined.

Lemma slimMessage_keeps_only_listed_keys_witness :
  let v := slimmed_sample in
  keys v ⊆ ["timestamp"; "sender"; "content"; "id"; "type"; "recalled"; "system";
            "messageId"; "messageType"; "isRecalled"; "isSystemMessage"; "rawMessage"] /\
  keys (opt_get v "sender") ⊆ ["name"; "uin"; "uid"] /\
  keys (opt_get v "content") ⊆ ["text"; "elements"; "resources"; "emojis"] /\
  keys (opt_get v "rawMessage") ⊆ ["sendNickName"; "sendMemberName"; "senderUin"; "senderUid"] /\
  forall k item, k ∈ ["elements"; "resources"; "emojis"] ->
    item ∈ items_of (opt_get v "content") k -> keys item = ["type"].
Proof.
  intros v. apply (slimMessage_keeps_only_listed_keys sample v). vm_compute. reflexivity.
Defined.

Lemma slimMessage_keeps_what_is_read_witness :
  let msg := sample in
  let v := slimmed_sample in
  opt_get v "timestamp" = opt_get msg "timestamp" /\
  opt_get (opt_get v "sender") "name" =
    or (opt_get (opt_get msg "sender") "name") (JString "") /\
  opt_get (opt_get v "content") "text" =
    or (opt_get (opt_get msg "content") "text") (JString "") /\
  opt_get v "messageType" = opt_get msg "messageType" /\
  (forall k, k ∈ ["id"; "type"; "recalled"; "system"; "messageId"; "isRecalled";
                  "isSystemMessage"] ->
     opt_get v k = if truthy (opt_get msg k) then opt_get msg k else JUndefined) /\
  (forall k, k ∈ ["uin"; "uid"] ->
     opt_get (opt_get v "sender") k =
     if truthy (opt_get (opt_get msg "sender") k)
     then opt_get (opt_get msg "sender") k else JUndefined) /\
  (forall k, k ∈ ["elements"; "resources"; "emojis"] ->
     items_of (opt_get v "content") k =
     (fun e => JObject [("type", opt_get e "type")]) <$> items_of (opt_get msg "content") k).
Proof.
  intros msg v. apply (slimMessage_keeps_what_is_read msg v). vm_compute. reflexivity.
Defined.
